(** * Exchange-rate resolution service of u2c-exchange-bot

    A shallow embedding of [bot/rates/service.py] (with the snapshot records of
    [bot/rates/providers.py]) and the properties of its graph builder, its
    breadth-first path resolver and its time-bounded cache; then of the code
    around the service: the currency keyboard of [bot/keyboards.py], the
    helpers of [bot/main.py] that read an amount, round it and print the
    sources of a rate, the configuration loader of [bot/config.py], the URL
    rewriting of [bot/db.py] and the user and order operations of
    [bot/repository.py].

    Conventions of the embedding:
    - a Python [float] is a binary64 number: Rocq's primitive [float], with
      Python's [ZeroDivisionError] on a zero divisor written out;
    - a timezone-aware UTC [datetime] is its number of microseconds since the
      epoch, a [Z]; a [timedelta] is a number of microseconds; building a
      [timedelta] and adding one to a [datetime] raise [OverflowError] beyond
      the ranges Python gives them;
    - a [dict] is a [gmap], a [set] a [gset], a [deque] used as a FIFO a list;
    - an exception is a value of [exn], a call that may raise returns a
      [result]; the service object and the log of provider fetches are
      threaded through the monad [M];
    - a [str] is a [string] of ASCII characters: [upper] and [strip] act on
      the ASCII letters and the ASCII white space;
    - the built-in readers [int] and [float] of a string are parameters of the
      code that calls them; [round] is Python's rounding of a float to the
      nearest integer, ties to even;
    - a database table is a map from the primary key to the row, and a
      committed session writes its rows to it. *)

Set Warnings "-rewrite-rw,-clear-no-such-hyp,-inexact-float".
From Stdlib Require Import ssreflect Floats ZArith Ascii.
From stdpp Require Import gmap strings list.

#[global] Open Scope general_if_scope.

Set Default Proof Using "Type".

(** ** Python values *)

Inductive exn : Type :=
  | RuntimeError (msg : string)
  | ZeroDivisionError
  | KeyError (key : string)
  | OverflowError
      (* a [timedelta] or a [datetime] beyond the range of its class *)
  | OtherError (cls msg : string)
      (* any other exception class a provider fetch can raise: transport
         errors, time-outs, malformed payloads *)
  | OutOfFuel.
      (* not a Python exception: the bounded model of a [while] loop ran out
         of steps; [_find_rate_terminates] shows that this never happens *)

Inductive result (A : Type) : Type :=
  | Ok (a : A)
  | Raise (e : exn).
Arguments Ok {A} a.
Arguments Raise {A} e.

#[global] Instance result_ret : MRet result := @Ok.
#[global] Instance result_bind : MBind result := λ A B f m,
  match m with Ok a => f a | Raise e => Raise e end.

Abbreviation datetime := Z (only parsing).
Abbreviation timedelta := Z (only parsing).

(** [timedelta(seconds=n)] for an [int]: a [timedelta] holds between
    -999999999 and 999999999 days, and a part of a day. *)
Definition timedelta_seconds (n : Z) : result timedelta :=
  if decide (-999999999 ≤ n `div` 86400 ≤ 999999999)%Z
  then Ok (n * 1000000)%Z else Raise OverflowError.

(** [datetime.min] and [datetime.max] read as UTC: the first microsecond of
    the year 1 and the last one of the year 9999. *)
Definition datetime_min : datetime := (-62135596800000000)%Z.
Definition datetime_max : datetime := 253402300799999999%Z.

(** [d + delta]: Python raises when the sum leaves the years 1 to 9999. *)
Definition datetime_add (d : datetime) (delta : timedelta) : result datetime :=
  if decide (datetime_min ≤ d + delta ≤ datetime_max)%Z
  then Ok (d + delta)%Z else Raise OverflowError.

(** [x / y] on floats: Python raises on a zero divisor (of either sign). *)
Definition truediv (x y : float) : result float :=
  if PrimFloat.eqb y 0%float then Raise ZeroDivisionError else Ok (x / y)%float.

Definition upper_ascii (c : Ascii.ascii) : Ascii.ascii :=
  let n := Ascii.nat_of_ascii c in
  if (97 <=? n)%nat && (n <=? 122)%nat then Ascii.ascii_of_nat (n - 32) else c.

(** [str.upper] on ASCII text (currency codes are ASCII). *)
Fixpoint upper (s : string) : string :=
  match s with
  | EmptyString => EmptyString
  | String c s' => String (upper_ascii c) (upper s')
  end.

(** ** providers.py: the snapshot records *)

Module CbrRates.
Record t : Type := mk { eur_rub : float; usd_rub : float; as_of : datetime }.
End CbrRates.

Module NbuRates.
Record t : Type := mk { eur_uah : float; usd_uah : float; as_of : datetime }.
End NbuRates.

Module BinanceRates.
Record t : Type :=
  mk { eur_usdt : float; usdt_uah : float; usdt_usd : float; as_of : datetime }.
End BinanceRates.

(** ** service.py: data *)

(** One hop of a conversion path: [(from, to, source)]. *)
Abbreviation hop := (string * string * string)%type (only parsing).
(** One outgoing edge of a node: [(to, rate, source)]. *)
Abbreviation edge := (string * float * string)%type (only parsing).
(** [Dict[str, List[Tuple[str, float, str]]]] *)
Abbreviation Graph := (gmap string (list (string * float * string))) (only parsing).

Module RateResult.
Record t : Type := mk { rate : float; path : list hop; as_of : datetime }.
End RateResult.

Module RateService.
Record t : Type := mk {
  ttl : timedelta;
  _cache : gmap string (datetime * RateResult.t);
  _last_sources_as_of : option datetime
}.

(** [RateService.__init__] *)
Definition __init__ (ttl_seconds : Z) : result t :=
  ttl ← timedelta_seconds ttl_seconds;
  Ok (mk ttl ∅ None).
End RateService.

(** ** The network and the effect monad *)

Inductive Provider : Type := CBR | NBU | Binance.

(** What the three upstream feeds answer during one call: a snapshot, or the
    exception the fetch raises. *)
Record Net : Type := {
  fetch_cbr : result CbrRates.t;
  fetch_nbu : result NbuRates.t;
  fetch_binance : result BinanceRates.t
}.

(** The service object and the provider fetches performed so far (oldest
    first). *)
Record World : Type := { self : RateService.t; fetched : list Provider }.

(** A computation that may update the world and may raise; a raised exception
    keeps the updates made before it. *)
Definition M (A : Type) : Type := World → result A * World.

#[global] Instance M_ret : MRet M := λ A a w, (Ok a, w).
#[global] Instance M_bind : MBind M := λ A B f m w,
  match m w with
  | (Ok a, w') => f a w'
  | (Raise e, w') => (Raise e, w')
  end.

Definition lift {A} (r : result A) : M A := λ w, (r, w).
Definition get_self : M RateService.t := λ w, (Ok (self w), w).
Definition set_self (s : RateService.t) : M unit :=
  λ w, (Ok tt, {| self := s; fetched := fetched w |}).
(** An awaited provider fetch: logged, then its answer. *)
Definition await_fetch {A} (p : Provider) (answer : result A) : M A :=
  λ w, (answer, {| self := self w; fetched := fetched w ++ [p] |}).

(** ** service.py: the graph builder *)

(** [g.setdefault(a, []).append((b, r, src))] *)
Definition add_edge (a b : string) (r : float) (src : string) (g : Graph) : Graph :=
  <[a := default [] (g !! a) ++ [(b, r, src)]]> g.

Definition _build_graph (cbr : CbrRates.t) (nbu : NbuRates.t) (bnc : BinanceRates.t)
    : result Graph :=
  let g : Graph := ∅ in
  (* CBR (official) *)
  let g := add_edge "EUR" "RUB" (CbrRates.eur_rub cbr) "CBR" g in
  r ← truediv 1 (CbrRates.eur_rub cbr);
  let g := add_edge "RUB" "EUR" r "CBR" g in
  let g := add_edge "USD" "RUB" (CbrRates.usd_rub cbr) "CBR" g in
  r ← truediv 1 (CbrRates.usd_rub cbr);
  let g := add_edge "RUB" "USD" r "CBR" g in
  (* NBU (official) *)
  let g := add_edge "EUR" "UAH" (NbuRates.eur_uah nbu) "NBU" g in
  r ← truediv 1 (NbuRates.eur_uah nbu);
  let g := add_edge "UAH" "EUR" r "NBU" g in
  let g := add_edge "USD" "UAH" (NbuRates.usd_uah nbu) "NBU" g in
  r ← truediv 1 (NbuRates.usd_uah nbu);
  let g := add_edge "UAH" "USD" r "NBU" g in
  (* Derived UAH<->RUB using EUR as bridge *)
  uah_rub ← truediv (CbrRates.eur_rub cbr) (NbuRates.eur_uah nbu);
  let g := add_edge "UAH" "RUB" uah_rub "CBR+NBU" g in
  r ← truediv 1 uah_rub;
  let g := add_edge "RUB" "UAH" r "CBR+NBU" g in
  (* Binance spot public prices for USDT crosses *)
  let g := add_edge "EUR" "USDT" (BinanceRates.eur_usdt bnc) "Binance" g in
  r ← truediv 1 (BinanceRates.eur_usdt bnc);
  let g := add_edge "USDT" "EUR" r "Binance" g in
  let g := add_edge "USDT" "UAH" (BinanceRates.usdt_uah bnc) "Binance" g in
  r ← truediv 1 (BinanceRates.usdt_uah bnc);
  let g := add_edge "UAH" "USDT" r "Binance" g in
  let g := add_edge "USDT" "USD" (BinanceRates.usdt_usd bnc) "Binance" g in
  r ← truediv 1 (BinanceRates.usdt_usd bnc);
  let g := add_edge "USD" "USDT" r "Binance" g in
  Ok g.

(** ** service.py: the path resolver *)

(** The working state of the search: the queue [q], the predecessor map
    [prev] and the set [visited]. *)
Record bfs_state : Type := {
  q : list string;
  prev : gmap string (string * float * string);
  visited : gset string
}.

(** [graph.get(cur, [])] *)
Definition out_edges (graph : Graph) (cur : string) : list edge :=
  default [] (graph !! cur).

(** The [for nxt, r, src in ...] loop over the edges of [cur] that are still
    to be looked at. *)
Fixpoint scan_edges (cur to : string) (es : list edge) (st : bfs_state) : bfs_state :=
  match es with
  | [] => st
  | (nxt, r, src) :: es' =>
      if decide (nxt ∈ visited st) then scan_edges cur to es' st (* continue *)
      else
        let visited' := {[nxt]} ∪ visited st in
        let prev' := <[nxt := (cur, r, src)]> (prev st) in
        if decide (nxt = to)
        then {| q := []; prev := prev'; visited := visited' |} (* q.clear(); break *)
        else scan_edges cur to es'
               {| q := q st ++ [nxt]; prev := prev'; visited := visited' |}
  end.

(** The [while q:] loop, for at most [fuel] iterations. *)
Fixpoint bfs_loop (fuel : nat) (graph : Graph) (to : string) (st : bfs_state)
    : option bfs_state :=
  match q st with
  | [] => Some st
  | cur :: rest =>
      match fuel with
      | O => None
      | S fuel' =>
          bfs_loop fuel' graph to
            (scan_edges cur to (out_edges graph cur)
               {| q := rest; prev := prev st; visited := visited st |})
      end
  end.

(** Every node that some edge of the graph points to. *)
Definition graph_targets (graph : Graph) : gset string :=
  ⋃ ((λ kv : string * list edge, list_to_set ((λ e : edge, e.1.1) <$> kv.2))
       <$> map_to_list graph).

(** The [while cur != frm:] loop of the reconstruction, for at most [fuel]
    iterations; [path_edges] grows at its end, [rate] is multiplied on the
    right. *)
Fixpoint reconstruct (fuel : nat) (prev : gmap string (string * float * string))
    (frm cur : string) (path_edges : list hop) (rate : float)
    : option (result (float * list hop)) :=
  if decide (cur = frm) then Some (Ok (rate, path_edges))
  else
    match fuel with
    | O => None
    | S fuel' =>
        match prev !! cur with
        | None => Some (Raise (KeyError cur))
        | Some (p, r, src) =>
            reconstruct fuel' prev frm p (path_edges ++ [(p, cur, src)]) (rate * r)%float
        end
    end.

(** The state in which the search starts. *)
Definition bfs_init (frm : string) : bfs_state :=
  {| q := [frm]; prev := ∅; visited := {[frm]} |}.

(** The search of [_find_rate]: the state after its [while q:] loop. Each
    iteration removes a node from the queue and a node enters the queue once,
    when it is first seen, so one iteration per target of the graph and one for
    [frm] are enough. *)
Definition bfs (graph : Graph) (frm to : string) : option bfs_state :=
  bfs_loop (S (size (graph_targets graph))) graph to (bfs_init frm).

Definition no_path_message (frm to : string) : string :=
  "No conversion path from " +:+ frm +:+ " to " +:+ to.

Definition _find_rate (self : RateService.t) (graph : Graph) (frm to : string)
    (now : datetime) : result (float * list hop * datetime) :=
  if decide (frm = to)
  then Ok (1%float, [], default now (RateService._last_sources_as_of self))
  else
    match bfs graph frm to with
    | None => Raise OutOfFuel
    | Some st =>
        match prev st !! to with
        | None => Raise (RuntimeError (no_path_message frm to))
        | Some _ =>
            match reconstruct (size (prev st)) (prev st) frm to [] 1%float with
            | None => Raise OutOfFuel
            | Some (Raise e) => Raise e
            | Some (Ok (rate, path_edges)) =>
                Ok (rate, reverse path_edges,
                    default now (RateService._last_sources_as_of self))
            end
        end
    end.

(** ** service.py: the service *)

(** [max(cbr.as_of, nbu.as_of, bnc.as_of)] *)
Definition latest (cbr : CbrRates.t) (nbu : NbuRates.t) (bnc : BinanceRates.t) : datetime :=
  Z.max (Z.max (CbrRates.as_of cbr) (NbuRates.as_of nbu)) (BinanceRates.as_of bnc).

Definition _fetch_all (net : Net)
    : M (CbrRates.t * NbuRates.t * BinanceRates.t) :=
  cbr ← await_fetch CBR (fetch_cbr net);
  nbu ← await_fetch NBU (fetch_nbu net);
  bnc ← await_fetch Binance (fetch_binance net);
  s ← get_self;
  set_self (RateService.mk (RateService.ttl s) (RateService._cache s)
              (Some (latest cbr nbu bnc)));;
  mret (cbr, nbu, bnc).

(** [f"{frm}->{to}"] *)
Definition cache_key (frm to : string) : string := frm +:+ "->" +:+ to.

(** [cached and cached[0] > now], with the result that is then returned. *)
Definition fresh_entry (cached : option (datetime * RateResult.t)) (now : datetime)
    : option RateResult.t :=
  match cached with
  | Some (expiry, res) => if (now <? expiry)%Z then Some res else None
  | None => None
  end.

(** The part of [get_rate] after the cache test. *)
Definition refresh (now : datetime) (net : Net) (frm to key : string) : M RateResult.t :=
  '(cbr, nbu, bnc) ← _fetch_all net;
  graph ← lift (_build_graph cbr nbu bnc);
  s ← get_self;
  '(rate, path, as_of) ← lift (_find_rate s graph frm to now);
  let result := RateResult.mk rate path as_of in
  s ← get_self;
  expiry ← lift (datetime_add now (RateService.ttl s));
  set_self (RateService.mk (RateService.ttl s)
              (<[key := (expiry, result)]> (RateService._cache s))
              (RateService._last_sources_as_of s));;
  mret result.

(** [RateService.get_rate]; [now] is what [datetime.now(timezone.utc)] returns
    at the start of the call and [net] what the feeds answer during it. *)
Definition get_rate (now : datetime) (net : Net) (frm to : string) : M RateResult.t :=
  let frm := upper frm in
  let to := upper to in
  let key := cache_key frm to in
  s ← get_self;
  match fresh_entry (RateService._cache s !! key) now with
  | Some res => mret res
  | None => refresh now net frm to key
  end.

(** ** Python strings *)

(** [c in s] for a one-character [c]. *)
Fixpoint contains_char (c : Ascii.ascii) (s : string) : bool :=
  match s with
  | EmptyString => false
  | String c' s' => if decide (c' = c) then true else contains_char c s'
  end.

(** [s.startswith(p)] *)
Fixpoint startswith (s p : string) {struct p} : bool :=
  match p, s with
  | EmptyString, _ => true
  | String _ _, EmptyString => false
  | String c p', String d s' => if decide (c = d) then startswith s' p' else false
  end.

(** [s[n:]] *)
Fixpoint string_drop (n : nat) (s : string) : string :=
  match n, s with
  | O, _ => s
  | S _, EmptyString => EmptyString
  | S n', String _ s' => string_drop n' s'
  end.

(** [s.replace(old, new, 1)]: the leftmost occurrence of [old] is replaced. *)
Fixpoint replace_first (old new s : string) : string :=
  if startswith s old then new +:+ string_drop (String.length old) s
  else
    match s with
    | EmptyString => EmptyString
    | String c s' => String c (replace_first old new s')
    end.

(** [sep.join(parts)] *)
Fixpoint join (sep : string) (parts : list string) : string :=
  match parts with
  | [] => ""
  | [p] => p
  | p :: ps => p +:+ sep +:+ join sep ps
  end.

(** [c.isspace()] on ASCII: tab, line feed, vertical tab, form feed, carriage
    return, the four separators 0x1c..0x1f and the space. *)
Definition is_space (c : Ascii.ascii) : bool :=
  let n := Ascii.nat_of_ascii c in
  ((9 <=? n)%nat && (n <=? 13)%nat) || ((28 <=? n)%nat && (n <=? 32)%nat).

(** [s.lstrip()] *)
Fixpoint lstrip (s : string) : string :=
  match s with
  | EmptyString => EmptyString
  | String c s' => if is_space c then lstrip s' else s
  end.

(** [s.rstrip()] *)
Fixpoint rstrip (s : string) : string :=
  match s with
  | EmptyString => EmptyString
  | String c s' =>
      match rstrip s' with
      | EmptyString => if is_space c then EmptyString else String c EmptyString
      | r => String c r
      end
  end.

(** [s.strip()] on ASCII text. *)
Definition strip (s : string) : string := rstrip (lstrip s).

(** [s.replace(old, new)] for a one-character [old]. *)
Fixpoint replace_char (old : Ascii.ascii) (new : string) (s : string) : string :=
  match s with
  | EmptyString => EmptyString
  | String c s' =>
      if decide (c = old) then new +:+ replace_char old new s'
      else String c (replace_char old new s')
  end.

(** ** db.py *)

Definition to_async_database_url (url : string) : string :=
  if startswith url "postgresql+asyncpg://" then url
  else if startswith url "postgresql://"
  then replace_first "postgresql://" "postgresql+asyncpg://" url
  else if startswith url "postgres://"
  then replace_first "postgres://" "postgresql+asyncpg://" url
  else url.

(** ** keyboards.py *)

(** keyboards.py *)
Definition CURRENCIES : list string := ["USD"; "EUR"; "UAH"; "RUB"; "USDT"].

Module InlineKeyboardButton.
Record t : Type := mk { text : string; callback_data : string }.
End InlineKeyboardButton.

(** [InlineKeyboardMarkup(inline_keyboard=rows)] *)
Abbreviation InlineKeyboardMarkup := (list (list InlineKeyboardButton.t)) (only parsing).

Definition back_button : InlineKeyboardButton.t :=
  InlineKeyboardButton.mk "⬅️ Назад" "back".

(** [exclude and c == exclude] *)
Definition excluded (exclude : option string) (c : string) : bool :=
  match exclude with
  | None => false
  | Some x => if decide (x = "") then false else bool_decide (c = x)
  end.

Definition currency_button (prefix c : string) : InlineKeyboardButton.t :=
  InlineKeyboardButton.mk c (prefix +:+ ":" +:+ c).

(** One iteration of the [for c in CURRENCIES] loop on [(rows, row)]. *)
Definition kbd_step (prefix : string) (exclude : option string)
    (acc : list (list InlineKeyboardButton.t) * list InlineKeyboardButton.t) (c : string)
    : list (list InlineKeyboardButton.t) * list InlineKeyboardButton.t :=
  let '(rows, row) := acc in
  if excluded exclude c then (rows, row)
  else
    let row := row ++ [currency_button prefix c] in
    if decide (length row = 3) then (rows ++ [row], []) else (rows, row).

Definition kbd_choose_currency (prefix : string) (exclude : option string)
    : InlineKeyboardMarkup :=
  let '(rows, row) := foldl (kbd_step prefix exclude) ([], []) CURRENCIES in
  let rows := match row with [] => rows | _ => rows ++ [row] end in
  rows ++ [[back_button]].

(** ** main.py: the helpers *)

(** [f"{a}->{b}({src})"] *)
Definition hop_text (h : hop) : string :=
  h.1.1 +:+ "->" +:+ h.1.2 +:+ "(" +:+ h.2 +:+ ")".

Definition _sources_to_text (path : list hop) : string :=
  match path with
  | [] => ""
  | _ => join " | " (hop_text <$> path)
  end.

(** [data.split(":", 1)[1]], as the callback handlers read the value of a
    button: what follows the first colon; without a colon the index is out of
    range. *)
Fixpoint after_colon (data : string) : option string :=
  match data with
  | EmptyString => None
  | String c s' => if decide (c = ":"%char) then Some s' else after_colon s'
  end.

Definition callback_value (data : string) : result string :=
  match after_colon data with
  | Some v => Ok v
  | None => Raise (OtherError "IndexError" "list index out of range")
  end.

(** The integer nearest to [m * 2 ^ e], the even one of the two when they are
    equally near. *)
Definition round_half_even (m : positive) (e : Z) : Z :=
  if (0 <=? e)%Z then (Z.pos m * 2 ^ e)%Z
  else
    let d := (2 ^ (- e))%Z in
    let q := (Z.pos m / d)%Z in
    let r := (Z.pos m mod d)%Z in
    if (2 * r <? d)%Z then q
    else if (d <? 2 * r)%Z then (q + 1)%Z
    else if Z.even q then q else (q + 1)%Z.

(** [round(x)] with one argument: the nearest integer, ties to even, as an
    [int]; [OverflowError] on an infinity and [ValueError] on a NaN. *)
Definition py_round (x : float) : result Z :=
  match Prim2SF x with
  | S754_zero _ => Ok 0%Z
  | S754_finite s m e =>
      Ok (if s then (- round_half_even m e)%Z else round_half_even m e)
  | S754_infinity _ =>
      Raise (OtherError "OverflowError" "cannot convert float infinity to integer")
  | S754_nan => Raise (OtherError "ValueError" "cannot convert float NaN to integer")
  end.

(** [int(round(x))] *)
Definition _round_money_no_cents (x : float) : result Z :=
  n ← py_round x; Ok n.

(** ** config.py, and the amount reader of main.py *)

Module Config.
Record t : Type := mk {
  bot_token : string;
  admin_id : Z;
  database_url : string;
  rate_cache_ttl_seconds : Z;
  log_level : string
}.
End Config.

(** [os.getenv(name, dflt)] in the environment [env]. *)
Definition getenv (env : gmap string string) (name dflt : string) : string :=
  default dflt (env !! name).

Section builtins.
(** [int(s)] and [float(s)] on a string: the number read, or [None] when
    Python raises [ValueError]. *)
Variable py_int : string → option Z.
Variable py_float : string → option float.

Definition _get_int_env (env : gmap string string) (name : string) (dflt : option Z)
    : result Z :=
  let raw := strip (getenv env name "") in
  if decide (raw = "") then
    match dflt with
    | None => Raise (RuntimeError (name +:+ " is not set"))
    | Some d => Ok d
    end
  else
    match py_int raw with
    | Some n => Ok n
    | None => Raise (RuntimeError (name +:+ " must be an integer"))
    end.

Definition load_config (env : gmap string string) : result Config.t :=
  let bot_token := strip (getenv env "BOT_TOKEN" "") in
  if decide (bot_token = "") then Raise (RuntimeError "BOT_TOKEN is not set")
  else
    let database_url := strip (getenv env "DATABASE_URL" "") in
    if decide (database_url = "") then Raise (RuntimeError "DATABASE_URL is not set")
    else
      admin_id ← _get_int_env env "ADMIN_ID" None;
      ttl ← _get_int_env env "RATE_CACHE_TTL_SECONDS" (Some 600%Z);
      let log_level := upper (strip (getenv env "LOG_LEVEL" "INFO")) in
      let log_level := if decide (log_level = "") then "INFO" else log_level in
      Ok (Config.mk bot_token admin_id database_url ttl log_level).

(** [(text or "").strip().replace(" ", "").replace(",", ".")] *)
Definition amount_text (text : string) : string :=
  replace_char "," "." (replace_char " " "" (strip text)).

Definition _parse_amount (text : string) : option float :=
  match py_float (amount_text text) with
  | Some v => if PrimFloat.leb v 0 then None else Some v
  | None => None
  end.

End builtins.

(** ** providers.py: reading the payloads *)

(** A [Valute] element of the CBR document: the text of its children as
    [findtext] returns it, [None] for a child that is missing. *)
Module Valute.
Record t : Type := mk {
  CharCode : option string;
  Nominal : option string;
  Value : option string
}.
End Valute.

(** An item of the NBU list: its currency code, a string or missing, and its
    rate, a number or missing. *)
Module NbuItem.
Record t : Type := mk { cc : option string; rate : option float }.
End NbuItem.

(** [o or dflt] on a string that may be [None]: the empty string is falsy
    too. *)
Definition or_text (o : option string) (dflt : string) : string :=
  match o with
  | Some s => if decide (s = "") then dflt else s
  | None => dflt
  end.

Section providers.
(** [float(s)] on a string, as above. *)
Variable py_float : string → option float.

(** [float(s)]: the [ValueError] carries the text that could not be read. *)
Definition float_of_text (s : string) : result float :=
  match py_float s with
  | Some v => Ok v
  | None => Raise (OtherError "ValueError" s)
  end.

(** The inner [get_rate] of [fetch_cbr], on the [Valute] elements of the
    parsed document. *)
Fixpoint cbr_get_rate (valutes : list Valute.t) (char_code : string) : result float :=
  match valutes with
  | [] => Raise (RuntimeError ("CBR: currency not found: " +:+ char_code))
  | valute :: rest =>
      let cc := strip (or_text (Valute.CharCode valute) "") in
      if decide (cc = char_code) then
        nominal ← float_of_text (strip (or_text (Valute.Nominal valute) "1"));
        let value_txt := replace_char "," "." (strip (or_text (Valute.Value valute) "")) in
        value ← float_of_text value_txt;
        truediv value nominal
      else cbr_get_rate rest char_code
  end.

End providers.

(** The inner [find] of [fetch_nbu], on the items of the decoded list;
    [float] of a number is that number, of [None] a [TypeError]. *)
Fixpoint nbu_find (data : list NbuItem.t) (code : string) : result float :=
  match data with
  | [] => Raise (RuntimeError ("NBU: currency not found: " +:+ code))
  | item :: rest =>
      if decide (upper (or_text (NbuItem.cc item) "") = code) then
        match NbuItem.rate item with
        | Some r => Ok r
        | None =>
            Raise (OtherError "TypeError"
                     "float() argument must be a string or a real number, not 'NoneType'")
        end
      else nbu_find rest code
  end.

(** ** models.py and repository.py

    The two tables are maps from the primary key to the row; a session that
    commits writes its rows to them. Failures of the database itself
    (connection, constraint violations) are not part of the model. *)

(** [aiogram.types.User], the fields the repository reads. *)
Module TgUser.
Record t : Type := mk {
  id : Z;
  username : option string;
  first_name : option string;
  last_name : option string;
  language_code : option string
}.
End TgUser.

Module User.
Record t : Type := mk {
  user_id : Z;
  username : option string;
  first_name : option string;
  last_name : option string;
  language_code : option string;
  created_at : datetime;
  last_seen_at : datetime;
  is_blocked : bool
}.
End User.

Module Order.
Record t : Type := mk {
  id : Z;
  user_id : Z;
  give_currency : string;
  get_currency : string;
  amount_mode : string;
  amount_value : float;
  from_location : string;
  to_location : string;
  rate : option float;
  calculated_give : option float;
  calculated_get : option float;
  sources : option string;
  contact : option string;
  stage : string;
  created_at : datetime
}.
End Order.

Record Database : Type := {
  users : gmap Z User.t;
  orders : gmap Z Order.t
}.

(** [upsert_user]; [now] is what [utcnow()] returns. *)
Definition upsert_user (now : datetime) (tg : TgUser.t) (db : Database) : Database :=
  match users db !! TgUser.id tg with
  | None =>
      {| users := <[TgUser.id tg :=
                      User.mk (TgUser.id tg) (TgUser.username tg) (TgUser.first_name tg)
                        (TgUser.last_name tg) (TgUser.language_code tg) now now false]>
                    (users db);
         orders := orders db |}
  | Some existing =>
      {| users := <[TgUser.id tg :=
                      User.mk (User.user_id existing) (TgUser.username tg)
                        (TgUser.first_name tg) (TgUser.last_name tg)
                        (TgUser.language_code tg) (User.created_at existing) now
                        (User.is_blocked existing)]>
                    (users db);
         orders := orders db |}
  end.

(** [create_order]; [new_id] is the key the database assigns to the new row
    when the session commits. *)
Definition create_order (now : datetime) (new_id : Z) (user_id : Z)
    (give_currency get_currency amount_mode : string) (amount_value : float)
    (from_location to_location : string) (db : Database) : Order.t * Database :=
  let order :=
    Order.mk new_id user_id give_currency get_currency amount_mode amount_value
      from_location to_location None None None None None "calc" now in
  (order, {| users := users db; orders := <[new_id := order]> (orders db) |}).

Definition set_order_calc (order_id : Z) (rate calculated_give calculated_get : float)
    (sources : string) (db : Database) : Database :=
  match orders db !! order_id with
  | None => db
  | Some order =>
      {| users := users db;
         orders := <[order_id :=
                       Order.mk (Order.id order) (Order.user_id order)
                         (Order.give_currency order) (Order.get_currency order)
                         (Order.amount_mode order) (Order.amount_value order)
                         (Order.from_location order) (Order.to_location order)
                         (Some rate) (Some calculated_give) (Some calculated_get)
                         (Some sources) (Order.contact order) (Order.stage order)
                         (Order.created_at order)]>
                     (orders db) |}
  end.

Definition set_order_contact_and_submit (order_id : Z) (contact : string) (db : Database)
    : Database :=
  match orders db !! order_id with
  | None => db
  | Some order =>
      {| users := users db;
         orders := <[order_id :=
                       Order.mk (Order.id order) (Order.user_id order)
                         (Order.give_currency order) (Order.get_currency order)
                         (Order.amount_mode order) (Order.amount_value order)
                         (Order.from_location order) (Order.to_location order)
                         (Order.rate order) (Order.calculated_give order)
                         (Order.calculated_get order) (Order.sources order)
                         (Some contact) "submitted" (Order.created_at order)]>
                     (orders db) |}
  end.

(** * The vocabulary of the properties *)

(** ** Routes of a graph *)

(** An edge with both of its ends: the [(from, to, factor, source)] of the
    specification. In the graph it is the entry [(to, factor, source)] in the
    list of [from]. *)
Record RateEdge : Type := {
  e_from : string;
  e_to : string;
  e_factor : float;
  e_source : string
}.

Definition has_edge (graph : Graph) (e : RateEdge) : Prop :=
  (e_to e, e_factor e, e_source e) ∈ out_edges graph (e_from e).

(** The edge is the first one from its start to its end in the order in which
    the edges of its start were inserted. *)
Definition first_edge (graph : Graph) (e : RateEdge) : Prop :=
  ∃ before after,
    out_edges graph (e_from e) = before ++ (e_to e, e_factor e, e_source e) :: after ∧
    ∀ e' : edge, e' ∈ before → e'.1.1 ≠ e_to e.

(** A chain of edges of the graph that leads from [frm] to [to]. *)
Fixpoint is_route (graph : Graph) (frm to : string) (route : list RateEdge) : Prop :=
  match route with
  | [] => frm = to
  | e :: rest => e_from e = frm ∧ has_edge graph e ∧ is_route graph (e_to e) to rest
  end.

(** The hops of a route, as [_find_rate] reports them. *)
Definition hops_of (route : list RateEdge) : list hop :=
  (λ e, (e_from e, e_to e, e_source e)) <$> route.

Definition factors_of (route : list RateEdge) : list float := e_factor <$> route.

(** The nodes a route passes through, its start included. *)
Definition nodes_of (frm : string) (route : list RateEdge) : list string :=
  frm :: (e_to <$> route).

(** The product of hop factors the way the reconstruction loop composes it:
    starting from [1.0], multiplied on the right by the factor of the last
    hop first and of the first hop last. *)
Definition product_of (fs : list float) : float :=
  fold_right (λ f acc, (acc * f)%float) 1%float fs.

(** The route that leaves [frm] by the edge at position [i] of its adjacency
    list (the [i]-th edge inserted for it, counting from 0), then follows the
    rest of the positions [pos]; [None] when a position is beyond the end of
    a list. *)
Fixpoint follow (graph : Graph) (frm : string) (pos : list nat)
    : option (list RateEdge) :=
  match pos with
  | [] => Some []
  | i :: pos' =>
      match out_edges graph frm !! i with
      | Some (w, r, s) =>
          (λ rest, {| e_from := frm; e_to := w; e_factor := r; e_source := s |} :: rest)
            <$> follow graph w pos'
      | None => None
      end
  end.

(** The lexicographic order of position lists: where two lists first differ,
    the first one holds the earlier position. *)
Fixpoint lex_lt (a b : list nat) : Prop :=
  match a, b with
  | i :: a', j :: b' => i < j ∨ (i = j ∧ lex_lt a' b')
  | _, _ => False
  end.
#[global] Instance lex_lt_dec (a b : list nat) : Decision (lex_lt a b).
Proof. revert b. induction a as [|i a IH]; intros [|j b]; simpl; apply _. Defined.

Definition lex_le (a b : list nat) : Prop := a = b ∨ lex_lt a b.

(** The order in which the search sees nodes: the shorter list of positions
    first, and lexicographically among lists of one length. *)
Definition before (a b : list nat) : Prop :=
  length a < length b ∨ (length a = length b ∧ lex_lt a b).

(** The tie-break of the search. Among the routes from [frm] to [to] with as
    many hops as [route], [route] is the first one in insertion order: where
    it parts from another one, it takes the edge that was inserted earlier
    for the node at which they part. *)
Definition first_in_order (graph : Graph) (frm to : string) (route : list RateEdge)
    : Prop :=
  ∃ pos, follow graph frm pos = Some route ∧
    ∀ opos other, follow graph frm opos = Some other → is_route graph frm to other →
      length other = length route → lex_le pos opos.

(** [to] can be reached from [frm] in [n] hops. *)
Inductive reach (graph : Graph) (frm : string) : string → nat → Prop :=
  | reach_here : reach graph frm frm 0
  | reach_step u n w r s :
      reach graph frm u n → (w, r, s) ∈ out_edges graph u →
      reach graph frm w (S n).

(** The search reaches [to]: when its loop has ended, [to] has a
    predecessor. *)
Definition reached (graph : Graph) (frm to : string) : Prop :=
  ∃ st, bfs graph frm to = Some st ∧ is_Some (prev st !! to).

(** The message names both codes. *)
Definition names_both (msg frm to : string) : Prop :=
  ∃ before between after, msg = before +:+ frm +:+ between +:+ to +:+ after.

Definition hop_from (h : hop) : string := h.1.1.

Definition hop_to (h : hop) : string := h.1.2.

(** A well-formed simple chain from [frm] to [to]: the first hop starts at
    [frm], the last hop ends at [to], each hop starts where the one before it
    ends, and no node is passed twice. The empty chain leads nowhere. *)
Definition simple_chain (frm to : string) (path : list hop) : Prop :=
  (∀ h, head path = Some h → hop_from h = frm) ∧
  (∀ h, last path = Some h → hop_to h = to) ∧
  (∀ i h h', path !! i = Some h → path !! S i = Some h' → hop_to h = hop_from h') ∧
  NoDup (frm :: (hop_to <$> path)) ∧
  (path = [] → frm = to).

Definition supported : list string := ["EUR"; "RUB"; "USD"; "UAH"; "USDT"].

(** ** Invariants of the search *)

(** The work left: the nodes waiting in the queue and the targets not yet
    seen. *)
Definition work (T : gset string) (st : bfs_state) : nat :=
  length (q st) + size (T ∖ visited st).

Section search_invariants.
Context (graph : Graph) (frm to : string).
Implicit Types (lvl : string → nat) (st : bfs_state).

(** The predecessor map is a tree rooted at [frm] whose branches are edges
    of the graph; [lvl] is the depth of a node in it. *)
Record tree_inv lvl st : Prop := {
  ti_visited : visited st = {[frm]} ∪ dom (prev st);
  ti_frm : prev st !! frm = None;
  ti_lvl_frm : lvl frm = 0;
  ti_prev : ∀ v p r s, prev st !! v = Some (p, r, s) →
    first_edge graph {| e_from := p; e_to := v; e_factor := r; e_source := s |} ∧
    p ∈ visited st ∧ lvl v = S (lvl p);
  ti_size : ∀ v, v ∈ visited st → lvl v ≤ size (prev st)
}.

(** The frontier: the nodes in [busy] (the node whose edges are being
    scanned) and in the queue are at depth [d] or [d + 1], in this order;
    every other seen node has all its neighbours seen; [to] is not seen
    yet. *)
Record front_inv lvl st (busy : list string) (d : nat) : Prop := {
  fi_split : ∃ A B, q st = A ++ B ∧
    (∀ x, x ∈ A → lvl x = d) ∧ (∀ x, x ∈ B → lvl x = S d);
  fi_busy : ∀ x, x ∈ busy → lvl x = d;
  fi_pending : ∀ x, x ∈ busy ++ q st → x ∈ visited st;
  fi_bound : ∀ v, v ∈ visited st → lvl v ≤ S d;
  fi_closed : ∀ u w r s, u ∈ visited st → u ∉ busy ++ q st →
    (w, r, s) ∈ out_edges graph u → w ∈ visited st ∧ lvl w ≤ S (lvl u);
  fi_to : to ∉ visited st
}.

(** [to] has been found, at its least distance from [frm]. *)
Definition found lvl st : Prop :=
  is_Some (prev st !! to) ∧ ∀ n, reach graph frm to n → lvl to ≤ n.

(** The state after [visited.add(nxt); prev[nxt] = (cur, r, src)], with the
    queue [q']. *)
Definition discover st (cur nxt : string) (r : float) (src : string)
    (q' : list string) : bfs_state :=
  {| q := q';
     prev := <[nxt := (cur, r, src)]> (prev st);
     visited := {[nxt]} ∪ visited st |}.

Definition lvl_discover lvl (cur nxt : string) : string → nat :=
  λ x, if decide (x = nxt) then S (lvl cur) else lvl x.

(** The edge is a branch of the predecessor map. *)
Definition tree_edge st (e : RateEdge) : Prop :=
  prev st !! e_to e = Some (e_from e, e_factor e, e_source e).

(** The branch of the tree that leads to a seen node [v] follows the
    positions [sq v], and no route from [frm] to [v] with as many hops comes
    before it in lexicographic order. *)
Record order_tree lvl (sq : string → list nat) st : Prop := {
  ot_frm : sq frm = [];
  ot_len : ∀ v, v ∈ visited st → length (sq v) = lvl v;
  ot_prev : ∀ v p r s, prev st !! v = Some (p, r, s) →
    ∃ i, sq v = sq p ++ [i] ∧ out_edges graph p !! i = Some (v, r, s);
  ot_least : ∀ v pos route, v ∈ visited st →
    follow graph frm pos = Some route → is_route graph frm v route →
    length pos = lvl v → lex_le (sq v) pos
}.

(** The queue holds the pending nodes in the order of their branches, after
    the node [busy] whose first [k] edges have been scanned; the nodes that
    are done come before the pending ones, and no pending node but [busy] has
    a child yet. *)
Record order_front (sq : string → list nat) st (busy : list string) (k : nat)
    : Prop := {
  of_parent : ∀ v p r s, prev st !! v = Some (p, r, s) →
    (p ∉ q st) ∧ (p ∈ busy → ∃ i, sq v = sq p ++ [i] ∧ i < k);
  of_sorted : ∀ i j x y,
    (busy ++ q st) !! i = Some x → (busy ++ q st) !! j = Some y → i < j →
    before (sq x) (sq y);
  of_done : ∀ u x, u ∈ visited st → u ∉ busy ++ q st → x ∈ busy ++ q st →
    before (sq u) (sq x);
  of_scanned : ∀ cur i (e : edge), cur ∈ busy → i < k →
    out_edges graph cur !! i = Some e → e.1.1 ∈ visited st
}.

Definition sq_discover (sq : string → list nat) (cur nxt : string) (k : nat)
    : string → list nat :=
  λ x, if decide (x = nxt) then sq cur ++ [k] else sq x.

End search_invariants.

(** An edge, or a predecessor entry, without its rate. *)
Definition edge_shape (e : string * float * string) : string * string := (e.1.1, e.2).

(** The graph without its rates: for every node the targets and source labels
    of its edges, in insertion order. *)
Definition shape (graph : Graph) : gmap string (list (string * string)) :=
  (λ es : list edge, edge_shape <$> es) <$> graph.

(** What two results of [_find_rate] have in common when they agree on
    everything but the rate and the instant. *)
Definition same_hops (x y : result (float * list hop * datetime)) : Prop :=
  match x, y with
  | Ok (_, p1, _), Ok (_, p2, _) => p1 = p2
  | Raise e1, Raise e2 => e1 = e2
  | _, _ => False
  end.

Definition same_search (st1 st2 : bfs_state) : Prop :=
  q st1 = q st2 ∧ visited st1 = visited st2 ∧
  edge_shape <$> prev st1 = edge_shape <$> prev st2.

(** ** Runs of the service *)

(** The service object after a successful [_fetch_all]. *)
Definition fetched_self (s : RateService.t) (cbr : CbrRates.t) (nbu : NbuRates.t)
    (bnc : BinanceRates.t) : RateService.t :=
  RateService.mk (RateService.ttl s) (RateService._cache s) (Some (latest cbr nbu bnc)).

(** The instants a [datetime] can hold. *)
Definition in_datetime_range (d : datetime) : Prop :=
  (datetime_min ≤ d ≤ datetime_max)%Z.

(** The service object after a successful refresh for [key]. *)
Definition stored_self (s : RateService.t) (key : string) (now : datetime)
    (res : RateResult.t) (last : option datetime) : RateService.t :=
  RateService.mk (RateService.ttl s)
    (<[key := ((now + RateService.ttl s)%Z, res)]> (RateService._cache s)) last.

(** How a refresh goes: the first provider that fails, the builder or the
    resolver ends it with its exception, and so does an expiry [now + ttl]
    that no [datetime] can hold; otherwise the result is stored. *)
Inductive refresh_run (now : datetime) (net : Net) (frm to key : string) (w : World)
    : result RateResult.t → World → Prop :=
  | run_cbr_fails e :
      fetch_cbr net = Raise e →
      refresh_run now net frm to key w (Raise e)
        {| self := self w; fetched := fetched w ++ [CBR] |}
  | run_nbu_fails cbr e :
      fetch_cbr net = Ok cbr → fetch_nbu net = Raise e →
      refresh_run now net frm to key w (Raise e)
        {| self := self w; fetched := fetched w ++ [CBR; NBU] |}
  | run_binance_fails cbr nbu e :
      fetch_cbr net = Ok cbr → fetch_nbu net = Ok nbu → fetch_binance net = Raise e →
      refresh_run now net frm to key w (Raise e)
        {| self := self w; fetched := fetched w ++ [CBR; NBU; Binance] |}
  | run_build_fails cbr nbu bnc e :
      fetch_cbr net = Ok cbr → fetch_nbu net = Ok nbu → fetch_binance net = Ok bnc →
      _build_graph cbr nbu bnc = Raise e →
      refresh_run now net frm to key w (Raise e)
        {| self := fetched_self (self w) cbr nbu bnc;
           fetched := fetched w ++ [CBR; NBU; Binance] |}
  | run_find_fails cbr nbu bnc graph e :
      fetch_cbr net = Ok cbr → fetch_nbu net = Ok nbu → fetch_binance net = Ok bnc →
      _build_graph cbr nbu bnc = Ok graph →
      _find_rate (fetched_self (self w) cbr nbu bnc) graph frm to now = Raise e →
      refresh_run now net frm to key w (Raise e)
        {| self := fetched_self (self w) cbr nbu bnc;
           fetched := fetched w ++ [CBR; NBU; Binance] |}
  | run_overflows cbr nbu bnc graph rate path as_of :
      fetch_cbr net = Ok cbr → fetch_nbu net = Ok nbu → fetch_binance net = Ok bnc →
      _build_graph cbr nbu bnc = Ok graph →
      _find_rate (fetched_self (self w) cbr nbu bnc) graph frm to now
        = Ok (rate, path, as_of) →
      ¬ in_datetime_range (now + RateService.ttl (self w)) →
      refresh_run now net frm to key w (Raise OverflowError)
        {| self := fetched_self (self w) cbr nbu bnc;
           fetched := fetched w ++ [CBR; NBU; Binance] |}
  | run_stores cbr nbu bnc graph rate path as_of :
      fetch_cbr net = Ok cbr → fetch_nbu net = Ok nbu → fetch_binance net = Ok bnc →
      _build_graph cbr nbu bnc = Ok graph →
      _find_rate (fetched_self (self w) cbr nbu bnc) graph frm to now
        = Ok (rate, path, as_of) →
      in_datetime_range (now + RateService.ttl (self w)) →
      refresh_run now net frm to key w (Ok (RateResult.mk rate path as_of))
        {| self := stored_self (self w) key now (RateResult.mk rate path as_of)
                     (Some (latest cbr nbu bnc));
           fetched := fetched w ++ [CBR; NBU; Binance] |}.

(** The step of a refresh that raises [e]: a provider fetch (the earlier ones
    having answered), the graph builder, or the path resolver. *)
Definition refresh_raises (now : datetime) (net : Net) (frm to : string)
    (s : RateService.t) (e : exn) : Prop :=
  fetch_cbr net = Raise e ∨
  (∃ cbr, fetch_cbr net = Ok cbr ∧ fetch_nbu net = Raise e) ∨
  (∃ cbr nbu, fetch_cbr net = Ok cbr ∧ fetch_nbu net = Ok nbu ∧
     fetch_binance net = Raise e) ∨
  (∃ cbr nbu bnc, fetch_cbr net = Ok cbr ∧ fetch_nbu net = Ok nbu ∧
     fetch_binance net = Ok bnc ∧
     (_build_graph cbr nbu bnc = Raise e ∨
      ∃ graph, _build_graph cbr nbu bnc = Ok graph ∧
        _find_rate (fetched_self s cbr nbu bnc) graph frm to now = Raise e)).

(** The world in which the entry of [key] has been forgotten. *)
Definition forget (key : string) (w : World) : World :=
  {| self := RateService.mk (RateService.ttl (self w))
               (delete key (RateService._cache (self w)))
               (RateService._last_sources_as_of (self w));
     fetched := fetched w |}.

(** ** The graph of the builder *)

(** All edges of a graph. *)
Definition edges_of (graph : Graph) : list RateEdge :=
  kv ← map_to_list graph;
  (λ e : edge, {| e_from := kv.1; e_to := e.1.1; e_factor := e.1.2; e_source := e.2 |})
    <$> kv.2.

(** The graph of [_build_graph] when no division raises. *)
Definition graph_of (cbr : CbrRates.t) (nbu : NbuRates.t) (bnc : BinanceRates.t) : Graph :=
  let uah_rub := (CbrRates.eur_rub cbr / NbuRates.eur_uah nbu)%float in
  add_edge "USD" "USDT" (1 / BinanceRates.usdt_usd bnc)%float "Binance"
  (add_edge "USDT" "USD" (BinanceRates.usdt_usd bnc) "Binance"
  (add_edge "UAH" "USDT" (1 / BinanceRates.usdt_uah bnc)%float "Binance"
  (add_edge "USDT" "UAH" (BinanceRates.usdt_uah bnc) "Binance"
  (add_edge "USDT" "EUR" (1 / BinanceRates.eur_usdt bnc)%float "Binance"
  (add_edge "EUR" "USDT" (BinanceRates.eur_usdt bnc) "Binance"
  (add_edge "RUB" "UAH" (1 / uah_rub)%float "CBR+NBU"
  (add_edge "UAH" "RUB" uah_rub "CBR+NBU"
  (add_edge "UAH" "USD" (1 / NbuRates.usd_uah nbu)%float "NBU"
  (add_edge "USD" "UAH" (NbuRates.usd_uah nbu) "NBU"
  (add_edge "UAH" "EUR" (1 / NbuRates.eur_uah nbu)%float "NBU"
  (add_edge "EUR" "UAH" (NbuRates.eur_uah nbu) "NBU"
  (add_edge "RUB" "USD" (1 / CbrRates.usd_rub cbr)%float "CBR"
  (add_edge "USD" "RUB" (CbrRates.usd_rub cbr) "CBR"
  (add_edge "RUB" "EUR" (1 / CbrRates.eur_rub cbr)%float "CBR"
  (add_edge "EUR" "RUB" (CbrRates.eur_rub cbr) "CBR" ∅))))))))))))))).

(** The divisors of [_build_graph]: none of them may be zero. *)
Definition divisors (cbr : CbrRates.t) (nbu : NbuRates.t) (bnc : BinanceRates.t)
    : list float :=
  [CbrRates.eur_rub cbr; CbrRates.usd_rub cbr; NbuRates.eur_uah nbu;
   NbuRates.usd_uah nbu; (CbrRates.eur_rub cbr / NbuRates.eur_uah nbu)%float;
   BinanceRates.eur_usdt bnc; BinanceRates.usdt_uah bnc; BinanceRates.usdt_usd bnc].

(** The rate facts of the builder: the edges read from a snapshot and the one
    derived through EUR, each in the direction in which its rate is given. *)
Definition rate_facts (cbr : CbrRates.t) (nbu : NbuRates.t) (bnc : BinanceRates.t)
    : list RateEdge :=
  [ {| e_from := "EUR"; e_to := "RUB"; e_factor := CbrRates.eur_rub cbr;
       e_source := "CBR" |};
    {| e_from := "USD"; e_to := "RUB"; e_factor := CbrRates.usd_rub cbr;
       e_source := "CBR" |};
    {| e_from := "EUR"; e_to := "UAH"; e_factor := NbuRates.eur_uah nbu;
       e_source := "NBU" |};
    {| e_from := "USD"; e_to := "UAH"; e_factor := NbuRates.usd_uah nbu;
       e_source := "NBU" |};
    {| e_from := "UAH"; e_to := "RUB";
       e_factor := (CbrRates.eur_rub cbr / NbuRates.eur_uah nbu)%float;
       e_source := "CBR+NBU" |};
    {| e_from := "EUR"; e_to := "USDT"; e_factor := BinanceRates.eur_usdt bnc;
       e_source := "Binance" |};
    {| e_from := "USDT"; e_to := "UAH"; e_factor := BinanceRates.usdt_uah bnc;
       e_source := "Binance" |};
    {| e_from := "USDT"; e_to := "USD"; e_factor := BinanceRates.usdt_usd bnc;
       e_source := "Binance" |} ].

(** The edge in the other direction: [(to, from, 1.0 / factor, source)]. *)
Definition reciprocal (e : RateEdge) : RateEdge :=
  {| e_from := e_to e; e_to := e_from e;
     e_factor := (1 / e_factor e)%float; e_source := e_source e |}.

(** Edge-inverse closure as the specification states it. *)
Definition inverse_closed (graph : Graph) : Prop :=
  ∀ e, has_edge graph e → has_edge graph (reciprocal e).

Definition no_self_loop (graph : Graph) : Prop :=
  ∀ e, has_edge graph e → e_from e ≠ e_to e.

(** The edges come in pairs, an edge and its reciprocal: every edge has its
    reciprocal in the graph or is the reciprocal of an edge of the graph. *)
Definition paired (graph : Graph) : Prop :=
  ∀ e, has_edge graph e →
    has_edge graph (reciprocal e) ∨ ∃ e', has_edge graph e' ∧ e = reciprocal e'.

(** ** Binary64 *)

Definition two52 : positive := 4503599627370496.

(** A positive normal double below [2 ^ 1022]: its reciprocal is a normal
    double too. *)
Definition normal_rate (x : float) : bool :=
  match Prim2SF x with
  | S754_finite false m e => ((2 ^ 52 <=? Z.pos m) && (e <=? 969))%Z
  | _ => false
  end.

(** The one-bit neighbourhood of [1.0] in which a rate times its reciprocal
    falls. *)
Definition near_one : list float :=
  [0x1.ffffffffffffep-1; 0x1.fffffffffffffp-1; 1; 0x1.0000000000001p+0]%float.

(** [math.isfinite]: neither an infinity nor a NaN. *)
Definition isfinite (x : float) : bool :=
  match Prim2SF x with
  | S754_zero _ | S754_finite _ _ _ => true
  | _ => false
  end.

(** The doubles from [1 - 8 * 2^-53] to [1 + 5 * 2^-52]: those within three
    bits of [1.0]. *)
Definition about_one : list float :=
  ((λ j, SF2Prim (S754_finite false (Z.to_pos (2 ^ 53 - j)) (-53)))
     <$> [1; 2; 3; 4; 5; 6; 7; 8]%Z) ++
  ((λ j, SF2Prim (S754_finite false (Z.to_pos (2 ^ 52 + j)) (-52)))
     <$> [0; 1; 2; 3; 4; 5]%Z).

(** Equality within the relative tolerance 1e-9, as [math.isclose] tests
    it. *)
Definition isclose (a b : float) : bool :=
  if PrimFloat.eqb a b then true
  else if is_infinity a || is_infinity b then false
  else
    let diff := abs (b - a) in
    PrimFloat.leb diff (abs (1e-9 * b)) || PrimFloat.leb diff (abs (1e-9 * a)).

(** ** Scenarios *)

(** The scenario of the specification. *)
Module Scenario.
Definition cbr : CbrRates.t := CbrRates.mk 100 90 1700000000000000.
Definition nbu : NbuRates.t := NbuRates.mk 45 40 1700000001000000.
Definition bnc : BinanceRates.t := BinanceRates.mk 1.1 41 1 1700000002000000.
Definition net : Net :=
  {| fetch_cbr := Ok cbr; fetch_nbu := Ok nbu; fetch_binance := Ok bnc |}.
(** A feed that is down: the second provider answers 503. *)
Definition net_down : Net :=
  {| fetch_cbr := Ok cbr;
     fetch_nbu := Raise (OtherError "ClientResponseError" "503");
     fetch_binance := Ok bnc |}.
Definition now : datetime := 1700000003000000.
(** The service [RateService(600)]: see [init_scenario_service]. *)
Definition service : RateService.t := RateService.mk 600000000 ∅ None.
Definition world : World := {| self := service; fetched := [] |}.
Definition as_of : datetime := 1700000002000000.
(** The result of resolving USD to EUR, and the world after that call. *)
Definition usd_eur : RateResult.t :=
  RateResult.mk 0.9 [("USD", "RUB", "CBR"); ("RUB", "EUR", "CBR")] as_of.
Definition world_after : World := (get_rate now net "usd" "eur" world).2.
End Scenario.

(** A world that already holds a fresh entry for another pair. *)
Definition world_with_entry : World :=
  {| self := RateService.mk 600000000
               {[ "UAH->RUB" := (1700000500000000%Z,
                     RateResult.mk (100 / 45)%float [("UAH", "RUB", "CBR+NBU")]
                       Scenario.as_of) ]}
               (Some Scenario.as_of);
     fetched := [] |}.

(** A CBR snapshot whose EUR rate is the least positive double. *)
Definition cbr_tiny : CbrRates.t := CbrRates.mk 0x1p-1074 90 0.

(** Two routes of two hops from A to D; the dearer one was inserted first. *)
Definition tie_graph : Graph :=
  {[ "A" := [("B", 2%float, "x"); ("C", 3%float, "y")];
     "B" := [("D", 5%float, "x")];
     "C" := [("D", 100%float, "y")] ]}.

(** ** The code around the service *)

(** The call returned: it did not raise. *)
Definition answered {A} (r : result A) : Prop := ∃ a, r = Ok a.

(** A divisor on which Python raises: [+0.0] or [-0.0]. *)
Definition is_zero (d : float) : Prop := PrimFloat.eqb d 0%float = true.
#[global] Instance is_zero_dec (d : float) : Decision (is_zero d).
Proof. unfold is_zero. apply _. Defined.

Definition positive_rate (d : float) : Prop := PrimFloat.ltb 0%float d = true.

(** The rate fields of the three snapshots. *)
Definition rate_fields (cbr : CbrRates.t) (nbu : NbuRates.t) (bnc : BinanceRates.t)
    : list float :=
  [CbrRates.eur_rub cbr; CbrRates.usd_rub cbr; NbuRates.eur_uah nbu;
   NbuRates.usd_uah nbu; BinanceRates.eur_usdt bnc; BinanceRates.usdt_uah bnc;
   BinanceRates.usdt_usd bnc].

(** The ordered pairs of supported codes without an edge between them. *)
Definition two_hop_pairs : list (string * string) :=
  [("USD", "EUR"); ("EUR", "USD"); ("RUB", "USDT"); ("USDT", "RUB")].

(** A service created with a zero time to live. *)
Definition world_without_ttl : World :=
  {| self := RateService.mk 0 ∅ None; fetched := [] |}.

(** The variable is unset, empty or holds only white space. *)
Definition blank (env : gmap string string) (name : string) : Prop :=
  strip (getenv env name "") = "".

(** An environment with the three required variables. *)
Definition env_minimal : gmap string string :=
  {[ "BOT_TOKEN" := " 123:abc "; "DATABASE_URL" := "postgres://u@h/db";
     "ADMIN_ID" := "42" ]}.

(** An environment whose administrator id is not a number. *)
Definition env_bad_admin : gmap string string :=
  {[ "BOT_TOKEN" := " 123:abc "; "DATABASE_URL" := "postgres://u@h/db";
     "ADMIN_ID" := "4x2" ]}.

(** A reading of plain decimal numerals, to run the examples: [int] and
    [float] agree with it on such numerals. *)
Fixpoint digits_value (acc : Z) (s : string) : option Z :=
  match s with
  | EmptyString => Some acc
  | String c s' =>
      let n := Ascii.nat_of_ascii c in
      if (48 <=? n)%nat && (n <=? 57)%nat
      then digits_value (10 * acc + Z.of_nat (n - 48)) s'
      else None
  end.

Definition numeral (s : string) : option Z :=
  match s with
  | EmptyString => None
  | _ => digits_value 0 s
  end.

(** What [float] reads in the examples: a decimal numeral as the integer it
    names. *)
Definition numeral_float (s : string) : option float :=
  match numeral s with
  | Some n => Some (PrimFloat.of_uint63 (Uint63.of_Z n))
  | None => None
  end.

(** [n] is an integer nearest to [m / d], and even when [m / d] lies half-way
    between two integers. *)
Definition nearest_even (m d n : Z) : Prop :=
  (d * (2 * n - 1) ≤ 2 * m ≤ d * (2 * n + 1))%Z ∧
  (2 * m = d * (2 * n - 1) ∨ 2 * m = d * (2 * n + 1) → Z.even n = true)%Z.

(** Every row is stored under its own primary key. *)
Definition keyed (db : Database) : Prop :=
  (∀ k u, users db !! k = Some u → User.user_id u = k) ∧
  (∀ k o, orders db !! k = Some o → Order.id o = k).

Definition empty_db : Database := {| users := ∅; orders := ∅ |}.

(** A user of the examples, seen a first and a second time. *)
Definition tg_first : TgUser.t := TgUser.mk 7 (Some "ann") (Some "Ann") None (Some "en").
Definition tg_second : TgUser.t := TgUser.mk 7 (Some "anna") (Some "Ann") None (Some "uk").

(** The code of a [Valute] element as [get_rate] compares it. *)
Definition valute_code (v : Valute.t) : string := strip (or_text (Valute.CharCode v) "").

(** The code of an item as [find] compares it. *)
Definition item_code (i : NbuItem.t) : string := upper (or_text (NbuItem.cc i) "").

(** A CBR document in which the euro is quoted twice. *)
Definition valutes_example : list Valute.t :=
  [ Valute.mk (Some "JPY") (Some "100") (Some "61,5");
    Valute.mk (Some " EUR ") None (Some "98");
    Valute.mk (Some "EUR") (Some "1") (Some "1") ].

(** * Properties *)

(** ** The search terminates *)

Lemma out_edges_target (graph : Graph) (u w : string) (r : float) (s : string) :
  (w, r, s) ∈ out_edges graph u → w ∈ graph_targets graph.
Proof.
  unfold out_edges, graph_targets. intros Hin.
  destruct (graph !! u) as [es|] eqn:Hu; simpl in Hin; [|by apply elem_of_nil in Hin].
  apply elem_of_union_list.
  exists (list_to_set ((λ e : edge, e.1.1) <$> es)). split.
  - apply list_elem_of_fmap. exists (u, es). split; [done|].
    by apply elem_of_map_to_list.
  - apply elem_of_list_to_set, list_elem_of_fmap. by exists (w, r, s).
Qed.

Lemma work_discover (T V : gset string) (nxt : string) :
  nxt ∈ T → nxt ∉ V → S (size (T ∖ ({[nxt]} ∪ V))) ≤ size (T ∖ V).
Proof.
  intros HT HV.
  assert (T ∖ ({[nxt]} ∪ V) ⊂ T ∖ V) as Hsub by set_solver.
  apply subset_size in Hsub. lia.
Qed.

Lemma scan_edges_work (T : gset string) (cur to : string) (es : list edge) :
  ∀ st, (∀ e, e ∈ es → e.1.1 ∈ T) →
    work T (scan_edges cur to es st) ≤ work T st.
Proof.
  induction es as [|[[nxt r] src] es IH]; intros st HT; simpl; [done|].
  assert (∀ e, e ∈ es → e.1.1 ∈ T) as HT' by (intros e He; apply HT; by right).
  destruct (decide (nxt ∈ visited st)) as [Hv|Hv]; [by apply IH|].
  pose proof (work_discover T (visited st) nxt (HT (nxt, r, src) ltac:(left)) Hv) as Hd.
  destruct (decide (nxt = to)) as [->|Hnt].
  - unfold work; simpl. lia.
  - etrans; [by apply IH|]. unfold work; simpl. rewrite length_app; simpl. lia.
Qed.

Lemma bfs_loop_fuel (graph : Graph) (to : string) (fuel : nat) :
  ∀ st, work (graph_targets graph) st ≤ fuel → is_Some (bfs_loop fuel graph to st).
Proof.
  induction fuel as [|fuel IH]; intros st Hw.
  - destruct st as [[|cur rest] pv vs]; simpl; [by eexists|].
    unfold work in Hw; simpl in Hw; lia.
  - destruct st as [[|cur rest] pv vs]; simpl; [by eexists|].
    apply IH.
    etrans; [apply scan_edges_work; intros [[w r] s] He; by eapply out_edges_target|].
    unfold work in *; simpl in *; lia.
Qed.

Lemma bfs_terminates (graph : Graph) (frm to : string) : is_Some (bfs graph frm to).
Proof.
  apply bfs_loop_fuel. unfold work, bfs_init; simpl.
  assert (size (graph_targets graph ∖ {[frm]}) ≤ size (graph_targets graph))
    by (apply subseteq_size; set_solver).
  lia.
Qed.

(** ** Routes of a graph *)

Lemma first_edge_has_edge graph e : first_edge graph e → has_edge graph e.
Proof. intros (before & after & Hout & _). rewrite /has_edge Hout. set_solver. Qed.

Lemma is_route_snoc graph frm mid route e :
  is_route graph frm mid route → e_from e = mid → has_edge graph e →
  is_route graph frm (e_to e) (route ++ [e]).
Proof.
  revert frm. induction route as [|e' route IH]; simpl; intros frm.
  - intros <- ? ?. done.
  - intros (? & ? & ?) ? ?. eauto.
Qed.

Lemma reach_route graph frm mid n route to :
  reach graph frm mid n → is_route graph mid to route →
  reach graph frm to (n + length route).
Proof.
  revert mid n. induction route as [|[a b r s] route IH]; simpl; intros mid n Hr.
  - intros <-. by rewrite Nat.add_0_r.
  - intros (<- & He & Hrest). rewrite Nat.add_succ_r.
    apply (IH b (S n)); [|done]. by eapply reach_step.
Qed.

Lemma is_route_reach graph frm to route :
  is_route graph frm to route → reach graph frm to (length route).
Proof. intros. apply (reach_route graph frm frm 0); [constructor|done]. Qed.

(** ** Routes by positions *)

Lemma lex_lt_irrefl (a : list nat) : ¬ lex_lt a a.
Proof. induction a as [|i a IH]; simpl; [tauto|]. intros [?|[_ ?]]; [lia|done]. Qed.

Lemma lex_lt_trans (a b c : list nat) : lex_lt a b → lex_lt b c → lex_lt a c.
Proof.
  revert b c. induction a as [|i a IH]; intros [|j b] [|k c]; simpl; try done.
  intros [?|[-> ?]] [?|[-> ?]]; [left; lia..|]. right. split; [done|]. by eapply IH.
Qed.

Lemma lex_lt_app (a b x y : list nat) : lex_lt a b → lex_lt (a ++ x) (b ++ y).
Proof.
  revert b. induction a as [|i a IH]; intros [|j b]; simpl; try done.
  intros [?|[-> ?]]; [by left|]. right. split; [done|]. by apply IH.
Qed.

Lemma lex_lt_snoc (a : list nat) (i j : nat) : i < j → lex_lt (a ++ [i]) (a ++ [j]).
Proof. intros Hij. induction a as [|k a IH]; simpl; [by left|]. by right. Qed.

Lemma lex_le_antisym (a b : list nat) : lex_le a b → lex_le b a → a = b.
Proof.
  intros [Hab|Hab] [Hba|Hba]; try done.
  by destruct (lex_lt_irrefl a (lex_lt_trans _ _ _ Hab Hba)).
Qed.

Lemma lex_lt_le_trans (a b c : list nat) : lex_lt a b → lex_le b c → lex_lt a c.
Proof. intros Hab [<-|Hbc]; [done|]. by eapply lex_lt_trans. Qed.

Lemma before_irrefl (a : list nat) : ¬ before a a.
Proof. intros [?|[_ ?]]; [lia|]. by eapply lex_lt_irrefl. Qed.

Lemma before_same_length (a b : list nat) :
  before a b → length a = length b → lex_lt a b.
Proof. intros [?|[_ ?]] ?; [lia|done]. Qed.

Lemma before_length (a b : list nat) : before a b → length a ≤ length b.
Proof. intros [?|[? _]]; lia. Qed.

Lemma follow_length graph frm pos route :
  follow graph frm pos = Some route → length route = length pos.
Proof.
  revert frm route. induction pos as [|i pos IH]; intros frm route; simpl.
  - by intros [= <-].
  - destruct (out_edges graph frm !! i) as [[[w r] s]|]; [|done].
    destruct (follow graph w pos) as [rest|] eqn:Hrest; [|done].
    intros [= <-]. simpl. f_equal. by eapply IH.
Qed.

Lemma follow_snoc graph frm pos route u v r s i :
  follow graph frm pos = Some route → is_route graph frm u route →
  out_edges graph u !! i = Some (v, r, s) →
  follow graph frm (pos ++ [i])
    = Some (route ++ [{| e_from := u; e_to := v; e_factor := r; e_source := s |}]).
Proof.
  revert frm route. induction pos as [|i0 pos IH]; intros frm route; simpl.
  - intros [= <-] <- Hi. by rewrite Hi.
  - destruct (out_edges graph frm !! i0) as [[[w r0] s0]|]; [|done].
    destruct (follow graph w pos) as [rest|] eqn:Hrest; [|done].
    intros [= <-] (_ & _ & Hroute) Hi. simpl in Hroute.
    by rewrite (IH w rest Hrest Hroute Hi).
Qed.

Lemma follow_snoc_inv graph frm pos j route' v :
  follow graph frm (pos ++ [j]) = Some route' → is_route graph frm v route' →
  ∃ route u r s,
    route' = route ++ [{| e_from := u; e_to := v; e_factor := r; e_source := s |}] ∧
    follow graph frm pos = Some route ∧ is_route graph frm u route ∧
    out_edges graph u !! j = Some (v, r, s).
Proof.
  revert frm route'. induction pos as [|i0 pos IH]; intros frm route'; simpl.
  - destruct (out_edges graph frm !! j) as [[[w r] s]|] eqn:Hj; [|done].
    intros [= <-] (_ & _ & Hend). simpl in Hend. subst w.
    by exists [], frm, r, s.
  - destruct (out_edges graph frm !! i0) as [[[w r0] s0]|] eqn:Hi0; [|done].
    destruct (follow graph w (pos ++ [j])) as [rest|] eqn:Hrest; [|done].
    intros [= <-] (_ & Hedge & Hroute). simpl in Hroute.
    destruct (IH w rest Hrest Hroute) as (route & u & r & s & -> & Hpos & Hu & Hj).
    exists ({| e_from := frm; e_to := w; e_factor := r0; e_source := s0 |} :: route),
      u, r, s.
    split; [done|]. split; [by rewrite Hpos|]. by split.
Qed.

Lemma is_route_snoc_inv graph frm to route e :
  is_route graph frm to (route ++ [e]) →
  is_route graph frm (e_from e) route ∧ has_edge graph e ∧ e_to e = to.
Proof.
  revert frm. induction route as [|e' route IH]; simpl; intros frm.
  - by intros (<- & ? & <-).
  - intros (<- & ? & Hrest). destruct (IH _ Hrest) as (? & ? & ?). done.
Qed.

(** ** Invariants of the search *)

Section search.
Context (graph : Graph) (frm to : string).
Implicit Types (lvl : string → nat) (st : bfs_state).

Lemma front_inv_level lvl st busy d x :
  front_inv graph to lvl st busy d → x ∈ busy ++ q st → d ≤ lvl x.
Proof.
  intros [(A & B & Hq & HA & HB) Hbusy _ _ _ _] Hx.
  rewrite Hq in Hx. apply elem_of_app in Hx as [Hx|Hx].
  - by rewrite (Hbusy x Hx).
  - apply elem_of_app in Hx as [Hx|Hx]; [rewrite (HA x Hx)|rewrite (HB x Hx)]; lia.
Qed.

(** Every node within [d] hops of [frm] has been seen, at a depth that is at
    most its distance. *)
Lemma front_inv_reach lvl st busy d :
  tree_inv graph frm lvl st → front_inv graph to lvl st busy d →
  ∀ v n, reach graph frm v n → n ≤ d → v ∈ visited st ∧ lvl v ≤ n.
Proof.
  intros Ht Hf v n Hr. induction Hr as [|u n w r s Hr IH Hedge]; intros Hn.
  - split; [rewrite (ti_visited _ _ _ _ Ht); set_solver|].
    by rewrite (ti_lvl_frm _ _ _ _ Ht).
  - destruct IH as [Hu Hlu]; [lia|].
    assert (u ∉ busy ++ q st) as Hnot.
    { intros Hin. pose proof (front_inv_level _ _ _ _ _ Hf Hin). lia. }
    destruct (fi_closed _ _ _ _ _ _ Hf u w r s Hu Hnot Hedge) as [Hw Hlw].
    split; [done|lia].
Qed.

(** Once nothing is pending, every node that can be reached has been seen. *)
Lemma front_inv_exhausted lvl st d :
  tree_inv graph frm lvl st → front_inv graph to lvl st [] d → q st = [] →
  ∀ v n, reach graph frm v n → v ∈ visited st.
Proof.
  intros Ht Hf Hq v n Hr. induction Hr as [|u n w r s Hr IH Hedge].
  - rewrite (ti_visited _ _ _ _ Ht). set_solver.
  - eapply (fi_closed _ _ _ _ _ _ Hf u w r s); [done| |done].
    rewrite Hq. simpl. apply not_elem_of_nil.
Qed.

(** *** Seeing a new node *)

Lemma lvl_discover_old lvl st cur nxt x :
  nxt ∉ visited st → x ∈ visited st → lvl_discover lvl cur nxt x = lvl x.
Proof.
  intros Hnxt Hx. unfold lvl_discover. rewrite decide_False //.
  by intros ->.
Qed.

Lemma lvl_discover_new lvl cur nxt : lvl_discover lvl cur nxt nxt = S (lvl cur).
Proof. unfold lvl_discover. by rewrite decide_True. Qed.

Lemma tree_inv_frm_visited lvl st : tree_inv graph frm lvl st → frm ∈ visited st.
Proof. intros Ht. rewrite (ti_visited _ _ _ _ Ht). set_solver. Qed.

Lemma tree_inv_prev_visited lvl st v x :
  tree_inv graph frm lvl st → prev st !! v = Some x → v ∈ visited st.
Proof.
  intros Ht Hv. rewrite (ti_visited _ _ _ _ Ht).
  apply elem_of_union_r, elem_of_dom. by eexists.
Qed.

Lemma tree_inv_unseen lvl st nxt :
  tree_inv graph frm lvl st → nxt ∉ visited st → prev st !! nxt = None.
Proof.
  intros Ht Hnxt. destruct (prev st !! nxt) eqn:E; [|done].
  exfalso. by eapply Hnxt, tree_inv_prev_visited.
Qed.

Lemma tree_inv_discover lvl st cur nxt r src q' :
  tree_inv graph frm lvl st → cur ∈ visited st → nxt ∉ visited st →
  first_edge graph {| e_from := cur; e_to := nxt; e_factor := r; e_source := src |} →
  tree_inv graph frm (lvl_discover lvl cur nxt) (discover st cur nxt r src q').
Proof.
  intros Ht Hcur Hnxt Hedge.
  pose proof (tree_inv_unseen _ _ _ Ht Hnxt) as Hnone.
  pose proof (tree_inv_frm_visited _ _ Ht) as Hfrm.
  constructor; simpl.
  - rewrite dom_insert_L (ti_visited _ _ _ _ Ht). set_solver.
  - rewrite lookup_insert_ne; [by intros ->|apply Ht].
  - rewrite (lvl_discover_old _ st) //. apply Ht.
  - intros v p r' s'. rewrite lookup_insert. case_decide as Hv.
    + subst v. intros [= <- <- <-]. split; [done|]. split; [set_solver|].
      by rewrite lvl_discover_new (lvl_discover_old _ st).
    + intros Hpv. destruct (ti_prev _ _ _ _ Ht _ _ _ _ Hpv) as (He & Hp & Hl).
      split; [done|]. split; [set_solver|].
      rewrite !(lvl_discover_old _ st) //. by eapply tree_inv_prev_visited.
  - intros v Hv. rewrite map_size_insert_None //.
    apply elem_of_union in Hv as [Hv|Hv].
    + apply elem_of_singleton in Hv as ->. rewrite lvl_discover_new.
      pose proof (ti_size _ _ _ _ Ht cur Hcur). lia.
    + rewrite (lvl_discover_old _ st) //. pose proof (ti_size _ _ _ _ Ht v Hv). lia.
Qed.

Lemma front_inv_discover lvl st cur nxt r src d :
  front_inv graph to lvl st [cur] d → nxt ∉ visited st → nxt ≠ to →
  front_inv graph to (lvl_discover lvl cur nxt)
    (discover st cur nxt r src (q st ++ [nxt])) [cur] d.
Proof.
  intros Hf Hnxt Hto.
  destruct Hf as [(A & B & Hq & HA & HB) Hbusy Hpend Hbound Hclosed Hnot].
  assert (lvl cur = d) as Hcur by (apply Hbusy; set_solver).
  assert (∀ x, x ∈ [cur] ++ q st → lvl_discover lvl cur nxt x = lvl x) as Hold.
  { intros x Hx. apply (lvl_discover_old _ st); [done|by apply Hpend]. }
  constructor; simpl.
  - exists A, (B ++ [nxt]). split; [by rewrite Hq assoc|]. split.
    + intros x Hx. rewrite Hold; [rewrite Hq; set_solver|by apply HA].
    + intros x Hx. apply elem_of_app in Hx as [Hx|Hx].
      * rewrite Hold; [rewrite Hq; set_solver|by apply HB].
      * apply list_elem_of_singleton in Hx as ->. by rewrite lvl_discover_new Hcur.
  - intros x Hx. rewrite Hold; [set_solver|by apply Hbusy].
  - intros x Hx. rewrite elem_of_cons elem_of_app list_elem_of_singleton in Hx.
    destruct Hx as [->|[Hx| ->]]; [|set_solver..].
    apply elem_of_union_r, Hpend. set_solver.
  - intros v Hv. apply elem_of_union in Hv as [Hv|Hv].
    + apply elem_of_singleton in Hv as ->. rewrite lvl_discover_new. lia.
    + rewrite (lvl_discover_old _ st) //. by apply Hbound.
  - intros u w r' s' Hu Hpending Hedge.
    assert (u ≠ nxt) as Hune by (intros ->; apply Hpending; set_solver).
    assert (u ∈ visited st) as Hu' by set_solver.
    destruct (Hclosed u w r' s' Hu') as [Hw Hlw]; [set_solver|done|].
    split; [set_solver|]. by rewrite !(lvl_discover_old _ st).
  - set_solver.
Qed.

Lemma found_discover lvl st cur r src d q' :
  tree_inv graph frm lvl st → front_inv graph to lvl st [cur] d →
  found graph frm to (lvl_discover lvl cur to) (discover st cur to r src q').
Proof.
  intros Ht Hf. split; simpl.
  - rewrite lookup_insert_eq. by eexists.
  - intros n Hr. rewrite lvl_discover_new.
    rewrite (fi_busy _ _ _ _ _ _ Hf cur); [set_solver|].
    destruct (decide (n ≤ d)) as [Hn|Hn]; [|lia].
    destruct (front_inv_reach _ _ _ _ Ht Hf to n Hr Hn) as [Hin _].
    by destruct (fi_to _ _ _ _ _ _ Hf).
Qed.

(** *** The order of the branches *)

Lemma sq_discover_old sq st cur nxt k x :
  nxt ∉ visited st → x ∈ visited st → sq_discover sq cur nxt k x = sq x.
Proof.
  intros Hnxt Hx. unfold sq_discover. rewrite decide_False //.
  by intros ->.
Qed.

Lemma sq_discover_new sq cur nxt k : sq_discover sq cur nxt k nxt = sq cur ++ [k].
Proof. unfold sq_discover. by rewrite decide_True. Qed.

Lemma order_front_nodup sq st busy k x i j :
  order_front graph sq st busy k →
  (busy ++ q st) !! i = Some x → (busy ++ q st) !! j = Some x → i = j.
Proof.
  intros Ho Hi Hj.
  destruct (Nat.lt_trichotomy i j) as [Hlt|[->|Hlt]]; [|done|].
  - by destruct (before_irrefl (sq x) (of_sorted _ _ _ _ _ Ho i j x x Hi Hj Hlt)).
  - by destruct (before_irrefl (sq x) (of_sorted _ _ _ _ _ Ho j i x x Hj Hi Hlt)).
Qed.

Lemma order_front_busy_not_queued sq st cur k :
  order_front graph sq st [cur] k → cur ∉ q st.
Proof.
  intros Ho [j Hj]%list_elem_of_lookup.
  by pose proof (order_front_nodup sq st [cur] k cur 0 (S j) Ho eq_refl Hj).
Qed.

(** The branch of a node that is seen while [cur] is scanned comes after
    the branches of all pending nodes. *)
Lemma order_front_last lvl sq st cur d k x :
  tree_inv graph frm lvl st → front_inv graph to lvl st [cur] d →
  order_tree graph frm lvl sq st → order_front graph sq st [cur] k →
  x ∈ [cur] ++ q st → before (sq x) (sq cur ++ [k]).
Proof.
  intros Ht Hf Hot Ho Hx.
  assert (cur ∈ visited st) as Hcur by (apply (fi_pending _ _ _ _ _ _ Hf); set_solver).
  assert (lvl cur = d) as Hd by (apply (fi_busy _ _ _ _ _ _ Hf); set_solver).
  assert (x ∈ visited st) as Hxv by (by apply (fi_pending _ _ _ _ _ _ Hf)).
  pose proof (ot_len _ _ _ _ _ Hot cur Hcur) as Hlcur.
  pose proof (ot_len _ _ _ _ _ Hot x Hxv) as Hlx.
  destruct (decide (lvl x = S d)) as [HSd|Hnot].
  - right. split; [rewrite length_app /=; lia|].
    assert (x ≠ frm) as Hne.
    { intros ->. rewrite (ti_lvl_frm _ _ _ _ Ht) in HSd. lia. }
    rewrite (ti_visited _ _ _ _ Ht) in Hxv.
    assert (x ∈ dom (prev st)) as [[[p r] s] Hp]%elem_of_dom by set_solver.
    destruct (ti_prev _ _ _ _ Ht _ _ _ _ Hp) as (_ & Hpv & Hl).
    destruct (ot_prev _ _ _ _ _ Hot _ _ _ _ Hp) as (i & Hsq & _).
    destruct (of_parent _ _ _ _ _ Ho _ _ _ _ Hp) as [Hpq Hbusy].
    destruct (decide (p = cur)) as [->|Hpc].
    + destruct Hbusy as (i' & Hsq' & Hi'); [set_solver|].
      rewrite Hsq'. by apply lex_lt_snoc.
    + rewrite Hsq. apply lex_lt_app.
      apply before_same_length.
      * apply (of_done _ _ _ _ _ Ho); [done|set_solver|set_solver].
      * rewrite (ot_len _ _ _ _ _ Hot p Hpv) Hlcur. lia.
  - left. rewrite length_app /= Hlx Hlcur Hd.
    destruct (fi_split _ _ _ _ _ _ Hf) as (A & B & Hq & HA & HB).
    apply elem_of_app in Hx as [Hx|Hx].
    + apply list_elem_of_singleton in Hx as ->. lia.
    + rewrite Hq in Hx. apply elem_of_app in Hx as [Hx|Hx].
      * rewrite (HA x Hx). lia.
      * by rewrite (HB x Hx) in Hnot.
Qed.

Lemma order_tree_discover lvl sq st cur nxt r src d k q' :
  tree_inv graph frm lvl st → front_inv graph to lvl st [cur] d →
  order_tree graph frm lvl sq st → order_front graph sq st [cur] k →
  out_edges graph cur !! k = Some (nxt, r, src) → nxt ∉ visited st →
  order_tree graph frm (lvl_discover lvl cur nxt) (sq_discover sq cur nxt k)
    (discover st cur nxt r src q').
Proof.
  intros Ht Hf Hot Ho Hk Hnxt.
  assert (cur ∈ visited st) as Hcur by (apply (fi_pending _ _ _ _ _ _ Hf); set_solver).
  assert (lvl cur = d) as Hd by (apply (fi_busy _ _ _ _ _ _ Hf); set_solver).
  pose proof (tree_inv_frm_visited _ _ Ht) as Hfrm.
  pose proof (tree_inv_unseen _ _ _ Ht Hnxt) as Hnone.
  constructor; simpl.
  - rewrite (sq_discover_old _ st) //. apply Hot.
  - intros v Hv. apply elem_of_union in Hv as [Hv|Hv].
    + apply elem_of_singleton in Hv as ->.
      rewrite sq_discover_new lvl_discover_new length_app /=.
      rewrite (ot_len _ _ _ _ _ Hot cur Hcur). lia.
    + rewrite (sq_discover_old _ st) // (lvl_discover_old _ st) //. by apply Hot.
  - intros v p r' s'. rewrite lookup_insert. case_decide as Hv.
    + subst v. intros [= <- <- <-]. exists k.
      by rewrite sq_discover_new (sq_discover_old _ st).
    + intros Hpv. destruct (ot_prev _ _ _ _ _ Hot _ _ _ _ Hpv) as (i & Hsq & Hi).
      destruct (ti_prev _ _ _ _ Ht _ _ _ _ Hpv) as (_ & Hp & _).
      assert (v ∈ visited st) as Hvv by (by eapply tree_inv_prev_visited).
      exists i. rewrite (sq_discover_old sq st cur nxt k v Hnxt Hvv).
      by rewrite (sq_discover_old sq st cur nxt k p Hnxt Hp).
  - intros v pos route Hv Hpos Hroute Hlen.
    apply elem_of_union in Hv as [Hv|Hv].
    2:{ rewrite (sq_discover_old _ st) //. rewrite (lvl_discover_old _ st) // in Hlen.
        by eapply (ot_least _ _ _ _ _ Hot). }
    apply elem_of_singleton in Hv as ->.
    rewrite lvl_discover_new in Hlen. rewrite sq_discover_new.
    revert Hpos Hroute Hlen.
    induction pos as [|j P _] using rev_ind; intros Hpos Hroute Hlen; [done|].
    rewrite length_app /= Nat.add_1_r in Hlen. injection Hlen as Hlen.
    destruct (follow_snoc_inv _ _ _ _ _ _ Hpos Hroute)
      as (route0 & u & r' & s' & -> & HP & Hu & Hj).
    assert (reach graph frm u (lvl cur)) as Hreach.
    { rewrite -Hlen -(follow_length _ _ _ _ HP). by apply is_route_reach. }
    destruct (front_inv_reach _ _ _ _ Ht Hf u (lvl cur) Hreach ltac:(lia)) as [Huv Hlu].
    assert ((nxt, r', s') ∈ out_edges graph u) as Hedge
      by (by eapply list_elem_of_lookup_2).
    assert (u ∈ [cur] ++ q st) as Hpending.
    { destruct (decide (u ∈ [cur] ++ q st)) as [|Hno]; [done|].
      by destruct (fi_closed _ _ _ _ _ _ Hf u nxt r' s' Huv Hno Hedge). }
    pose proof (front_inv_level _ _ _ _ _ Hf Hpending) as Hge.
    assert (lex_le (sq u) P) as Hleast
      by (apply (ot_least _ _ _ _ _ Hot u P route0); [done|done|done|lia]).
    apply list_elem_of_lookup in Hpending as [[|n] Hn]; simpl in Hn.
    + injection Hn as <-.
      assert (k ≤ j) as Hkj.
      { destruct (decide (k ≤ j)) as [|Hlt]; [done|]. destruct Hnxt.
        apply (of_scanned _ _ _ _ _ Ho cur j (nxt, r', s')); [set_solver|lia|done]. }
      destruct Hleast as [<-|Hlt]; [|right; by apply lex_lt_app].
      destruct (decide (k = j)) as [->|Hne]; [by left|].
      right. apply lex_lt_snoc. lia.
    + right. apply lex_lt_app. eapply lex_lt_le_trans; [|exact Hleast].
      apply before_same_length.
      * by apply (of_sorted _ _ _ _ _ Ho 0 (S n) cur u); [done|done|lia].
      * rewrite (ot_len _ _ _ _ _ Hot cur Hcur) (ot_len _ _ _ _ _ Hot u Huv). lia.
Qed.

Lemma order_front_discover lvl sq st cur nxt r src d k :
  tree_inv graph frm lvl st → front_inv graph to lvl st [cur] d →
  order_tree graph frm lvl sq st → order_front graph sq st [cur] k →
  out_edges graph cur !! k = Some (nxt, r, src) → nxt ∉ visited st →
  order_front graph (sq_discover sq cur nxt k)
    (discover st cur nxt r src (q st ++ [nxt])) [cur] (S k).
Proof.
  intros Ht Hf Hot Ho Hk Hnxt.
  assert (cur ∈ visited st) as Hcur by (apply (fi_pending _ _ _ _ _ _ Hf); set_solver).
  pose proof (tree_inv_unseen _ _ _ Ht Hnxt) as Hnone.
  assert (∀ x, x ∈ [cur] ++ q st → sq_discover sq cur nxt k x = sq x) as Hold.
  { intros x Hx. apply (sq_discover_old _ st); [done|].
    by apply (fi_pending _ _ _ _ _ _ Hf). }
  assert (∀ x, x ∈ [cur] ++ q st → x ≠ nxt) as Hnew.
  { intros x Hx ->. by apply Hnxt, (fi_pending _ _ _ _ _ _ Hf). }
  constructor; simpl.
  - intros v p r' s'. rewrite lookup_insert. case_decide as Hv.
    + subst v. intros [= <- <- <-]. split.
      * intros [Hin|Hin]%elem_of_app.
        -- by apply (order_front_busy_not_queued _ _ _ _ Ho).
        -- apply list_elem_of_singleton in Hin. by subst.
      * intros _. exists k. rewrite sq_discover_new (sq_discover_old _ st) //.
        split; [done|lia].
    + intros Hpv. destruct (of_parent _ _ _ _ _ Ho _ _ _ _ Hpv) as [Hpq Hbusy].
      destruct (ti_prev _ _ _ _ Ht _ _ _ _ Hpv) as (_ & Hp & _).
      split.
      * intros [Hin|Hin]%elem_of_app; [done|].
        apply list_elem_of_singleton in Hin. by subst.
      * intros Hin. destruct (Hbusy Hin) as (i & Hsq & Hi). exists i.
        assert (v ∈ visited st) as Hvv by (by eapply tree_inv_prev_visited).
        rewrite (sq_discover_old sq st cur nxt k v Hnxt Hvv).
        rewrite (sq_discover_old sq st cur nxt k p Hnxt Hp).
        split; [done|lia].
  - intros i j x y Hi Hj Hij.
    change ((([cur] ++ q st) ++ [nxt]) !! i = Some x) in Hi.
    change ((([cur] ++ q st) ++ [nxt]) !! j = Some y) in Hj.
    assert (i < length ([cur] ++ q st)) as Hilt.
    { apply lookup_lt_Some in Hj. rewrite !length_app /= in Hj.
      rewrite length_app /=. lia. }
    rewrite lookup_app_l // in Hi.
    assert (x ∈ [cur] ++ q st) as Hx by (by eapply list_elem_of_lookup_2).
    rewrite (Hold x Hx).
    apply lookup_app_Some in Hj as [Hj|[_ Hj]].
    + rewrite (Hold y); [by eapply list_elem_of_lookup_2|].
      by apply (of_sorted _ _ _ _ _ Ho i j).
    + apply list_lookup_singleton_Some in Hj as [_ <-]. rewrite sq_discover_new.
      by eapply order_front_last.
  - intros u x Hu Hnot Hx.
    assert (u ≠ nxt) as Hune by (intros ->; apply Hnot; set_solver).
    assert (u ∈ visited st) as Hu' by set_solver.
    assert (u ∉ [cur] ++ q st) as Hnot' by set_solver.
    rewrite (sq_discover_old sq st cur nxt k u Hnxt Hu').
    change (x ∈ ([cur] ++ q st) ++ [nxt]) in Hx. apply elem_of_app in Hx as [Hx|Hx].
    + rewrite (Hold x Hx). by apply (of_done _ _ _ _ _ Ho).
    + apply list_elem_of_singleton in Hx as ->. rewrite sq_discover_new.
      left. rewrite length_app /=.
      assert (before (sq u) (sq cur)) as Hb
        by (apply (of_done _ _ _ _ _ Ho); [done|done|set_solver]).
      apply before_length in Hb. lia.
  - intros c i e Hc Hi He. apply list_elem_of_singleton in Hc as ->.
    destruct (decide (i = k)) as [->|Hne].
    + rewrite Hk in He. injection He as <-. set_solver.
    + apply elem_of_union_r.
      apply (of_scanned _ _ _ _ _ Ho cur i e); [set_solver|lia|done].
Qed.

Lemma order_front_skip sq st cur nxt r src k :
  order_front graph sq st [cur] k →
  out_edges graph cur !! k = Some (nxt, r, src) → nxt ∈ visited st →
  order_front graph sq st [cur] (S k).
Proof.
  intros [Hparent Hsorted Hdone Hscanned] Hk Hnxt. constructor; try done.
  - intros v p r' s' Hp. destruct (Hparent v p r' s' Hp) as [Hpq Hbusy].
    split; [done|]. intros Hin. destruct (Hbusy Hin) as (i & Hsq & Hi).
    exists i. split; [done|lia].
  - intros c i e Hc Hi He. destruct (decide (i = k)) as [->|Hne].
    + apply list_elem_of_singleton in Hc as ->. rewrite Hk in He. by injection He as <-.
    + apply (Hscanned c i e); [done|lia|done].
Qed.

Lemma order_front_scanned sq st cur k :
  order_front graph sq st [cur] k → order_front graph sq st [] 0.
Proof.
  intros Ho. pose proof Ho as [Hparent Hsorted Hdone Hscanned].
  constructor; simpl.
  - intros v p r s Hp. destruct (Hparent v p r s Hp) as [Hpq _].
    split; [done|]. by intros ?%elem_of_nil.
  - intros i j x y Hi Hj Hij. by apply (Hsorted (S i) (S j) x y); [done|done|lia].
  - intros u x Hu Hnot Hx. destruct (decide (u = cur)) as [->|Hne].
    + apply list_elem_of_lookup in Hx as [j Hj].
      by apply (Hsorted 0 (S j) cur x); [done|done|lia].
    + apply Hdone; [done|set_solver|set_solver].
  - intros c i e Hc. by apply elem_of_nil in Hc.
Qed.

Lemma order_tree_requeue lvl sq st q' :
  order_tree graph frm lvl sq st →
  order_tree graph frm lvl sq {| q := q'; prev := prev st; visited := visited st |}.
Proof. intros [? ? ? ?]. by constructor. Qed.

Lemma order_front_pop sq st cur rest k :
  q st = cur :: rest → order_front graph sq st [] k →
  order_front graph sq {| q := rest; prev := prev st; visited := visited st |} [cur] 0.
Proof.
  intros Hq [Hparent Hsorted Hdone Hscanned]. rewrite Hq in Hparent, Hsorted, Hdone.
  constructor; simpl; [|done|done|].
  - intros v p r s Hp. destruct (Hparent v p r s Hp) as [Hpq _].
    split; [set_solver|]. intros Hin. apply list_elem_of_singleton in Hin as ->.
    destruct Hpq. by left.
  - intros c i e _ Hi. lia.
Qed.

(** *** The inner loop *)

(** When the scan of a node is over the node leaves the frontier. *)
Lemma front_inv_scanned lvl st cur d :
  front_inv graph to lvl st [cur] d →
  (∀ e : edge, e ∈ out_edges graph cur → e.1.1 ∈ visited st) →
  front_inv graph to lvl st [] d.
Proof.
  intros [Hsplit Hbusy Hpend Hbound Hclosed Hnot] Hdone.
  constructor; [done| |  | done| |done].
  - intros x Hx. by apply elem_of_nil in Hx.
  - intros x Hx. apply Hpend. set_solver.
  - intros u w r s Hu Hpending Hedge.
    destruct (decide (u = cur)) as [->|Hne].
    + pose proof (Hdone (w, r, s) Hedge) as Hw. simpl in Hw. split; [done|].
      rewrite (Hbusy cur); [set_solver|]. by apply Hbound.
    + apply (Hclosed u w r s); [done|set_solver|done].
Qed.

Lemma scan_edges_inv cur d es : ∀ seen st lvl sq,
  out_edges graph cur = seen ++ es →
  tree_inv graph frm lvl st → front_inv graph to lvl st [cur] d →
  order_tree graph frm lvl sq st → order_front graph sq st [cur] (length seen) →
  ∃ lvl' sq', tree_inv graph frm lvl' (scan_edges cur to es st) ∧
    order_tree graph frm lvl' sq' (scan_edges cur to es st) ∧
    ((front_inv graph to lvl' (scan_edges cur to es st) [] d ∧
      order_front graph sq' (scan_edges cur to es st) [] 0) ∨
     (q (scan_edges cur to es st) = [] ∧ found graph frm to lvl' (scan_edges cur to es st))).
Proof.
  induction es as [|[[nxt r] src] es IH]; intros seen st lvl sq Hout Ht Hf Hot Ho;
    simpl.
  - exists lvl, sq. split; [done|]. split; [done|]. left.
    split; [|by eapply order_front_scanned].
    apply (front_inv_scanned _ _ cur); [done|].
    intros e [i Hi]%list_elem_of_lookup.
    apply (of_scanned _ _ _ _ _ Ho cur i e); [set_solver| |done].
    apply lookup_lt_Some in Hi. by rewrite Hout app_nil_r in Hi.
  - assert (out_edges graph cur = (seen ++ [(nxt, r, src)]) ++ es) as Hout'
      by (by rewrite -assoc).
    assert (length (seen ++ [(nxt, r, src)]) = S (length seen)) as Hlen
      by (rewrite length_app /=; lia).
    assert (out_edges graph cur !! length seen = Some (nxt, r, src)) as Hk
      by (by rewrite Hout list_lookup_middle).
    assert (∀ e : edge, e ∈ seen → e.1.1 ∈ visited st) as Hseen.
    { intros e [i Hi]%list_elem_of_lookup.
      apply (of_scanned _ _ _ _ _ Ho cur i e); [set_solver|by eapply lookup_lt_Some|].
      rewrite Hout. by apply lookup_app_l_Some. }
    assert (cur ∈ visited st) as Hcur
      by (apply (fi_pending _ _ _ _ _ _ Hf); set_solver).
    destruct (decide (nxt ∈ visited st)) as [Hv|Hv].
    { apply (IH _ st lvl sq Hout' Ht Hf Hot). rewrite Hlen.
      by eapply order_front_skip. }
    assert (first_edge graph
              {| e_from := cur; e_to := nxt; e_factor := r; e_source := src |})
      as Hedge.
    { exists seen, es. split; [done|]. intros e He Heq. simpl in Heq.
      apply Hv. rewrite -Heq. by apply Hseen. }
    destruct (decide (nxt = to)) as [->|Hnt].
    { exists (lvl_discover lvl cur to), (sq_discover sq cur to (length seen)).
      split; [by apply (tree_inv_discover lvl st cur to r src [])|].
      split; [by eapply order_tree_discover|].
      right. split; [done|]. by apply (found_discover lvl st cur r src d []). }
    apply (IH _ (discover st cur nxt r src (q st ++ [nxt]))
             (lvl_discover lvl cur nxt) (sq_discover sq cur nxt (length seen)) Hout').
    + by apply tree_inv_discover.
    + by apply front_inv_discover.
    + by eapply order_tree_discover.
    + rewrite Hlen. by eapply order_front_discover.
Qed.
End search.

Lemma bfs_loop_done (graph : Graph) (to : string) (fuel : nat) (st : bfs_state) :
  q st = [] → bfs_loop fuel graph to st = Some st.
Proof. intros Hq. destruct fuel; simpl; by rewrite Hq. Qed.

Lemma fold_left_reverse {A B} (f : A → B → A) (l : list B) (a : A) :
  fold_left f (reverse l) a = fold_right (λ b acc, f acc b) a l.
Proof.
  induction l as [|b l IH]; [done|].
  by rewrite reverse_cons fold_left_app /= IH.
Qed.

Section search_outcome.
Context (graph : Graph) (frm to : string).
Implicit Types (lvl : string → nat) (st : bfs_state).

(** *** The outer loop *)

Lemma tree_inv_requeue lvl st q' :
  tree_inv graph frm lvl st →
  tree_inv graph frm lvl {| q := q'; prev := prev st; visited := visited st |}.
Proof. intros [? ? ? ? ?]. by constructor. Qed.

(** [cur = q.popleft()]: the node taken from the queue is at the depth of
    the frontier, or opens the next one. *)
Lemma front_inv_pop lvl st cur rest d :
  q st = cur :: rest → front_inv graph to lvl st [] d →
  ∃ d', front_inv graph to lvl
          {| q := rest; prev := prev st; visited := visited st |} [cur] d'.
Proof.
  intros Hq [(A & B & HAB & HA & HB) Hbusy Hpend Hbound Hclosed Hnot].
  rewrite Hq in HAB, Hpend, Hclosed. destruct A as [|a A]; simpl in HAB.
  - exists (S d). constructor; simpl; [| | done | | done | done].
    + exists rest, []. rewrite app_nil_r. split; [done|]. split.
      * intros x Hx. apply HB. rewrite -HAB. by right.
      * intros x Hx. by apply elem_of_nil in Hx.
    + intros x Hx. apply list_elem_of_singleton in Hx as ->.
      apply HB. rewrite -HAB. by left.
    + intros v Hv. specialize (Hbound v Hv). lia.
  - injection HAB as <- ->. exists d. constructor; simpl; try done.
    + exists A, B. split; [done|]. split; [|done].
      intros x Hx. apply HA. by right.
    + intros x Hx. apply list_elem_of_singleton in Hx as ->. apply HA. by left.
Qed.

Lemma bfs_loop_inv fuel : ∀ st st' lvl sq d k,
  tree_inv graph frm lvl st → front_inv graph to lvl st [] d →
  order_tree graph frm lvl sq st → order_front graph sq st [] k →
  bfs_loop fuel graph to st = Some st' →
  ∃ lvl' sq', tree_inv graph frm lvl' st' ∧ order_tree graph frm lvl' sq' st' ∧
    (found graph frm to lvl' st' ∨
     ((to ∉ visited st') ∧ (∀ v n, reach graph frm v n → v ∈ visited st'))).
Proof.
  assert (∀ st st' lvl sq d fuel,
    tree_inv graph frm lvl st → front_inv graph to lvl st [] d →
    order_tree graph frm lvl sq st → q st = [] →
    bfs_loop fuel graph to st = Some st' →
    ∃ lvl' sq', tree_inv graph frm lvl' st' ∧ order_tree graph frm lvl' sq' st' ∧
      (found graph frm to lvl' st' ∨
       ((to ∉ visited st') ∧ (∀ v n, reach graph frm v n → v ∈ visited st'))))
    as Hstop.
  { intros st st' lvl sq d fuel' Ht Hf Hot Hq Hloop.
    rewrite bfs_loop_done // in Hloop. injection Hloop as <-.
    exists lvl, sq. split; [done|]. split; [done|]. right. split; [apply Hf|].
    by eapply front_inv_exhausted. }
  induction fuel as [|fuel IH]; intros st st' lvl sq d k Ht Hf Hot Ho Hloop.
  - destruct (q st) as [|cur rest] eqn:Hq; [by eapply Hstop|].
    by rewrite /= Hq in Hloop.
  - destruct (q st) as [|cur rest] eqn:Hq; [by eapply Hstop|].
    rewrite /= Hq in Hloop.
    destruct (front_inv_pop _ _ _ _ _ Hq Hf) as [d' Hf'].
    destruct (scan_edges_inv graph frm to cur d' (out_edges graph cur) [] _ lvl sq
                eq_refl (tree_inv_requeue _ _ rest Ht) Hf'
                (order_tree_requeue graph frm _ _ _ rest Hot)
                (order_front_pop graph _ _ _ _ _ Hq Ho))
      as (lvl' & sq' & Ht' & Hot' & [[Hf'' Ho'']|[Hq' Hfound]]).
    + by eapply IH.
    + rewrite bfs_loop_done // in Hloop. injection Hloop as <-.
      exists lvl', sq'. split; [done|]. split; [done|]. by left.
Qed.

Lemma tree_inv_init : tree_inv graph frm (λ _, 0) (bfs_init frm).
Proof.
  constructor; simpl; [|done|done| |].
  - rewrite dom_empty_L. set_solver.
  - intros v p r s Hv. by rewrite lookup_empty in Hv.
  - intros. lia.
Qed.

Lemma front_inv_init :
  frm ≠ to → front_inv graph to (λ _, 0) (bfs_init frm) [] 0.
Proof.
  intros Hne. constructor; simpl.
  - exists [frm], []. split; [done|]. split; [done|].
    intros x Hx. by apply elem_of_nil in Hx.
  - done.
  - intros x Hx. set_solver.
  - intros. lia.
  - intros u w r s Hu Hnot. set_solver.
  - set_solver.
Qed.

Lemma order_tree_init : order_tree graph frm (λ _, 0) (λ _, []) (bfs_init frm).
Proof.
  constructor; simpl; [done|done| |].
  - intros v p r s Hv. by rewrite lookup_empty in Hv.
  - intros v pos route _ _ _ Hlen. destruct pos; [by left|done].
Qed.

Lemma order_front_init : order_front graph (λ _, []) (bfs_init frm) [] 0.
Proof.
  constructor; simpl.
  - intros v p r s Hv. by rewrite lookup_empty in Hv.
  - intros i [|j] x y Hi Hj Hij; [lia|done].
  - intros u x Hu Hnot. set_solver.
  - intros c i e Hc. by apply elem_of_nil in Hc.
Qed.

(** The search ends, and ends in one of two ways: [to] was found, at its
    least distance and along the first branch in insertion order, or no route
    leads to [to]. *)
Lemma bfs_order :
  frm ≠ to →
  ∃ st lvl sq, bfs graph frm to = Some st ∧ tree_inv graph frm lvl st ∧
    order_tree graph frm lvl sq st ∧
    (found graph frm to lvl st ∨
     (prev st !! to = None ∧ ∀ n, ¬ reach graph frm to n)).
Proof.
  intros Hne. destruct (bfs_terminates graph frm to) as [st Hst].
  destruct (bfs_loop_inv _ _ _ _ _ _ 0 tree_inv_init (front_inv_init Hne)
              order_tree_init order_front_init Hst)
    as (lvl & sq & Ht & Hot & [Hfound|[Hnot Hall]]).
  - exists st, lvl, sq. eauto.
  - exists st, lvl, sq. split; [done|]. split; [done|]. split; [done|]. right. split.
    + by eapply tree_inv_unseen.
    + intros n Hr. apply Hnot. by eapply Hall.
Qed.

(** The outcome of the search without the order of its branches. *)
Lemma bfs_spec :
  frm ≠ to →
  ∃ st lvl, bfs graph frm to = Some st ∧ tree_inv graph frm lvl st ∧
    (found graph frm to lvl st ∨
     (prev st !! to = None ∧ ∀ n, ¬ reach graph frm to n)).
Proof.
  intros Hne. destruct (bfs_order Hne) as (st & lvl & sq & Hbfs & Ht & _ & Hend).
  by exists st, lvl.
Qed.

(** *** The reconstruction *)

Lemma reconstruct_inv lvl st :
  tree_inv graph frm lvl st →
  ∀ fuel cur acc rate, cur ∈ visited st → lvl cur ≤ fuel →
  ∃ route, is_route graph frm cur route ∧ Forall (first_edge graph) route ∧
    length route = lvl cur ∧
    (∀ i x, (nodes_of frm route) !! i = Some x → lvl x = i) ∧
    Forall (tree_edge st) route ∧
    reconstruct fuel (prev st) frm cur acc rate =
      Some (Ok (fold_left PrimFloat.mul (reverse (factors_of route)) rate,
                acc ++ reverse (hops_of route))).
Proof.
  intros Ht.
  assert (∀ cur, cur ∈ visited st → cur ≠ frm →
    ∃ p r s, prev st !! cur = Some (p, r, s)) as Hprev.
  { intros cur Hcur Hne. rewrite (ti_visited _ _ _ _ Ht) in Hcur.
    assert (cur ∈ dom (prev st)) as [[[p r] s] Hp]%elem_of_dom by set_solver.
    eauto. }
  assert (∀ fuel acc rate,
    ∃ route, is_route graph frm frm route ∧ Forall (first_edge graph) route ∧
      length route = lvl frm ∧
      (∀ i x, (nodes_of frm route) !! i = Some x → lvl x = i) ∧
      Forall (tree_edge st) route ∧
      reconstruct fuel (prev st) frm frm acc rate =
        Some (Ok (fold_left PrimFloat.mul (reverse (factors_of route)) rate,
                  acc ++ reverse (hops_of route)))) as Hroot.
  { intros fuel acc rate. exists []. split; [done|]. split; [done|].
    split; [by rewrite (ti_lvl_frm _ _ _ _ Ht)|]. split; [|split; [done|]].
    - intros [|i] x; simpl; [|done]. intros [= <-]. apply Ht.
    - destruct fuel; simpl; rewrite decide_True // app_nil_r //. }
  induction fuel as [|fuel IH]; intros cur acc rate Hcur Hlvl.
  - destruct (decide (cur = frm)) as [->|Hne]; [apply Hroot|].
    destruct (Hprev cur Hcur Hne) as (p & r & s & Hp).
    destruct (ti_prev _ _ _ _ Ht _ _ _ _ Hp) as (_ & _ & Hl). lia.
  - destruct (decide (cur = frm)) as [->|Hne]; [apply Hroot|].
    destruct (Hprev cur Hcur Hne) as (p & r & s & Hp).
    destruct (ti_prev _ _ _ _ Ht _ _ _ _ Hp) as (Hedge & Hpv & Hl).
    destruct (IH p (acc ++ [(p, cur, s)]) (rate * r)%float Hpv ltac:(lia))
      as (route & Hroute & Hfirst & Hlen & Hnodes & Htree & Hrec).
    set (e := {| e_from := p; e_to := cur; e_factor := r; e_source := s |}) in *.
    exists (route ++ [e]).
    split; [by apply (is_route_snoc graph frm p route e), first_edge_has_edge|].
    split; [apply Forall_app; by repeat constructor|].
    split; [rewrite length_app /=; lia|]. split; [|split].
    + intros i x. rewrite /nodes_of fmap_app /= app_comm_cons.
      intros Hi. apply lookup_app_Some in Hi as [Hi|[Hge Hi]]; [by apply Hnodes|].
      simpl in *. rewrite length_fmap in Hge, Hi.
      apply list_lookup_singleton_Some in Hi as [Hi <-]. lia.
    + apply Forall_app. split; [done|]. by repeat constructor.
    + rewrite /= decide_False // Hp Hrec.
      rewrite /factors_of /hops_of !fmap_app /= !reverse_snoc /=.
      by rewrite -assoc.
Qed.

(** The branch of the tree that leads to [cur] is the route at the positions
    [sq cur]. *)
Lemma tree_route_follow lvl sq st route : ∀ cur,
  order_tree graph frm lvl sq st →
  is_route graph frm cur route → Forall (tree_edge st) route →
  follow graph frm (sq cur) = Some route.
Proof.
  induction route as [|e route IH] using rev_ind; intros cur Hot Hroute Htree.
  - simpl in Hroute. subst cur. by rewrite (ot_frm _ _ _ _ _ Hot).
  - apply is_route_snoc_inv in Hroute as (Hroute & Hedge & <-).
    apply Forall_app in Htree as [Htree He].
    apply Forall_cons in He as [He _]. unfold tree_edge in He.
    destruct (ot_prev _ _ _ _ _ Hot _ _ _ _ He) as (i & -> & Hi).
    rewrite (follow_snoc graph frm (sq (e_from e)) route (e_from e) (e_to e)
               (e_factor e) (e_source e) i); [by apply IH|done|done|].
    by destruct e.
Qed.
End search_outcome.

(** ** What [_find_rate] returns *)

Lemma _find_rate_identity (self : RateService.t) (graph : Graph) (frm : string)
    (now : datetime) :
  _find_rate self graph frm frm now =
    Ok (1%float, [], default now (RateService._last_sources_as_of self)).
Proof. unfold _find_rate. by rewrite decide_True. Qed.

(** For distinct codes [_find_rate] either returns the hops of a route of the
    graph with the least number of hops, that passes through no node twice
    and is the first one among the routes of that length, together with the
    product of its factors, or it raises the no-path error, and then no route
    exists. *)
Lemma _find_rate_order (self : RateService.t) (graph : Graph) (frm to : string)
    (now : datetime) :
  frm ≠ to →
  (∃ route, is_route graph frm to route ∧ Forall (first_edge graph) route ∧
     NoDup (nodes_of frm route) ∧
     (∀ n, reach graph frm to n → length route ≤ n) ∧
     first_in_order graph frm to route ∧
     _find_rate self graph frm to now =
       Ok (product_of (factors_of route), hops_of route,
           default now (RateService._last_sources_as_of self))) ∨
  ((∀ n, ¬ reach graph frm to n) ∧
   _find_rate self graph frm to now = Raise (RuntimeError (no_path_message frm to))).
Proof.
  intros Hne. unfold _find_rate. rewrite decide_False //.
  destruct (bfs_order graph frm to Hne)
    as (st & lvl & sq & -> & Ht & Hot & [[[x Hx] Hmin]|[-> Hno]]);
    [|by right].
  rewrite Hx. left.
  assert (to ∈ visited st) as Hto by (by eapply tree_inv_prev_visited).
  destruct (reconstruct_inv graph frm lvl st Ht (size (prev st)) to [] 1%float Hto
              (ti_size _ _ _ _ Ht to Hto))
    as (route & Hroute & Hfirst & Hlen & Hnodes & Htree & ->).
  exists route. split; [done|]. split; [done|]. split; [|split; [|split]].
  - apply NoDup_alt. intros i j y Hi Hj.
    by rewrite -(Hnodes i y Hi) -(Hnodes j y Hj).
  - intros n Hr. rewrite Hlen. by apply Hmin.
  - exists (sq to). split; [by eapply tree_route_follow|].
    intros opos other Hopos Hother Hsame.
    apply (ot_least _ _ _ _ _ Hot to opos other); [done|done|done|].
    by rewrite -(follow_length _ _ _ _ Hopos) Hsame.
  - by rewrite fold_left_reverse /= reverse_involutive.
Qed.

Lemma _find_rate_spec (self : RateService.t) (graph : Graph) (frm to : string)
    (now : datetime) :
  frm ≠ to →
  (∃ route, is_route graph frm to route ∧ Forall (first_edge graph) route ∧
     NoDup (nodes_of frm route) ∧
     (∀ n, reach graph frm to n → length route ≤ n) ∧
     _find_rate self graph frm to now =
       Ok (product_of (factors_of route), hops_of route,
           default now (RateService._last_sources_as_of self))) ∨
  ((∀ n, ¬ reach graph frm to n) ∧
   _find_rate self graph frm to now = Raise (RuntimeError (no_path_message frm to))).
Proof.
  intros Hne.
  destruct (_find_rate_order self graph frm to now Hne)
    as [(route & ? & ? & ? & ? & _ & ?)|?]; [left|by right].
  by exists route.
Qed.

(** The two [while] loops of [_find_rate] end, and the reconstruction never
    misses a predecessor. *)
Lemma _find_rate_terminates (self : RateService.t) (graph : Graph) (frm to : string)
    (now : datetime) :
  _find_rate self graph frm to now ≠ Raise OutOfFuel ∧
  ∀ k, _find_rate self graph frm to now ≠ Raise (KeyError k).
Proof.
  destruct (decide (frm = to)) as [->|Hne]; [by rewrite _find_rate_identity|].
  destruct (_find_rate_spec self graph frm to now Hne)
    as [(route & _ & _ & _ & _ & ->)|[_ ->]];
    done.
Qed.

(** ** The route does not depend on the rates *)

Lemma scan_edges_shape (cur to : string) (es1 : list edge) : ∀ es2 st1 st2,
  edge_shape <$> es1 = edge_shape <$> es2 → same_search st1 st2 →
  same_search (scan_edges cur to es1 st1) (scan_edges cur to es2 st2).
Proof.
  induction es1 as [|[[n1 r1] s1] es1 IH]; intros [|[[n2 r2] s2] es2] st1 st2 Hes;
    intros (Hq & Hv & Hp); simplify_eq/=; try done.
  rewrite Hv. destruct (decide (n2 ∈ visited st2)); [by apply IH|].
  destruct (decide (n2 = to)).
  - split; [done|]. split; [done|]. by rewrite /= !fmap_insert Hp.
  - apply IH; [done|]. split; [by rewrite /= Hq|]. split; [done|].
    by rewrite /= !fmap_insert Hp.
Qed.

Lemma out_edges_shape (g1 g2 : Graph) (cur : string) :
  shape g1 = shape g2 →
  edge_shape <$> out_edges g1 cur = edge_shape <$> out_edges g2 cur.
Proof.
  intros Hs. assert (shape g1 !! cur = shape g2 !! cur) as Hcur by (by rewrite Hs).
  rewrite /shape !lookup_fmap in Hcur. unfold out_edges.
  destruct (g1 !! cur), (g2 !! cur); by simplify_eq/=.
Qed.

Lemma bfs_loop_shape (g1 g2 : Graph) (to : string) (fuel : nat) : ∀ st1 st2,
  shape g1 = shape g2 → same_search st1 st2 →
  match bfs_loop fuel g1 to st1, bfs_loop fuel g2 to st2 with
  | Some st1', Some st2' => same_search st1' st2'
  | None, None => True
  | _, _ => False
  end.
Proof.
  induction fuel as [|fuel IH]; intros st1 st2 Hs Hsame;
    pose proof Hsame as (Hq & Hv & Hp); simpl; rewrite Hq;
    destruct (q st2) as [|cur rest]; try done.
  apply IH; [done|]. apply scan_edges_shape; [by apply out_edges_shape|].
  by repeat split.
Qed.

Lemma elem_of_graph_targets (graph : Graph) (w : string) :
  w ∈ graph_targets graph ↔ ∃ u r s, (w, r, s) ∈ out_edges graph u.
Proof.
  split; [|intros (u & r & s & Hin); by eapply out_edges_target].
  unfold graph_targets. intros (X & HX & Hw)%elem_of_union_list.
  apply list_elem_of_fmap in HX as ([u es] & -> & Hu%elem_of_map_to_list).
  apply elem_of_list_to_set, list_elem_of_fmap in Hw as ([[w' r] s] & -> & He).
  exists u, r, s. by rewrite /out_edges Hu.
Qed.

Lemma graph_targets_shape (g1 g2 : Graph) :
  shape g1 = shape g2 → graph_targets g1 = graph_targets g2.
Proof.
  assert (∀ g g' : Graph, shape g = shape g' → graph_targets g ⊆ graph_targets g')
    as Hsub.
  { intros g g' Hs w (u & r & s & Hin)%elem_of_graph_targets.
    apply (list_elem_of_fmap_2 edge_shape) in Hin.
    rewrite (out_edges_shape g g' u Hs) in Hin.
    apply list_elem_of_fmap in Hin as ([[w' r'] s'] & [= -> ->] & Hin).
    apply elem_of_graph_targets. eauto. }
  intros Hs. apply (anti_symm (⊆)); by apply Hsub.
Qed.

Lemma reconstruct_shape (prev1 prev2 : gmap string (string * float * string))
    (frm : string) (fuel : nat) : ∀ cur acc r1 r2,
  edge_shape <$> prev1 = edge_shape <$> prev2 →
  match reconstruct fuel prev1 frm cur acc r1, reconstruct fuel prev2 frm cur acc r2 with
  | Some (Ok (_, p1)), Some (Ok (_, p2)) => p1 = p2
  | Some (Raise e1), Some (Raise e2) => e1 = e2
  | None, None => True
  | _, _ => False
  end.
Proof.
  induction fuel as [|fuel IH]; intros cur acc r1 r2 Hp; simpl;
    destruct (decide (cur = frm)); try done.
  assert (edge_shape <$> prev1 !! cur = edge_shape <$> prev2 !! cur) as Hcur
    by (by rewrite -!lookup_fmap Hp).
  destruct (prev1 !! cur) as [[[p1 x1] s1]|], (prev2 !! cur) as [[[p2 x2] s2]|];
    simplify_eq/=; [|done].
  by apply IH.
Qed.

(** Two graphs that differ in their rates only are resolved along the same
    hops, whatever the rates are. *)
Lemma _find_rate_shape (self1 self2 : RateService.t) (g1 g2 : Graph) (frm to : string)
    (now1 now2 : datetime) :
  shape g1 = shape g2 →
  same_hops (_find_rate self1 g1 frm to now1) (_find_rate self2 g2 frm to now2).
Proof.
  intros Hs. unfold _find_rate. destruct (decide (frm = to)); [done|].
  unfold bfs. rewrite (graph_targets_shape g1 g2 Hs).
  pose proof (bfs_loop_shape g1 g2 to (S (size (graph_targets g2)))
                (bfs_init frm) (bfs_init frm) Hs ltac:(done)) as Hloop.
  destruct (bfs_loop _ g1 _ _) as [st1|], (bfs_loop _ g2 _ _) as [st2|]; try done.
  destruct Hloop as (_ & _ & Hp).
  assert (edge_shape <$> prev st1 !! to = edge_shape <$> prev st2 !! to) as Hto
    by (by rewrite -!lookup_fmap Hp).
  assert (size (prev st1) = size (prev st2)) as ->
    by (by rewrite -(map_size_fmap edge_shape (prev st1)) Hp map_size_fmap).
  destruct (prev st1 !! to), (prev st2 !! to); simplify_eq/=; [|done].
  pose proof (reconstruct_shape (prev st1) (prev st2) frm (size (prev st2))
                to [] 1%float 1%float Hp) as Hrec.
  destruct (reconstruct _ (prev st1) _ _ _ _) as [[[? ?]|?]|],
           (reconstruct _ (prev st2) _ _ _ _) as [[[? ?]|?]|]; try done.
  simpl in *. by subst.
Qed.

(** ** The service: one call of [get_rate] *)

Lemma get_rate_fresh now net frm to w res :
  fresh_entry (RateService._cache (self w) !! cache_key (upper frm) (upper to)) now
    = Some res →
  get_rate now net frm to w = (Ok res, w).
Proof. intros Hfresh. by rewrite /get_rate /mbind /M_bind /get_self /= Hfresh. Qed.

Lemma get_rate_stale now net frm to w :
  fresh_entry (RateService._cache (self w) !! cache_key (upper frm) (upper to)) now
    = None →
  get_rate now net frm to w =
    refresh now net (upper frm) (upper to) (cache_key (upper frm) (upper to)) w.
Proof. intros Hfresh. by rewrite /get_rate /mbind /M_bind /get_self /= Hfresh. Qed.

Lemma refresh_runs now net frm to key w :
  refresh_run now net frm to key w
    (refresh now net frm to key w).1 (refresh now net frm to key w).2.
Proof.
  rewrite /refresh /_fetch_all /mbind /M_bind /await_fetch /get_self /set_self /lift /=.
  destruct (fetch_cbr net) as [cbr|e] eqn:Hcbr; simpl; [|by constructor].
  destruct (fetch_nbu net) as [nbu|e] eqn:Hnbu; simpl;
    [|rewrite -assoc; by econstructor].
  destruct (fetch_binance net) as [bnc|e] eqn:Hbnc; simpl;
    [|rewrite -!assoc; by econstructor].
  rewrite -!assoc /=.
  destruct (_build_graph cbr nbu bnc) as [graph|e] eqn:Hbuild; simpl;
    [|by eapply run_build_fails].
  destruct (_find_rate _ graph frm to now) as [[[rate path] as_of]|e] eqn:Hfind; simpl;
    [|by eapply run_find_fails].
  unfold datetime_add.
  destruct (decide (datetime_min ≤ now + RateService.ttl (self w) ≤ datetime_max)%Z);
    simpl.
  - by eapply run_stores.
  - by eapply run_overflows.
Qed.

Lemma refresh_inv now net frm to key w r w' :
  refresh now net frm to key w = (r, w') → refresh_run now net frm to key w r w'.
Proof.
  intros Heq. pose proof (refresh_runs now net frm to key w) as Hrun.
  by rewrite Heq in Hrun.
Qed.

Lemma refresh_Raise_cache now net frm to key w e w' :
  refresh now net frm to key w = (Raise e, w') →
  RateService._cache (self w') = RateService._cache (self w).
Proof. intros Hrun%refresh_inv. by inversion Hrun. Qed.

(** A call that raises leaves the cache as it was. *)
Lemma get_rate_Raise_cache now net frm to w e w' :
  get_rate now net frm to w = (Raise e, w') →
  RateService._cache (self w') = RateService._cache (self w).
Proof.
  destruct (fresh_entry (RateService._cache (self w) !! cache_key (upper frm) (upper to))
              now) as [res|] eqn:Hfresh.
  - by rewrite (get_rate_fresh _ _ _ _ _ res).
  - rewrite get_rate_stale //. apply refresh_Raise_cache.
Qed.

Lemma fresh_entry_Some cached now res :
  fresh_entry cached now = Some res ↔
  ∃ expiry, cached = Some (expiry, res) ∧ (now < expiry)%Z.
Proof.
  unfold fresh_entry. destruct cached as [[expiry res']|].
  - destruct (Z.ltb_spec now expiry); split.
    + intros [= ->]. eauto.
    + intros (? & [= <- <-] & _). done.
    + done.
    + intros (? & [= <- <-] & ?). lia.
  - split; [done|]. by intros (? & ? & _).
Qed.

Lemma latest_max cbr nbu bnc :
  let m := latest cbr nbu bnc in
  (CbrRates.as_of cbr ≤ m ∧ NbuRates.as_of nbu ≤ m ∧ BinanceRates.as_of bnc ≤ m)%Z ∧
  (m = CbrRates.as_of cbr ∨ m = NbuRates.as_of nbu ∨ m = BinanceRates.as_of bnc).
Proof. unfold latest. simpl. lia. Qed.

Lemma refresh_forget now net frm to key w :
  (refresh now net frm to key (forget key w)).1 = (refresh now net frm to key w).1 ∧
  fetched (refresh now net frm to key (forget key w)).2
    = fetched (refresh now net frm to key w).2.
Proof.
  rewrite /refresh /_fetch_all /mbind /M_bind /await_fetch /get_self /set_self /lift /=.
  destruct (fetch_cbr net) as [cbr|e]; simpl; [|done].
  destruct (fetch_nbu net) as [nbu|e]; simpl; [|done].
  destruct (fetch_binance net) as [bnc|e]; simpl; [|done].
  destruct (_build_graph cbr nbu bnc) as [graph|e]; simpl; [|done].
  assert (∀ c c',
    _find_rate (RateService.mk (RateService.ttl (self w)) c (Some (latest cbr nbu bnc)))
      graph frm to now =
    _find_rate (RateService.mk (RateService.ttl (self w)) c' (Some (latest cbr nbu bnc)))
      graph frm to now) as Hfind by done.
  rewrite (Hfind _ (RateService._cache (self w))).
  destruct (_find_rate _ graph frm to now) as [[[rate path] as_of]|e]; simpl; [|done].
  by destruct (datetime_add now (RateService.ttl (self w))).
Qed.

Lemma refresh_stores now net frm to key w cbr nbu bnc graph rate path as_of :
  fetch_cbr net = Ok cbr → fetch_nbu net = Ok nbu → fetch_binance net = Ok bnc →
  _build_graph cbr nbu bnc = Ok graph →
  _find_rate (fetched_self (self w) cbr nbu bnc) graph frm to now
    = Ok (rate, path, as_of) →
  in_datetime_range (now + RateService.ttl (self w)) →
  refresh now net frm to key w =
    (Ok (RateResult.mk rate path as_of),
     {| self := stored_self (self w) key now (RateResult.mk rate path as_of)
                  (Some (latest cbr nbu bnc));
        fetched := fetched w ++ [CBR; NBU; Binance] |}).
Proof.
  intros Hcbr Hnbu Hbnc Hbuild Hfind Hrange.
  rewrite /refresh /_fetch_all /mbind /M_bind /await_fetch /get_self /set_self /lift /=.
  rewrite Hcbr Hnbu Hbnc /= Hbuild /=.
  unfold fetched_self in Hfind. rewrite Hfind /= /datetime_add decide_True //=.
  by rewrite -!assoc.
Qed.

(** The outcome of a refresh, read off the way it goes. *)
Lemma refresh_run_eq now net frm to key w r w' :
  refresh_run now net frm to key w r w' → refresh now net frm to key w = (r, w').
Proof.
  intros Hrun. pose proof (refresh_runs now net frm to key w) as Hruns.
  destruct (refresh now net frm to key w) as [r0 w0]. simpl in Hruns.
  inversion Hrun; inversion Hruns; subst; first [congruence|contradiction].
Qed.

(** The service of the scenarios is [RateService(600)]; a time to live that
    no [timedelta] can hold creates no service. *)
Lemma init_scenario_service :
  RateService.__init__ 600 = Ok Scenario.service ∧
  RateService.__init__ (10 ^ 15) = Raise OverflowError.
Proof. split; by vm_compute. Qed.

(** [RateService(ttl_seconds)] for a number of seconds a [timedelta] can
    hold: an empty cache and no snapshot instant. *)
Lemma init_service ttl_seconds :
  (-999999999 ≤ ttl_seconds `div` 86400 ≤ 999999999)%Z →
  RateService.__init__ ttl_seconds
    = Ok (RateService.mk (ttl_seconds * 1000000) ∅ None).
Proof.
  intros Hrange. by rewrite /RateService.__init__ /timedelta_seconds decide_True.
Qed.

Lemma refresh_fetches now net frm to key w :
  (∃ rest, fetched (refresh now net frm to key w).2 = fetched w ++ CBR :: rest) ∧
  (∀ cbr nbu bnc,
     fetch_cbr net = Ok cbr → fetch_nbu net = Ok nbu → fetch_binance net = Ok bnc →
     fetched (refresh now net frm to key w).2 = fetched w ++ [CBR; NBU; Binance]).
Proof.
  pose proof (refresh_runs now net frm to key w) as Hrun.
  destruct (refresh now net frm to key w) as [r w']. simpl in *.
  split.
  - inversion Hrun; subst; by eexists.
  - intros cbr nbu bnc Hcbr Hnbu Hbnc. inversion Hrun; subst; simpl; congruence.
Qed.

(** ** The graph the builder returns *)

Lemma has_edge_edges_of (graph : Graph) (e : RateEdge) :
  has_edge graph e ↔ e ∈ edges_of graph.
Proof.
  unfold has_edge, edges_of, out_edges. rewrite list_elem_of_bind. split.
  - intros Hin. destruct (graph !! e_from e) as [es|] eqn:Hes; simpl in Hin;
      [|by apply elem_of_nil in Hin].
    exists (e_from e, es). split; [|by apply elem_of_map_to_list].
    apply list_elem_of_fmap. eexists. split; [|done]. by destruct e.
  - intros ([u es] & Hin & Hu%elem_of_map_to_list).
    apply list_elem_of_fmap in Hin as ([[w r] s] & -> & Hin). simpl in *.
    by rewrite Hu.
Qed.

Lemma truediv_Ok x y : PrimFloat.eqb y 0%float = false → truediv x y = Ok (x / y)%float.
Proof. intros Hy. by rewrite /truediv Hy. Qed.

Lemma truediv_inv x y z :
  truediv x y = Ok z → PrimFloat.eqb y 0%float = false ∧ z = (x / y)%float.
Proof. unfold truediv. destruct (PrimFloat.eqb y 0%float); [done|]. by intros [= <-]. Qed.

Lemma _build_graph_Ok cbr nbu bnc :
  Forall (λ d, PrimFloat.eqb d 0%float = false) (divisors cbr nbu bnc) →
  _build_graph cbr nbu bnc = Ok (graph_of cbr nbu bnc).
Proof.
  unfold divisors. rewrite !Forall_cons.
  intros (H1 & H2 & H3 & H4 & H5 & H6 & H7 & H8 & _).
  unfold _build_graph, mbind, result_bind.
  by rewrite !truediv_Ok.
Qed.

Lemma _build_graph_inv cbr nbu bnc graph :
  _build_graph cbr nbu bnc = Ok graph →
  graph = graph_of cbr nbu bnc ∧
  Forall (λ d, PrimFloat.eqb d 0%float = false) (divisors cbr nbu bnc).
Proof.
  intros Hbuild.
  assert (Forall (λ d, PrimFloat.eqb d 0%float = false) (divisors cbr nbu bnc)) as Hdiv.
  { unfold divisors. unfold _build_graph, mbind, result_bind, truediv in Hbuild.
    repeat match type of Hbuild with
           | context [PrimFloat.eqb ?y 0%float] =>
               destruct (PrimFloat.eqb y 0%float) eqn:?; [done|]
           end.
    by repeat constructor. }
  split; [|done]. rewrite _build_graph_Ok // in Hbuild. by injection Hbuild.
Qed.

Lemma _build_graph_Raise cbr nbu bnc e :
  _build_graph cbr nbu bnc = Raise e → e = ZeroDivisionError.
Proof.
  intros Hbuild. unfold _build_graph, mbind, result_bind, truediv in Hbuild.
  repeat match type of Hbuild with
         | context [PrimFloat.eqb ?y 0%float] =>
             destruct (PrimFloat.eqb y 0%float) eqn:?; [by injection Hbuild|]
         end.
  done.
Qed.

(** A positive rate is no zero. *)
Lemma positive_rate_not_zero (d : float) :
  positive_rate d → PrimFloat.eqb d 0%float = false.
Proof.
  unfold positive_rate. rewrite FloatAxioms.ltb_spec FloatAxioms.eqb_spec.
  change (Prim2SF 0) with (S754_zero false).
  by destruct (Prim2SF d) as [[]|[]| |[] m e].
Qed.

Ltac edge_listed := apply has_edge_edges_of; vm_compute; solve [repeat constructor].

Ltac pick_reciprocal l :=
  lazymatch l with
  | ?x :: ?l' => first [ exists x; split; [edge_listed|reflexivity] | pick_reciprocal l' ]
  end.

Ltac fact_listed := vm_compute; solve [repeat constructor].

Ltac pick_fact l :=
  lazymatch l with
  | ?x :: ?l' => first [ exists x; split; [fact_listed|reflexivity] | pick_fact l' ]
  end.

(** ** Graphs without a route *)

Lemma append_empty_r (s : string) : s +:+ "" = s.
Proof. induction s as [|c s IH]; [done|]. rewrite -{2}IH. by unfold String.append. Qed.

(** A graph without a route reaches nothing. *)
Lemma no_route_not_reached graph frm to :
  frm ≠ to → (∀ route, ¬ is_route graph frm to route) → ¬ reached graph frm to.
Proof.
  intros Hne Hnone (st & Hbfs & [x Hx]).
  destruct (bfs_spec graph frm to Hne) as (st' & lvl & Hbfs' & Ht & _).
  rewrite Hbfs in Hbfs'. injection Hbfs' as <-.
  assert (to ∈ visited st) as Hto by (by eapply tree_inv_prev_visited).
  destruct (reconstruct_inv graph frm lvl st Ht (size (prev st)) to [] 1%float Hto
              (ti_size _ _ _ _ Ht to Hto)) as (route & Hroute & _).
  by eapply Hnone.
Qed.

(** ** Paths are simple chains *)

Lemma is_route_last graph route : ∀ frm to h,
  is_route graph frm to route → last (hops_of route) = Some h → hop_to h = to.
Proof.
  induction route as [|e route IH]; intros frm to h; simpl; [done|].
  intros (_ & _ & Hrest). destruct route as [|e' route].
  - simpl in *. by intros [= <-].
  - intros Hlast. by apply (IH (e_to e) to h).
Qed.

Lemma is_route_linked graph route : ∀ frm to i h h',
  is_route graph frm to route →
  hops_of route !! i = Some h → hops_of route !! S i = Some h' →
  hop_to h = hop_from h'.
Proof.
  induction route as [|e route IH]; intros frm to i h h'; simpl; [done|].
  intros (_ & _ & Hrest). destruct i as [|i]; simpl.
  - intros [= <-]. destruct route as [|e' route]; simpl; [done|].
    intros [= <-]. simpl in Hrest. by destruct Hrest as [-> _].
  - intros Hi HSi. by apply (IH (e_to e) to i h h').
Qed.

Lemma is_route_simple_chain graph frm to route :
  is_route graph frm to route → NoDup (nodes_of frm route) →
  simple_chain frm to (hops_of route).
Proof.
  intros Hroute Hnodup. split; [|split; [|split; [|split]]].
  - destruct route as [|e route]; simpl; [done|].
    intros h [= <-]. by destruct Hroute as [-> _].
  - intros h. by apply (is_route_last graph route frm).
  - intros i h h'. by apply (is_route_linked graph route frm to).
  - by rewrite /hops_of -list_fmap_compose.
  - by destruct route.
Qed.

(** Every path that [_find_rate] returns is a well-formed simple chain. *)
Lemma find_rate_simple_chain self graph frm to now rate path as_of :
  _find_rate self graph frm to now = Ok (rate, path, as_of) →
  simple_chain frm to path.
Proof.
  destruct (decide (frm = to)) as [->|Hne].
  - rewrite _find_rate_identity. intros [= _ <- _].
    repeat split; try done. apply NoDup_singleton.
  - destruct (_find_rate_spec self graph frm to now Hne)
      as [(route & Hroute & _ & Hnodup & _ & ->)|[_ ->]]; [|done].
    intros [= _ <- _]. by eapply is_route_simple_chain.
Qed.

(** ** Binary64 arithmetic: a rate times its reciprocal *)

(** The lemmas of this section unfold the specification of the primitive
    floats ([Prim2SF], [SFmul], [SFdiv] and the rounding of
    [binary_round_aux]): first for the normal doubles whose reciprocal is
    normal, then for every float. *)

Section binary64.
Local Open Scope Z_scope.

Lemma pow2_succ (d : Z) : 0 ≤ d → 2 ^ (d + 1) = 2 * 2 ^ d.
Proof. intros Hd. by rewrite Z.pow_add_r // Z.mul_comm. Qed.

Lemma digits2_pos_bounds (p : positive) :
  2 ^ (Z.pos (digits2_pos p) - 1) ≤ Z.pos p < 2 ^ Z.pos (digits2_pos p).
Proof.
  induction p as [p IH|p IH|]; simpl digits2_pos; [| |done].
  - rewrite Pos2Z.inj_succ Pos2Z.inj_xI.
    replace (Z.succ (Z.pos (digits2_pos p)) - 1) with (Z.pos (digits2_pos p) - 1 + 1)
      by lia.
    replace (Z.succ (Z.pos (digits2_pos p))) with (Z.pos (digits2_pos p) + 1) by lia.
    rewrite !pow2_succ; lia.
  - rewrite Pos2Z.inj_succ Pos2Z.inj_xO.
    replace (Z.succ (Z.pos (digits2_pos p)) - 1) with (Z.pos (digits2_pos p) - 1 + 1)
      by lia.
    replace (Z.succ (Z.pos (digits2_pos p))) with (Z.pos (digits2_pos p) + 1) by lia.
    rewrite !pow2_succ; lia.
Qed.

Lemma digits2_pos_unique (p : positive) (d : Z) :
  2 ^ (d - 1) ≤ Z.pos p < 2 ^ d → Z.pos (digits2_pos p) = d.
Proof.
  intros [Hlo Hhi]. pose proof (digits2_pos_bounds p) as [Hlo' Hhi'].
  assert (0 < d).
  { destruct (Z.ltb_spec 0 d) as [|Hd]; [done|].
    destruct (Z.eq_dec d 0) as [->|]; [simpl in Hhi; lia|].
    rewrite Z.pow_neg_r in Hhi; lia. }
  assert (d - 1 < Z.pos (digits2_pos p)) by (apply (Z.pow_lt_mono_r_iff 2); lia).
  assert (Z.pos (digits2_pos p) - 1 < d) by (apply (Z.pow_lt_mono_r_iff 2); lia).
  lia.
Qed.

Lemma shr_1_m (mrs : shr_record) :
  0 ≤ shr_m mrs → shr_m (shr_1 mrs) = shr_m mrs / 2.
Proof.
  destruct mrs as [[|[p|p|]|p] r s]; simpl; try done; intros _.
  - rewrite Pos2Z.inj_xI. apply (Z.div_unique _ 2 _ 1); lia.
  - rewrite Pos2Z.inj_xO. apply (Z.div_unique _ 2 _ 0); lia.
Qed.

Lemma div_pow2_twice (a n k : Z) :
  0 ≤ n → 0 ≤ k → a / 2 ^ n / 2 ^ k = a / 2 ^ (n + k).
Proof.
  intros Hn Hk. rewrite Z.pow_add_r //.
  apply Z.div_div; [|apply Z.pow_pos_nonneg]; lia.
Qed.

Lemma iter_shr_m (p : positive) : ∀ mrs,
  0 ≤ shr_m mrs → shr_m (SpecFloat.iter_pos shr_1 p mrs) = shr_m mrs / 2 ^ Z.pos p.
Proof.
  assert (∀ a n, 0 ≤ a → 0 ≤ n → 0 ≤ a / 2 ^ n) as Hpos
    by (intros; apply Z.div_pos; lia).
  induction p as [p IH|p IH|]; intros mrs Hm; simpl SpecFloat.iter_pos.
  - pose proof (shr_1_m mrs Hm) as H1.
    assert (0 ≤ shr_m (shr_1 mrs)) as Hm1 by (rewrite H1; apply (Hpos _ 1); lia).
    pose proof (IH _ Hm1) as H2.
    assert (0 ≤ shr_m (SpecFloat.iter_pos shr_1 p (shr_1 mrs))) as Hm2
      by (rewrite H2; apply Hpos; lia).
    rewrite (IH _ Hm2) H2 H1.
    change (shr_m mrs / 2) with (shr_m mrs / 2 ^ 1).
    rewrite !div_pow2_twice; try lia. f_equal. f_equal. lia.
  - pose proof (IH _ Hm) as H2.
    assert (0 ≤ shr_m (SpecFloat.iter_pos shr_1 p mrs)) as Hm2
      by (rewrite H2; apply Hpos; lia).
    rewrite (IH _ Hm2) H2 div_pow2_twice; try lia. f_equal. f_equal. lia.
  - by rewrite shr_1_m.
Qed.

Lemma iter_shr_exact (p : positive) : ∀ m,
  SpecFloat.iter_pos shr_1 p {| shr_m := Z.pos (Pos.iter xO m p); shr_r := false; shr_s := false |}
  = {| shr_m := Z.pos m; shr_r := false; shr_s := false |}.
Proof.
  induction p as [p IH|p IH|]; intros m; simpl; [|by rewrite !IH|done].
  by rewrite !IH.
Qed.

Lemma shr_record_of_loc_m (m : Z) (l : location) : shr_m (shr_record_of_loc m l) = m.
Proof. by destruct l as [|[]]. Qed.

Lemma round_nearest_even_cases (m : Z) (l : location) :
  round_nearest_even m l = m ∨ round_nearest_even m l = m + 1.
Proof. destruct l as [|[]]; simpl; auto. destruct (Z.even m); auto. Qed.

(** The first shift of [binary_round_aux] on a mantissa of [d >= 53] digits
    whose result stays in the normal range: [d - 53] digits are dropped. *)
Lemma shr_fexp_normal (m e : Z) (l : location) (d : Z) :
  0 ≤ m → Zdigits2 m = d → 53 ≤ d → -1074 ≤ e + (d - 53) →
  ∃ mrs, shr_fexp prec emax m e l = (mrs, e + (d - 53)) ∧
         shr_m mrs = m / 2 ^ (d - 53).
Proof.
  intros Hm Hd Hd53 He. unfold shr_fexp. rewrite Hd.
  replace (fexp prec emax (d + e) - e) with (d - 53)
    by (unfold fexp, emin, prec, emax; lia).
  destruct (d - 53) as [|n|n] eqn:Hn; simpl shr; [| |lia].
  - exists (shr_record_of_loc m l).
    by rewrite Z.add_0_r shr_record_of_loc_m Z.div_1_r.
  - eexists. split; [done|].
    by rewrite iter_shr_m shr_record_of_loc_m.
Qed.

(** The second shift and the final test of [binary_round_aux], on a rounded
    mantissa of 53 digits, or on [2 ^ 53] after a carry. *)
Lemma round_finish (s : bool) (v e : Z) :
  2 ^ 52 ≤ v ≤ 2 ^ 53 → -1074 ≤ e → e + 1 ≤ 971 →
  (let '(mrs, e') := shr_fexp prec emax v e loc_Exact in
   match shr_m mrs with
   | Z0 => S754_zero s
   | Zpos m => if Z.leb e' (emax - prec) then S754_finite s m e' else S754_infinity s
   | Zneg _ => S754_nan
   end)
  = if decide (v = 2 ^ 53) then S754_finite s two52 (e + 1)
    else S754_finite s (Z.to_pos v) e.
Proof.
  intros Hv He He'. case_decide as Hcarry.
  - subst v.
    destruct (shr_fexp_normal (2 ^ 53) e loc_Exact 54) as (mrs & Heq & Hm);
      try done; [lia|].
    rewrite Heq Hm. change (2 ^ 53 / 2 ^ (54 - 53)) with (Z.pos two52).
    replace (e + (54 - 53)) with (e + 1) by lia.
    by destruct (Z.leb_spec (e + 1) (emax - prec)); [|unfold emax, prec in *; lia].
  - destruct v as [|pv|pv]; try lia.
    destruct (shr_fexp_normal (Z.pos pv) e loc_Exact 53) as (mrs & Heq & Hm);
      try done; [apply digits2_pos_unique; lia|lia|].
    rewrite Heq Hm Z.div_1_r Z.add_0_r /=.
    by destruct (Z.leb_spec e (emax - prec)); [|unfold emax, prec in *; lia].
Qed.

(** [binary_round_aux] on a positive mantissa of [d >= 53] digits, away from
    overflow and underflow: the mantissa loses [d - 53] digits and is then
    kept or incremented; [2 ^ 53] is renormalised. *)
Lemma binary_round_aux_normal (s : bool) (m e : Z) (l : location) (d : Z) :
  0 < m → Zdigits2 m = d → 53 ≤ d → -1074 ≤ e + (d - 53) → e + (d - 53) + 1 ≤ 971 →
  ∃ v, (v = m / 2 ^ (d - 53) ∨ v = m / 2 ^ (d - 53) + 1) ∧
    binary_round_aux prec emax s m e l =
      if decide (v = 2 ^ 53) then S754_finite s two52 (e + (d - 53) + 1)
      else S754_finite s (Z.to_pos v) (e + (d - 53)).
Proof.
  intros Hm Hd Hd53 Hlo Hhi. unfold binary_round_aux.
  destruct (shr_fexp_normal m e l d) as (mrs & Heq & Hmrs); try done; [lia|].
  rewrite Heq.
  pose proof (round_nearest_even_cases (shr_m mrs) (loc_of_shr_record mrs)) as Hv.
  exists (round_nearest_even (shr_m mrs) (loc_of_shr_record mrs)).
  split; [by rewrite -Hmrs|].
  apply round_finish; try lia.
  destruct m as [|pm|pm]; try lia.
  pose proof (digits2_pos_bounds pm) as [Hlo' Hhi']. simpl in Hd. rewrite Hd in Hlo', Hhi'.
  assert (0 < 2 ^ (d - 53)) as Hpow by (apply Z.pow_pos_nonneg; lia).
  assert (2 ^ (d - 1) = 2 ^ 52 * 2 ^ (d - 53)) as Hd1
    by (rewrite -Z.pow_add_r; [lia|lia|f_equal; lia]).
  assert (2 ^ d = 2 ^ 53 * 2 ^ (d - 53)) as Hd2
    by (rewrite -Z.pow_add_r; [lia|lia|f_equal; lia]).
  assert (2 ^ 52 ≤ Z.pos pm / 2 ^ (d - 53)) as Hq1
    by (apply Z.div_le_lower_bound; lia).
  assert (Z.pos pm / 2 ^ (d - 53) < 2 ^ 53) as Hq2
    by (apply Z.div_lt_upper_bound; lia).
  rewrite -Hmrs in Hq1, Hq2. destruct Hv as [-> | ->]; lia.
Qed.

Lemma valid_finite (s : bool) (m : positive) (e : Z) :
  valid_binary (S754_finite s m e) = true →
  fexp prec emax (Z.pos (digits2_pos m) + e) = e ∧ e ≤ 971.
Proof.
  simpl. unfold bounded, canonical_mantissa.
  intros [H1 H2]%andb_prop. apply Z.eqb_eq in H1. apply Z.leb_le in H2.
  split; [done|]. unfold emax, prec in H2. lia.
Qed.

Lemma digits2_pos_iter_xO (m p : positive) :
  Z.pos (digits2_pos (Pos.iter xO m p)) = Z.pos (digits2_pos m) + Z.pos p.
Proof.
  induction p as [|p IH] using Pos.peano_ind.
  - simpl. lia.
  - rewrite Pos.iter_succ /= Pos2Z.inj_succ IH. lia.
Qed.

(** Multiplying by [1.0] changes nothing, whatever the float is. *)
Lemma float_mul_1_l (x : float) : (1 * x)%float = x.
Proof.
  apply Prim2SF_inj. rewrite mul_spec.
  replace (Prim2SF 1) with (S754_finite false two52 (-52)) by (by vm_compute).
  pose proof (Prim2SF_valid x) as Hvalid.
  destruct (Prim2SF x) as [s|s| |s m e]; try done.
  apply valid_finite in Hvalid as [Hcanon He].
  unfold SF64mul, SFmul, binary_round_aux.
  assert (shr_fexp prec emax (Z.pos (two52 * m)) (-52 + e) loc_Exact
          = ({| shr_m := Z.pos m; shr_r := false; shr_s := false |}, e)) as ->.
  { unfold shr_fexp. change (two52 * m)%positive with (Pos.iter xO m 52).
    unfold Zdigits2. rewrite digits2_pos_iter_xO.
    replace (Z.pos (digits2_pos m) + 52 + (-52 + e)) with (Z.pos (digits2_pos m) + e)
      by lia.
    rewrite Hcanon. replace (e - (-52 + e)) with 52 by lia.
    unfold shr, shr_record_of_loc. rewrite (iter_shr_exact 52 m). f_equal. lia. }
  simpl round_nearest_even. unfold shr_fexp. simpl Zdigits2.
  rewrite Hcanon Z.sub_diag /=.
  by destruct (Z.leb_spec e (emax - prec)); [|unfold emax, prec in *; lia].
Qed.

Lemma normal_rate_inv (x : float) :
  normal_rate x = true →
  ∃ m e, Prim2SF x = S754_finite false m e ∧
         2 ^ 52 ≤ Z.pos m < 2 ^ 53 ∧ -1074 ≤ e ≤ 969.
Proof.
  unfold normal_rate. pose proof (Prim2SF_valid x) as Hvalid.
  destruct (Prim2SF x) as [s|s| |[|] m e]; try done.
  intros [Hm He]%andb_prop. apply Z.leb_le in Hm, He.
  apply valid_finite in Hvalid as [Hcanon _].
  unfold fexp, emin, prec, emax in Hcanon.
  pose proof (digits2_pos_bounds m) as [_ Hhi].
  assert (2 ^ Z.pos (digits2_pos m) ≤ 2 ^ 53) by (apply Z.pow_le_mono_r; lia).
  exists m, e. split; [done|]. lia.
Qed.

Lemma div_eucl_pair (a b : Z) : Z.div_eucl a b = (a / b, a mod b).
Proof. unfold Z.div, Z.modulo. by destruct (Z.div_eucl a b). Qed.

Lemma SFdiv_one (m : positive) (e : Z) :
  2 ^ 52 ≤ Z.pos m < 2 ^ 53 → -1074 ≤ e ≤ 969 →
  SFdiv prec emax (S754_finite false two52 (-52)) (S754_finite false m e) =
    binary_round_aux prec emax false (2 ^ 105 / Z.pos m) (-105 - e)
      (new_location (Z.pos m) (2 ^ 105 mod Z.pos m)).
Proof.
  intros Hm He. unfold SFdiv, SFdiv_core_binary.
  change (Zdigits2 (Z.pos two52)) with 53.
  replace (Zdigits2 (Z.pos m)) with 53
    by (symmetry; apply digits2_pos_unique; lia).
  replace (Z.min (fexp prec emax (53 + -52 - (53 + e))) (-52 - e)) with (-105 - e)
    by (unfold fexp, emin, prec, emax; lia).
  replace (-52 - e - (-105 - e)) with 53 by lia.
  change (Z.shiftl (Z.pos two52) 53) with (2 ^ 105).
  by rewrite div_eucl_pair.
Qed.

(** The reciprocal of a normal rate [m * 2 ^ e]: its mantissa is the quotient
    [2 ^ 105 / m] or the next integer, at the exponent [-105 - e]; at a power
    of two the exponent is [-104 - e]. *)
Lemma recip_SF (x : float) (m : positive) (e : Z) :
  Prim2SF x = S754_finite false m e →
  2 ^ 52 ≤ Z.pos m < 2 ^ 53 → -1074 ≤ e ≤ 969 →
  ∃ my ey, Prim2SF (1 / x) = S754_finite false my ey ∧
    ((ey = -105 - e ∧ Z.pos my < 2 ^ 53 ∧
      (Z.pos my = 2 ^ 105 / Z.pos m ∨ Z.pos my = 2 ^ 105 / Z.pos m + 1)) ∨
     (ey = -104 - e ∧ Z.pos m = 2 ^ 52 ∧
      (Z.pos my = 2 ^ 52 ∨ Z.pos my = 2 ^ 52 + 1))).
Proof.
  intros Hx Hm He. rewrite div_spec Hx.
  replace (Prim2SF 1) with (S754_finite false two52 (-52)) by (by vm_compute).
  unfold SF64div. rewrite SFdiv_one //.
  set (q := 2 ^ 105 / Z.pos m).
  assert (2 ^ 52 ≤ q ≤ 2 ^ 53) as Hq.
  { split; [apply Z.div_le_lower_bound|apply Z.div_le_upper_bound]; lia. }
  assert (Z.pos m * q ≤ 2 ^ 105) as Hmq by (apply Z.mul_div_le; lia).
  destruct (decide (q = 2 ^ 53)) as [Hq53|Hq53].
  - assert (Z.pos m = 2 ^ 52) as Hm52 by (rewrite Hq53 in Hmq; lia).
    destruct (binary_round_aux_normal false q (-105 - e)
                (new_location (Z.pos m) (2 ^ 105 mod Z.pos m)) 54)
      as (v & Hv & ->); try lia; [by rewrite Hq53|].
    rewrite Hq53 in Hv. change (2 ^ 53 / 2 ^ (54 - 53)) with (2 ^ 52) in Hv.
    rewrite decide_False; [lia|].
    exists (Z.to_pos v), (-105 - e + (54 - 53)). split; [done|]. right.
    rewrite Z2Pos.id; lia.
  - destruct (binary_round_aux_normal false q (-105 - e)
                (new_location (Z.pos m) (2 ^ 105 mod Z.pos m)) 53)
      as (v & Hv & ->); try lia.
    { destruct q as [|pq|pq]; try lia. apply digits2_pos_unique. lia. }
    rewrite Z.sub_diag Z.div_1_r in Hv. case_decide as Hcarry.
    + exists two52, (-105 - e + 0 + 1). split; [done|]. right.
      split; [lia|]. split; [|by left]. lia.
    + exists (Z.to_pos v), (-105 - e + 0). split; [done|]. left.
      rewrite Z2Pos.id; lia.
Qed.

Lemma roundtrip_SF (x : float) (m : positive) (e : Z) :
  Prim2SF x = S754_finite false m e →
  2 ^ 52 ≤ Z.pos m < 2 ^ 53 → -1074 ≤ e ≤ 969 →
  Prim2SF (x * (1 / x)) ∈ Prim2SF <$> near_one.
Proof.
  intros Hx Hm He.
  destruct (recip_SF x m e Hx Hm He) as (my & ey & Hy & Hcases).
  rewrite mul_spec Hx Hy. unfold SF64mul, SFmul. simpl xorb.
  destruct Hcases as [(-> & Hmy & Hq)|(-> & Hm52 & Hmy)].
  - replace (e + (-105 - e)) with (-105) by lia.
    rewrite Pos2Z.inj_mul.
    assert (Z.pos m * (2 ^ 105 / Z.pos m) ≤ 2 ^ 105) as Hlo
      by (apply Z.mul_div_le; lia).
    assert (2 ^ 105 < Z.pos m * Z.succ (2 ^ 105 / Z.pos m)) as Hhi
      by (apply Z.mul_succ_div_gt; lia).
    rewrite Z.mul_succ_r in Hhi.
    set (M := Z.pos m * Z.pos my).
    assert (2 ^ 105 - 2 ^ 53 < M < 2 ^ 105 + 2 ^ 53) as HM.
    { unfold M. destruct Hq as [-> | ->]; [lia|]. rewrite Z.mul_add_distr_l. lia. }
    assert (0 < M) as HMpos by lia.
    destruct (Z.ltb_spec M (2 ^ 105)) as [Hsmall|Hlarge].
    + destruct (binary_round_aux_normal false M (-105) loc_Exact 105)
        as (v & Hv & ->); try lia.
      { destruct M as [|pM|pM]; try lia. apply digits2_pos_unique. lia. }
      assert (2 ^ 53 - 2 ≤ M / 2 ^ (105 - 53)) by (apply Z.div_le_lower_bound; lia).
      assert (M / 2 ^ (105 - 53) < 2 ^ 53) by (apply Z.div_lt_upper_bound; lia).
      case_decide as Hcarry; [set_solver|].
      assert (v = 2 ^ 53 - 2 ∨ v = 2 ^ 53 - 1) as [-> | ->] by lia; set_solver.
    + destruct (binary_round_aux_normal false M (-105) loc_Exact 106)
        as (v & Hv & ->); try lia.
      { destruct M as [|pM|pM]; try lia. apply digits2_pos_unique. lia. }
      assert (2 ^ 52 ≤ M / 2 ^ (106 - 53)) by (apply Z.div_le_lower_bound; lia).
      assert (M / 2 ^ (106 - 53) < 2 ^ 52 + 1) by (apply Z.div_lt_upper_bound; lia).
      rewrite decide_False; [lia|].
      assert (v = 2 ^ 52 ∨ v = 2 ^ 52 + 1) as [-> | ->] by lia; set_solver.
  - replace (e + (-104 - e)) with (-104) by lia.
    assert (m = two52) as -> by (apply Pos2Z.inj; by rewrite Hm52).
    destruct Hmy as [Hmy|Hmy].
    + assert (my = two52) as -> by (apply Pos2Z.inj; by rewrite Hmy).
      vm_compute. set_solver.
    + assert (my = (two52 + 1)%positive) as -> by (apply Pos2Z.inj; by rewrite Hmy).
      vm_compute. set_solver.
Qed.

Lemma float_mul_comm (x y : float) : (x * y)%float = (y * x)%float.
Proof.
  apply Prim2SF_inj. rewrite !mul_spec. unfold SF64mul, SFmul.
  destruct (Prim2SF x) as [sx|sx| |sx mx ex], (Prim2SF y) as [sy|sy| |sy my ey];
    try done; rewrite (xorb_comm sx sy) //.
  by rewrite Pos.mul_comm Z.add_comm.
Qed.

(** A normal rate times its reciprocal is [1.0] up to one bit. *)
Lemma roundtrip_near_one (x : float) :
  normal_rate x = true → (x * (1 / x))%float ∈ near_one.
Proof.
  intros (m & e & Hx & Hm & He)%normal_rate_inv.
  pose proof (roundtrip_SF x m e Hx Hm He) as Hin.
  apply list_elem_of_fmap in Hin as (c & Hc & Hin).
  by apply Prim2SF_inj in Hc as ->.
Qed.

(** *** Every float *)

Lemma digits2_pos_le (p : positive) (k : Z) :
  Z.pos p < 2 ^ k → Z.pos (digits2_pos p) ≤ k.
Proof.
  intros Hp. pose proof (digits2_pos_bounds p) as [Hlo _].
  assert (0 ≤ k).
  { destruct (Z.ltb_spec k 0) as [Hk|]; [|done]. rewrite Z.pow_neg_r in Hp; lia. }
  assert (Z.pos (digits2_pos p) - 1 < k) by (apply (Z.pow_lt_mono_r_iff 2); lia).
  lia.
Qed.

(** No digit is dropped when the exponent is already the least one the
    mantissa allows. *)
Lemma shr_fexp_none (m e : Z) (l : location) :
  fexp prec emax (Zdigits2 m + e) - e ≤ 0 →
  shr_fexp prec emax m e l = (shr_record_of_loc m l, e).
Proof.
  intros Hn. unfold shr_fexp.
  by destruct (fexp prec emax (Zdigits2 m + e) - e) as [|n|n]; simpl; try lia.
Qed.

(** The second shift and the final test of [binary_round_aux] with the test
    for overflow. *)
Lemma round_finish_big (s : bool) (v e : Z) :
  2 ^ 52 ≤ v ≤ 2 ^ 53 → -1074 ≤ e →
  (let '(mrs, e') := shr_fexp prec emax v e loc_Exact in
   match shr_m mrs with
   | Z0 => S754_zero s
   | Zpos m => if Z.leb e' (emax - prec) then S754_finite s m e' else S754_infinity s
   | Zneg _ => S754_nan
   end)
  = if decide (v = 2 ^ 53)
    then (if e + 1 <=? 971 then S754_finite s two52 (e + 1) else S754_infinity s)
    else (if e <=? 971 then S754_finite s (Z.to_pos v) e else S754_infinity s).
Proof.
  intros Hv He. change (emax - prec) with 971. case_decide as Hcarry.
  - subst v.
    destruct (shr_fexp_normal (2 ^ 53) e loc_Exact 54) as (mrs & Heq & Hm);
      try done; [lia|].
    rewrite Heq Hm. change (2 ^ 53 / 2 ^ (54 - 53)) with (Z.pos two52).
    by replace (e + (54 - 53)) with (e + 1) by lia.
  - destruct v as [|pv|pv]; try lia.
    destruct (shr_fexp_normal (Z.pos pv) e loc_Exact 53) as (mrs & Heq & Hm);
      try done; [apply digits2_pos_unique; lia|lia|].
    by rewrite Heq Hm Z.div_1_r Z.add_0_r /=.
Qed.

(** [binary_round_aux] on a positive mantissa of [d >= 53] digits, away from
    underflow: the result overflows when its exponent exceeds 971. *)
Lemma binary_round_aux_big (s : bool) (m e : Z) (l : location) (d : Z) :
  0 < m → Zdigits2 m = d → 53 ≤ d → -1074 ≤ e + (d - 53) →
  ∃ v, (v = m / 2 ^ (d - 53) ∨ v = m / 2 ^ (d - 53) + 1) ∧
    binary_round_aux prec emax s m e l =
      if decide (v = 2 ^ 53)
      then (if e + (d - 53) + 1 <=? 971
            then S754_finite s two52 (e + (d - 53) + 1) else S754_infinity s)
      else (if e + (d - 53) <=? 971
            then S754_finite s (Z.to_pos v) (e + (d - 53)) else S754_infinity s).
Proof.
  intros Hm Hd Hd53 Hlo. unfold binary_round_aux.
  destruct (shr_fexp_normal m e l d) as (mrs & Heq & Hmrs); try done; [lia|].
  rewrite Heq.
  pose proof (round_nearest_even_cases (shr_m mrs) (loc_of_shr_record mrs)) as Hv.
  exists (round_nearest_even (shr_m mrs) (loc_of_shr_record mrs)).
  split; [by rewrite -Hmrs|].
  apply round_finish_big; try lia.
  destruct m as [|pm|pm]; try lia.
  pose proof (digits2_pos_bounds pm) as [Hlo' Hhi']. simpl in Hd. rewrite Hd in Hlo', Hhi'.
  assert (0 < 2 ^ (d - 53)) as Hpow by (apply Z.pow_pos_nonneg; lia).
  assert (2 ^ (d - 1) = 2 ^ 52 * 2 ^ (d - 53)) as Hd1
    by (rewrite -Z.pow_add_r; [lia|lia|f_equal; lia]).
  assert (2 ^ d = 2 ^ 53 * 2 ^ (d - 53)) as Hd2
    by (rewrite -Z.pow_add_r; [lia|lia|f_equal; lia]).
  assert (2 ^ 52 ≤ Z.pos pm / 2 ^ (d - 53)) as Hq1
    by (apply Z.div_le_lower_bound; lia).
  assert (Z.pos pm / 2 ^ (d - 53) < 2 ^ 53) as Hq2
    by (apply Z.div_lt_upper_bound; lia).
  rewrite -Hmrs in Hq1, Hq2. destruct Hv as [-> | ->]; lia.
Qed.

(** [binary_round_aux] at the least exponent, on a mantissa of at most 53
    digits: a subnormal result, or the least normal one. *)
Lemma binary_round_aux_tiny (s : bool) (m : Z) (l : location) :
  0 < m ≤ 2 ^ 52 →
  ∃ v, (v = m ∨ v = m + 1) ∧
    binary_round_aux prec emax s m (-1074) l = S754_finite s (Z.to_pos v) (-1074).
Proof.
  intros Hm.
  assert (∀ v, 0 < v < 2 ^ 53 → fexp prec emax (Zdigits2 v + -1074) - -1074 ≤ 0)
    as Hshift.
  { intros [|pv|pv] Hv; try lia. simpl Zdigits2.
    pose proof (digits2_pos_le pv 53 ltac:(lia)). unfold fexp, emin, prec, emax. lia. }
  unfold binary_round_aux. rewrite shr_fexp_none; [apply Hshift; lia|].
  rewrite shr_record_of_loc_m.
  pose proof (round_nearest_even_cases m (loc_of_shr_record (shr_record_of_loc m l)))
    as Hv.
  destruct (round_nearest_even m (loc_of_shr_record (shr_record_of_loc m l)))
    as [|pv|pv]; try lia.
  exists (Z.pos pv). split; [done|].
  rewrite shr_fexp_none; [apply Hshift; lia|]. by rewrite shr_record_of_loc_m.
Qed.

Lemma SFdiv_one_small (s : bool) (m : positive) (e : Z) :
  Z.pos (digits2_pos m) + e ≤ 1022 →
  SFdiv prec emax (S754_finite false two52 (-52)) (S754_finite s m e) =
    binary_round_aux prec emax s (2 ^ (52 + Z.pos (digits2_pos m)) / Z.pos m)
      (-52 - Z.pos (digits2_pos m) - e)
      (new_location (Z.pos m) (2 ^ (52 + Z.pos (digits2_pos m)) mod Z.pos m)).
Proof.
  intros Hde. unfold SFdiv, SFdiv_core_binary. rewrite xorb_false_l.
  change (Zdigits2 (Z.pos two52)) with 53.
  change (Zdigits2 (Z.pos m)) with (Z.pos (digits2_pos m)).
  replace (Z.min (fexp prec emax (53 + -52 - (Z.pos (digits2_pos m) + e))) (-52 - e))
    with (-52 - Z.pos (digits2_pos m) - e)
    by (unfold fexp, emin, prec, emax; lia).
  replace (-52 - e - (-52 - Z.pos (digits2_pos m) - e)) with (Z.pos (digits2_pos m))
    by lia.
  cbv beta iota.
  rewrite Z.shiftl_mul_pow2; [lia|]. change (Z.pos two52) with (2 ^ 52).
  rewrite -Z.pow_add_r; [lia|lia|]. by rewrite div_eucl_pair.
Qed.

Lemma SFdiv_one_large (s : bool) (m : positive) (e : Z) :
  2 ^ 52 ≤ Z.pos m < 2 ^ 53 → 970 ≤ e ≤ 971 →
  SFdiv prec emax (S754_finite false two52 (-52)) (S754_finite s m e) =
    binary_round_aux prec emax s (2 ^ (1074 - e) / Z.pos m) (-1074)
      (new_location (Z.pos m) (2 ^ (1074 - e) mod Z.pos m)).
Proof.
  intros Hm He. unfold SFdiv, SFdiv_core_binary. rewrite xorb_false_l.
  change (Zdigits2 (Z.pos two52)) with 53.
  replace (Zdigits2 (Z.pos m)) with 53
    by (symmetry; apply digits2_pos_unique; lia).
  replace (Z.min (fexp prec emax (53 + -52 - (53 + e))) (-52 - e)) with (-1074)
    by (unfold fexp, emin, prec, emax; lia).
  assert (e = 970 ∨ e = 971) as [-> | ->] by lia.
  - change (-52 - 970 - -1074) with 52. cbv beta iota.
    change (Z.shiftl (Z.pos two52) 52) with (2 ^ (1074 - 970)).
    by rewrite div_eucl_pair.
  - change (-52 - 971 - -1074) with 51. cbv beta iota.
    change (Z.shiftl (Z.pos two52) 51) with (2 ^ (1074 - 971)).
    by rewrite div_eucl_pair.
Qed.

(** The reciprocal of a finite float [±m * 2 ^ e] that is no zero. It
    overflows to an infinity exactly for the subnormal floats up to
    [2 ^ -1024]; otherwise it is a finite float [±my * 2 ^ ey] of the same
    sign, and [m * my * 2 ^ (e + ey)] is within [2 ^ -50] of one. *)
Lemma recip_SF_gen (x : float) (s : bool) (m : positive) (e : Z) :
  Prim2SF x = S754_finite s m e →
  (Prim2SF (1 / x) = S754_infinity s ∧ e = -1074 ∧ Z.pos m ≤ 2 ^ 50) ∨
  (∃ my ey N, Prim2SF (1 / x) = S754_finite s my ey ∧ e + ey = - N ∧
     100 ≤ N ≤ 110 ∧
     2 ^ N - 2 ^ (N - 50) ≤ Z.pos m * Z.pos my ≤ 2 ^ N + 2 ^ (N - 50) ∧
     (e = -1074 → 2 ^ 50 < Z.pos m)).
Proof.
  intros Hx. pose proof (Prim2SF_valid x) as Hvalid. rewrite Hx in Hvalid.
  apply valid_finite in Hvalid as [Hcanon He971].
  rewrite div_spec Hx.
  replace (Prim2SF 1) with (S754_finite false two52 (-52)) by (by vm_compute).
  unfold SF64div.
  pose proof (digits2_pos_bounds m) as [Hdlo Hdhi].
  set (d := Z.pos (digits2_pos m)) in *.
  assert (1 ≤ d) as Hd1 by (unfold d; lia).
  unfold fexp, emin, prec, emax in Hcanon.
  assert (d ≤ 53 ∧ -1074 ≤ e ∧ (d = 53 ∨ e = -1074)) as (Hd53 & Hemin & Hnormal) by lia.
  destruct (Z.le_gt_cases (d + e) 1022) as [Hsmall|Hlarge].
  - rewrite SFdiv_one_small //. fold d.
    set (P := 2 ^ (d - 1)) in *.
    assert (0 < P) as HP by (apply Z.pow_pos_nonneg; lia).
    assert (2 ^ d = 2 * P) as Hpow_d.
    { unfold P. rewrite -(Z.pow_succ_r 2 (d - 1)); [lia|]. f_equal. lia. }
    assert (2 ^ (52 + d) = 2 ^ 53 * P) as Hpow_n.
    { unfold P. rewrite -Z.pow_add_r; [lia|lia|]. f_equal. lia. }
    assert (P ≤ 2 ^ 52) as HP52.
    { unfold P. apply Z.pow_le_mono_r; lia. }
    rewrite Hpow_d in Hdhi. rewrite !Hpow_n.
    set (q := 2 ^ 53 * P / Z.pos m).
    assert (Z.pos m * q ≤ 2 ^ 53 * P) as Hmq1 by (apply Z.mul_div_le; lia).
    assert (2 ^ 53 * P < Z.pos m * Z.succ q) as Hmq2 by (apply Z.mul_succ_div_gt; lia).
    rewrite Z.mul_succ_r in Hmq2.
    assert (2 ^ 52 ≤ q ≤ 2 ^ 53) as Hq.
    { split; [apply Z.div_le_lower_bound|apply Z.div_le_upper_bound]; lia. }
    destruct (decide (q = 2 ^ 53)) as [Hq53|Hq53].
    + assert (Z.pos m = P) as HmP by (rewrite Hq53 in Hmq1; lia).
      destruct (binary_round_aux_big s q (-52 - d - e)
                  (new_location (Z.pos m) (2 ^ 53 * P mod Z.pos m)) 54)
        as (v & Hv & ->); try lia; [by rewrite Hq53|].
      rewrite Hq53 in Hv. change (2 ^ 53 / 2 ^ (54 - 53)) with (2 ^ 52) in Hv.
      rewrite decide_False; [lia|].
      destruct (Z.leb_spec (-52 - d - e + (54 - 53)) 971) as [Hfin|Hover].
      * right. exists (Z.to_pos v), (-52 - d - e + (54 - 53)), (51 + d).
        split; [done|]. split; [lia|]. split; [lia|].
        assert (52 ≤ d) as Hd52 by lia.
        assert (2 ^ (51 + d) = 2 ^ 52 * P) as ->.
        { unfold P. rewrite -Z.pow_add_r; [lia|lia|]. f_equal. lia. }
        assert (2 ^ (51 + d - 50) = 4 * P) as ->.
        { unfold P. change 4 with (2 ^ 2). rewrite -Z.pow_add_r; [lia|lia|].
          f_equal. lia. }
        rewrite Z2Pos.id; [lia|]. rewrite HmP. split; [nia|].
        intros _.
        assert (2 ^ 51 ≤ P) by (unfold P; apply Z.pow_le_mono_r; lia). lia.
      * left. split; [done|].
        assert (d ≤ 51) as Hd51 by lia. split; [lia|]. rewrite HmP.
        unfold P. apply Z.pow_le_mono_r; lia.
    + destruct (binary_round_aux_big s q (-52 - d - e)
                  (new_location (Z.pos m) (2 ^ 53 * P mod Z.pos m)) 53)
        as (v & Hv & ->); try lia.
      { destruct q as [|pq|pq]; try lia. apply digits2_pos_unique. lia. }
      rewrite Z.sub_diag Z.div_1_r in Hv.
      replace (-52 - d - e + (53 - 53)) with (-52 - d - e) by lia.
      assert (P < Z.pos m) as HPm.
      { destruct (decide (Z.pos m = P)) as [HmP|]; [|lia].
        destruct Hq53. unfold q. rewrite HmP Z.div_mul; lia. }
      assert (v ≠ 2 ^ 53) as Hnocarry by nia.
      rewrite decide_False //.
      destruct (Z.leb_spec (-52 - d - e) 971) as [Hfin|Hover].
      * right. exists (Z.to_pos v), (-52 - d - e), (52 + d).
        split; [done|]. split; [lia|]. split; [lia|].
        assert (51 ≤ d) as Hd51 by lia.
        rewrite Hpow_n.
        assert (2 ^ (52 + d - 50) = 8 * P) as ->.
        { unfold P. change 8 with (2 ^ 3). rewrite -Z.pow_add_r; [lia|lia|].
          f_equal. lia. }
        rewrite Z2Pos.id; [lia|]. split; [destruct Hv as [-> | ->]; nia|].
        intros _.
        assert (2 ^ 50 ≤ P) by (unfold P; apply Z.pow_le_mono_r; lia). lia.
      * left. split; [done|].
        assert (d ≤ 50) as Hd50 by lia. split; [lia|].
        assert (2 * P ≤ 2 ^ 50); [|lia].
        rewrite -Hpow_d. apply Z.pow_le_mono_r; lia.
  - assert (d = 53) as Hd by lia. rewrite Hd in Hdlo, Hdhi.
    change (2 ^ (53 - 1)) with (2 ^ 52) in Hdlo.
    rewrite SFdiv_one_large; [lia|lia|].
    set (N := 1074 - e). assert (N = 103 ∨ N = 104) as HN by lia.
    set (q := 2 ^ N / Z.pos m).
    assert (Z.pos m * q ≤ 2 ^ N) as Hmq1 by (apply Z.mul_div_le; lia).
    assert (2 ^ N < Z.pos m * Z.succ q) as Hmq2 by (apply Z.mul_succ_div_gt; lia).
    rewrite Z.mul_succ_r in Hmq2.
    assert (2 ^ 50 ≤ q ≤ 2 ^ 52) as Hq.
    { split; [apply Z.div_le_lower_bound|apply Z.div_le_upper_bound];
        destruct HN as [-> | ->]; lia. }
    destruct (binary_round_aux_tiny s q (new_location (Z.pos m) (2 ^ N mod Z.pos m)))
      as (v & Hv & ->); [lia|].
    right. exists (Z.to_pos v), (-1074), N.
    split; [done|]. split; [lia|]. split; [lia|].
    rewrite Z2Pos.id; [lia|]. split; [|lia].
    destruct HN as [-> | ->]; destruct Hv as [-> | ->]; lia.
Qed.

(** A product within [2 ^ -50] of one is rounded to a double within three
    bits of [1.0]. *)
Lemma round_about_one (M N : Z) :
  100 ≤ N ≤ 110 →
  2 ^ N - 2 ^ (N - 50) ≤ M ≤ 2 ^ N + 2 ^ (N - 50) →
  binary_round_aux prec emax false M (- N) loc_Exact ∈ Prim2SF <$> about_one.
Proof.
  intros HN HM. set (Q := 2 ^ (N - 53)).
  assert (0 < Q) as HQ by (apply Z.pow_pos_nonneg; lia).
  assert (∀ k, 0 ≤ k → 2 ^ (N - 53 + k) = 2 ^ k * Q) as Hpow.
  { intros k Hk. unfold Q. rewrite Z.pow_add_r; lia. }
  assert (2 ^ N = 2 ^ 53 * Q) as HpN by (rewrite -Hpow; [lia|f_equal; lia]).
  assert (2 ^ (N - 50) = 2 ^ 3 * Q) as Hp50 by (rewrite -Hpow; [lia|f_equal; lia]).
  assert (2 ^ (N - 1) = 2 ^ 52 * Q) as Hp1 by (rewrite -Hpow; [lia|f_equal; lia]).
  assert (2 ^ (N + 1) = 2 ^ 54 * Q) as HpS by (rewrite -Hpow; [lia|f_equal; lia]).
  assert (2 ^ (N + 1 - 53) = 2 ^ 1 * Q) as Hp52 by (rewrite -Hpow; [lia|f_equal; lia]).
  rewrite HpN Hp50 in HM.
  assert (0 < M) as HMpos by lia.
  destruct (Z.ltb_spec M (2 ^ N)) as [Hsmall|Hlarge].
  - destruct (binary_round_aux_normal false M (- N) loc_Exact N)
      as (v & Hv & ->); try lia.
    { destruct M as [|pM|pM]; try lia. apply digits2_pos_unique. lia. }
    fold Q in Hv.
    assert (2 ^ 53 - 8 ≤ M / Q) by (apply Z.div_le_lower_bound; lia).
    assert (M / Q < 2 ^ 53) by (apply Z.div_lt_upper_bound; lia).
    replace (- N + (N - 53) + 1) with (-52) by lia.
    replace (- N + (N - 53)) with (-53) by lia.
    case_decide as Hcarry; [vm_compute; repeat constructor|].
    assert (v = 2 ^ 53 - 8 ∨ v = 2 ^ 53 - 7 ∨ v = 2 ^ 53 - 6 ∨ v = 2 ^ 53 - 5 ∨
            v = 2 ^ 53 - 4 ∨ v = 2 ^ 53 - 3 ∨ v = 2 ^ 53 - 2 ∨ v = 2 ^ 53 - 1)
      as Hcases by lia.
    repeat (destruct Hcases as [->|Hcases]); [..|subst v];
      vm_compute; repeat constructor.
  - destruct (binary_round_aux_normal false M (- N) loc_Exact (N + 1))
      as (v & Hv & ->); try lia.
    { destruct M as [|pM|pM]; try lia. apply digits2_pos_unique.
      replace (N + 1 - 1) with N by lia. lia. }
    rewrite Hp52 in Hv.
    assert (2 ^ 52 ≤ M / (2 ^ 1 * Q)) by (apply Z.div_le_lower_bound; lia).
    assert (M / (2 ^ 1 * Q) < 2 ^ 52 + 5) by (apply Z.div_lt_upper_bound; lia).
    replace (- N + (N + 1 - 53)) with (-52) by lia.
    rewrite decide_False; [lia|].
    assert (v = 2 ^ 52 ∨ v = 2 ^ 52 + 1 ∨ v = 2 ^ 52 + 2 ∨ v = 2 ^ 52 + 3 ∨
            v = 2 ^ 52 + 4 ∨ v = 2 ^ 52 + 5)
      as Hcases by lia.
    repeat (destruct Hcases as [->|Hcases]); [..|subst v];
      vm_compute; repeat constructor.
Qed.

Lemma about_one_isclose (z : float) : z ∈ about_one → isclose z 1 = true.
Proof.
  intros Hz. vm_compute in Hz.
  repeat (apply elem_of_cons in Hz as [->|Hz]); [by vm_compute..|].
  by apply elem_of_nil in Hz.
Qed.

Lemma Prim2SF_eq (x : float) (sf : spec_float) : Prim2SF x = sf → x = SF2Prim sf.
Proof. intros <-. by rewrite SF2Prim_Prim2SF. Qed.

(** The reciprocal of a float is finite exactly when the float is an infinity
    or is beyond [2 ^ -1024] in absolute value. *)
Lemma reciprocal_isfinite (x : float) :
  isfinite (1 / x) = PrimFloat.ltb 0x1p-1024 (abs x).
Proof.
  destruct (Prim2SF x) as [s|s| |s m e] eqn:Hx;
    [apply Prim2SF_eq in Hx as ->; destruct s; by vm_compute..
    |apply Prim2SF_eq in Hx as ->; by vm_compute|].
  rewrite ltb_spec abs_spec Hx.
  replace (Prim2SF 0x1p-1024) with (S754_finite false (Z.to_pos (2 ^ 50)) (-1074))
    by (by vm_compute).
  pose proof (Prim2SF_valid x) as Hvalid. rewrite Hx in Hvalid.
  apply valid_finite in Hvalid as [Hcanon _].
  unfold fexp, emin, prec, emax in Hcanon.
  unfold isfinite, SFltb, SFcompare, SFabs.
  destruct (recip_SF_gen x s m e Hx)
    as [(-> & -> & Hm)|(my & ey & N & -> & _ & _ & _ & Hm)].
  - rewrite Z.compare_refl. fold (Pos.compare (Z.to_pos (2 ^ 50)) m).
    by destruct (Pos.compare_spec (Z.to_pos (2 ^ 50)) m) as [?|?|?]; try lia.
  - destruct (Z.compare_spec (-1074) e) as [He|He|He]; [|done|lia].
    fold (Pos.compare (Z.to_pos (2 ^ 50)) m).
    destruct (Pos.compare_spec (Z.to_pos (2 ^ 50)) m) as [?|?|?]; [|done|];
      specialize (Hm (eq_sym He)); lia.
Qed.

(** A float times its reciprocal is [1.0] within the relative tolerance
    exactly when both are finite. *)
Lemma roundtrip_isclose (x : float) :
  isclose (x * (1 / x)) 1 = isfinite x && isfinite (1 / x).
Proof.
  destruct (Prim2SF x) as [s|s| |s m e] eqn:Hx;
    [apply Prim2SF_eq in Hx as ->; destruct s; by vm_compute..
    |apply Prim2SF_eq in Hx as ->; by vm_compute|].
  assert (isfinite x = true) as -> by (by rewrite /isfinite Hx).
  destruct (recip_SF_gen x s m e Hx)
    as [(Hy & _)|(my & ey & N & Hy & HN & HNrange & HM & _)].
  - assert (Prim2SF (x * (1 / x)) = S754_infinity false) as Hp.
    { rewrite mul_spec Hx Hy. unfold SF64mul, SFmul. by rewrite xorb_nilpotent. }
    apply Prim2SF_eq in Hp as ->. by rewrite /isfinite Hy; vm_compute.
  - assert (Prim2SF (x * (1 / x)) ∈ Prim2SF <$> about_one) as Hp.
    { rewrite mul_spec Hx Hy. unfold SF64mul, SFmul.
      rewrite xorb_nilpotent HN Pos2Z.inj_mul. by apply round_about_one. }
    apply list_elem_of_fmap in Hp as (c & Hc & Hin).
    apply Prim2SF_inj in Hc as ->.
    by rewrite (about_one_isclose c Hin) /isfinite Hy.
Qed.
End binary64.

(** ** The relative tolerance *)

Lemma near_one_isclose (z : float) : z ∈ near_one → isclose z 1 = true.
Proof.
  unfold near_one. intros Hz.
  repeat (apply elem_of_cons in Hz as [->|Hz]); [by vm_compute..|].
  by apply elem_of_nil in Hz.
Qed.

(** * The specification, statement by statement *)

(** ** Identity *)

(** C1 (as the code has it). For every pair of codes that are equal after
    case normalization, [get_rate] makes no network call exactly when the cache
    holds a fresh entry of "X->X", which it then returns, leaving the world as
    it is. Otherwise it fetches the providers like any other request: the
    first feed that fails ends the call with its exception, and so does the
    graph builder; when the three feeds answer and the graph is built, the call
    returns the rate 1.0 with an empty path (no traversal of the graph),
    stamped with the latest snapshot instant, and stores it with the expiry
    [now + ttl] -- unless no [datetime] can hold that expiry: then it raises
    [OverflowError] after the three fetches and stores nothing. *)
Theorem get_rate_identity now net frm to w :
  upper frm = upper to →
  let key := cache_key (upper frm) (upper to) in
  let cached := fresh_entry (RateService._cache (self w) !! key) now in
  let three := fetched w ++ [CBR; NBU; Binance] in
  (∀ res, cached = Some res → get_rate now net frm to w = (Ok res, w)) ∧
  (fetched (get_rate now net frm to w).2 = fetched w ↔ ∃ res, cached = Some res) ∧
  (cached = None →
   (∀ e, fetch_cbr net = Raise e →
      get_rate now net frm to w =
        (Raise e, {| self := self w; fetched := fetched w ++ [CBR] |})) ∧
   (∀ cbr e, fetch_cbr net = Ok cbr → fetch_nbu net = Raise e →
      get_rate now net frm to w =
        (Raise e, {| self := self w; fetched := fetched w ++ [CBR; NBU] |})) ∧
   (∀ cbr nbu e,
      fetch_cbr net = Ok cbr → fetch_nbu net = Ok nbu → fetch_binance net = Raise e →
      get_rate now net frm to w = (Raise e, {| self := self w; fetched := three |})) ∧
   (∀ cbr nbu bnc,
      fetch_cbr net = Ok cbr → fetch_nbu net = Ok nbu → fetch_binance net = Ok bnc →
      let s := fetched_self (self w) cbr nbu bnc in
      let res := RateResult.mk 1%float [] (latest cbr nbu bnc) in
      (∀ e, _build_graph cbr nbu bnc = Raise e →
         get_rate now net frm to w = (Raise e, {| self := s; fetched := three |})) ∧
      (∀ graph, _build_graph cbr nbu bnc = Ok graph →
         (in_datetime_range (now + RateService.ttl (self w)) →
          get_rate now net frm to w =
            (Ok res,
             {| self := stored_self (self w) key now res (Some (latest cbr nbu bnc));
                fetched := three |})) ∧
         (¬ in_datetime_range (now + RateService.ttl (self w)) →
          get_rate now net frm to w =
            (Raise OverflowError, {| self := s; fetched := three |}))))).
Proof.
  intros Hsame key cached three.
  split; [intros res Hres; by apply get_rate_fresh|]. split.
  - split.
    + intros Hlog. destruct cached as [res|] eqn:Hcached; [by eexists|].
      rewrite get_rate_stale // in Hlog.
      destruct (refresh_fetches now net (upper frm) (upper to) key w) as [[rest Hrest] _].
      rewrite Hrest in Hlog. apply (f_equal length) in Hlog.
      rewrite length_app /= in Hlog. lia.
    + intros [res Hres]. by rewrite (get_rate_fresh _ _ _ _ _ res).
  - intros Hstale. rewrite get_rate_stale //. fold key.
    split; [|split; [|split]].
    + intros e Hcbr. apply refresh_run_eq. by constructor.
    + intros cbr e Hcbr Hnbu. apply refresh_run_eq. by econstructor.
    + intros cbr nbu e Hcbr Hnbu Hbnc. apply refresh_run_eq. by econstructor.
    + intros cbr nbu bnc Hcbr Hnbu Hbnc s res. split.
      * intros e Hbuild. apply refresh_run_eq. by eapply run_build_fails.
      * intros graph Hbuild.
        assert (_find_rate s graph (upper frm) (upper to) now
                  = Ok (1%float, [], latest cbr nbu bnc)) as Hfind
          by (rewrite Hsame; apply _find_rate_identity).
        split; intros Hrange; apply refresh_run_eq.
        -- by eapply (run_stores _ _ _ _ _ _ cbr nbu bnc graph).
        -- by eapply (run_overflows _ _ _ _ _ _ cbr nbu bnc graph).
Qed.

Lemma get_rate_identity_witness :
  get_rate Scenario.now Scenario.net "usd" "USD" Scenario.world =
    (Ok (RateResult.mk 1%float [] Scenario.as_of),
     {| self := stored_self Scenario.service "USD->USD" Scenario.now
                  (RateResult.mk 1%float [] Scenario.as_of) (Some Scenario.as_of);
        fetched := [CBR; NBU; Binance] |}).
Proof.
  assert (∃ graph, _build_graph Scenario.cbr Scenario.nbu Scenario.bnc = Ok graph)
    as [graph Hbuild] by (eexists; by vm_compute).
  destruct (get_rate_identity Scenario.now Scenario.net "usd" "USD" Scenario.world
              eq_refl) as (_ & _ & Hstale).
  destruct (Hstale eq_refl) as (_ & _ & _ & Hthree).
  destruct (Hthree Scenario.cbr Scenario.nbu Scenario.bnc eq_refl eq_refl eq_refl)
    as [_ Hbuilt].
  apply (Hbuilt graph Hbuild). by vm_compute.
Defined.

(** C1, the claim refuted: on an empty cache [get_rate("USD", "USD")] performs
    the three provider fetches, and when a feed is down it raises instead of
    returning the rate 1.0. *)
Lemma get_rate_identity_fetches :
  fetched (get_rate Scenario.now Scenario.net "USD" "USD" Scenario.world).2
    = [CBR; NBU; Binance] ∧
  get_rate Scenario.now Scenario.net_down "USD" "USD" Scenario.world
    = (Raise (OtherError "ClientResponseError" "503"),
       {| self := Scenario.service; fetched := [CBR; NBU] |}).
Proof. split; by vm_compute. Qed.

(** ** The scenario of the specification *)

(** C2 (as the code has it). In the scenario of the specification USD to EUR
    resolves to the rate 90.0/100.0 = 0.9 along two CBR hops, USD->RUB and
    RUB->EUR (the graph has no edge between USD and EUR), and UAH to RUB
    resolves to 100.0/45.0 along the single derived edge labelled CBR+NBU. *)
Theorem scenario_resolution :
  ∃ graph,
    _build_graph Scenario.cbr Scenario.nbu Scenario.bnc = Ok graph ∧
    _find_rate Scenario.service graph "USD" "EUR" Scenario.now =
      Ok ((90 / 100)%float, [("USD", "RUB", "CBR"); ("RUB", "EUR", "CBR")],
          Scenario.now) ∧
    (90 / 100 = 0.9)%float ∧
    _find_rate Scenario.service graph "UAH" "RUB" Scenario.now =
      Ok ((100 / 45)%float, [("UAH", "RUB", "CBR+NBU")], Scenario.now).
Proof.
  eexists. split; [by vm_compute|].
  split; [by vm_compute|]. split; by vm_compute.
Qed.

(** C2, the claim refuted: USD to EUR is resolved along two hops, not one. *)
Lemma scenario_usd_eur_two_hops :
  ∃ graph,
    _build_graph Scenario.cbr Scenario.nbu Scenario.bnc = Ok graph ∧
    out_edges graph "USD" =
      [("RUB", 90%float, "CBR"); ("UAH", 40%float, "NBU"); ("USDT", 1%float, "Binance")] ∧
    ∃ rate path as_of,
      _find_rate Scenario.service graph "USD" "EUR" Scenario.now
        = Ok (rate, path, as_of) ∧
      length path = 2.
Proof.
  eexists. split; [by vm_compute|]. split; [by vm_compute|].
  do 3 eexists. split; [by vm_compute|done].
Qed.

(** ** Fewest hops *)

(** C3. For every graph and distinct codes between which some route exists,
    [_find_rate] returns the hops of a route from [frm] to [to] that has the
    least number of hops among all routes from [frm] to [to]. Among the routes
    of that length it is the one the breadth-first discovery order picks:
    where it parts from another route of that length, it leaves the node at
    which they part by the edge that was inserted earlier for that node (so
    the neighbour that is discovered first wins), and it is the only route
    with this property. Each of its hops is the first edge towards its end in
    the insertion order of the edges of its start. No rate takes part in the
    choice: every graph with the same edges in the same order, whatever their
    rates, is resolved along the same hops. *)
Theorem find_rate_fewest_hops self graph frm to now other :
  frm ≠ to → is_route graph frm to other →
  ∃ route,
    _find_rate self graph frm to now =
      Ok (product_of (factors_of route), hops_of route,
          default now (RateService._last_sources_as_of self)) ∧
    is_route graph frm to route ∧
    length (hops_of route) ≤ length other ∧
    (∀ any, is_route graph frm to any → length (hops_of route) ≤ length any) ∧
    first_in_order graph frm to route ∧
    (∀ any, is_route graph frm to any → length any = length route →
       first_in_order graph frm to any → any = route) ∧
    Forall (first_edge graph) route ∧
    (∀ self' graph' now', shape graph' = shape graph →
       ∃ rate' as_of',
         _find_rate self' graph' frm to now' = Ok (rate', hops_of route, as_of')).
Proof.
  intros Hne Hother.
  destruct (_find_rate_order self graph frm to now Hne)
    as [(route & Hroute & Hfirst & _ & Hmin & Horder & Hok)|[Hno _]];
    [|by apply is_route_reach, Hno in Hother].
  assert (∀ any, is_route graph frm to any → length (hops_of route) ≤ length any) as Hleast.
  { intros any Hany. rewrite /hops_of length_fmap. by apply Hmin, is_route_reach. }
  exists route. split; [done|]. split; [done|]. split; [by apply Hleast|].
  split; [done|]. split; [done|]. split; [|split; [done|]].
  - intros any Hany Hlen (apos & Hapos & Hafirst).
    destruct Horder as (pos & Hpos & Hpfirst).
    assert (apos = pos) as ->.
    { apply lex_le_antisym; [by apply (Hafirst pos route)|by apply (Hpfirst apos any)]. }
    congruence.
  - intros self' graph' now' Hshape.
    pose proof (_find_rate_shape self' self graph' graph frm to now' now Hshape) as Hsame.
    rewrite Hok in Hsame.
    destruct (_find_rate self' graph' frm to now') as [[[rate' path'] as_of']|e];
      [|done].
    simpl in Hsame. subst path'. eauto.
Qed.

Lemma find_rate_fewest_hops_witness :
  ∃ route,
    _find_rate Scenario.service tie_graph "A" "D" 0 =
      Ok (product_of (factors_of route), hops_of route, 0%Z) ∧
    is_route tie_graph "A" "D" route ∧
    length (hops_of route) ≤ 2 ∧
    first_in_order tie_graph "A" "D" route ∧
    hops_of route = [("A", "B", "x"); ("B", "D", "x")].
Proof.
  destruct (find_rate_fewest_hops Scenario.service tie_graph "A" "D" 0
              [ {| e_from := "A"; e_to := "C"; e_factor := 3; e_source := "y" |};
                {| e_from := "C"; e_to := "D"; e_factor := 100; e_source := "y" |} ])
    as (route & Hok & Hroute & Hlen & _ & Horder & _); [done| |].
  - repeat split; vm_compute; repeat constructor.
  - exists route. repeat split; try done.
    vm_compute in Hok. by injection Hok.
Defined.

(** ** Edges and their reciprocals *)

(** C4 (as the code has it). Whenever the builder returns a graph (no divisor
    is zero), the graph has no self-loop and its edges come in pairs inserted
    together: for each rate fact [(a, b, f, source)] the graph holds the edges
    [(a, b, f, source)] and [(b, a, 1.0 / f, source)], and it holds no other
    edge. So every edge has its reciprocal in the graph or is the reciprocal
    of an edge of the graph. (In binary64 [1.0 / (1.0 / f)] need not be [f],
    so the reciprocal of a reciprocal edge need not be there.) *)
Theorem build_graph_paired cbr nbu bnc graph :
  _build_graph cbr nbu bnc = Ok graph →
  no_self_loop graph ∧ paired graph ∧
  (∀ e, e ∈ rate_facts cbr nbu bnc →
     has_edge graph e ∧ has_edge graph (reciprocal e)) ∧
  (∀ e, has_edge graph e →
     e ∈ rate_facts cbr nbu bnc ∨
     ∃ f, f ∈ rate_facts cbr nbu bnc ∧ e = reciprocal f).
Proof.
  intros Hbuild. apply _build_graph_inv in Hbuild as [-> _]. destruct cbr, nbu, bnc.
  split; [|split; [|split]].
  1,2: intros e He; pose proof He as Hin; apply has_edge_edges_of in Hin;
    vm_compute in Hin;
    repeat (apply elem_of_cons in Hin as [->|Hin]); try (by apply elem_of_nil in Hin);
    try done;
    first
      [ left; edge_listed
      | right;
        let l := eval vm_compute in
          (edges_of (graph_of (CbrRates.mk eur_rub usd_rub as_of)
                       (NbuRates.mk eur_uah usd_uah as_of0)
                       (BinanceRates.mk eur_usdt usdt_uah usdt_usd as_of1))) in
        pick_reciprocal l ].
  - intros e He. unfold rate_facts in He.
    repeat (apply elem_of_cons in He as [->|He]); [split; edge_listed..|].
    by apply elem_of_nil in He.
  - intros e He. apply has_edge_edges_of in He. vm_compute in He.
    repeat (apply elem_of_cons in He as [->|He]); try (by apply elem_of_nil in He);
    first
      [ left; fact_listed
      | right;
        let l := eval cbv [rate_facts CbrRates.eur_rub CbrRates.usd_rub
                           NbuRates.eur_uah NbuRates.usd_uah BinanceRates.eur_usdt
                           BinanceRates.usdt_uah BinanceRates.usdt_usd] in
          (rate_facts (CbrRates.mk eur_rub usd_rub as_of)
             (NbuRates.mk eur_uah usd_uah as_of0)
             (BinanceRates.mk eur_usdt usdt_uah usdt_usd as_of1)) in
        pick_fact l ].
Qed.

Lemma build_graph_paired_witness :
  ∃ graph, _build_graph Scenario.cbr Scenario.nbu Scenario.bnc = Ok graph ∧
    no_self_loop graph ∧ paired graph ∧
    has_edge graph
      {| e_from := "UAH"; e_to := "RUB"; e_factor := (100 / 45)%float;
         e_source := "CBR+NBU" |} ∧
    has_edge graph
      {| e_from := "RUB"; e_to := "UAH"; e_factor := (1 / (100 / 45))%float;
         e_source := "CBR+NBU" |}.
Proof.
  exists (graph_of Scenario.cbr Scenario.nbu Scenario.bnc).
  split; [by vm_compute|].
  destruct (build_graph_paired Scenario.cbr Scenario.nbu Scenario.bnc
              (graph_of Scenario.cbr Scenario.nbu Scenario.bnc))
    as (Hloop & Hpaired & Hfacts & _); [by vm_compute|].
  split; [done|]. split; [done|].
  apply (Hfacts {| e_from := "UAH"; e_to := "RUB"; e_factor := (100 / 45)%float;
                   e_source := "CBR+NBU" |}).
  fact_listed.
Defined.

(** C4, the claim refuted: with EUR->RUB at 98.0 the graph holds the edge
    (RUB, EUR, 1.0/98.0, CBR) but not its inverse, whose factor
    1.0/(1.0/98.0) is 98.00000000000001; the edge from EUR to RUB has the
    factor 98.0. *)
Lemma build_graph_not_inverse_closed :
  ∃ graph,
    _build_graph (CbrRates.mk 98 90 0) Scenario.nbu Scenario.bnc = Ok graph ∧
    ¬ inverse_closed graph.
Proof.
  exists (graph_of (CbrRates.mk 98 90 0) Scenario.nbu Scenario.bnc).
  split; [by vm_compute|]. intros Hclosed.
  specialize (Hclosed {| e_from := "RUB"; e_to := "EUR";
                         e_factor := (1 / 98)%float; e_source := "CBR" |}
                ltac:(edge_listed)).
  apply has_edge_edges_of in Hclosed. vm_compute in Hclosed.
  repeat (apply elem_of_cons in Hclosed as [Heq|Hclosed]);
    try (by apply elem_of_nil in Hclosed); discriminate Heq.
Qed.

(** ** The cache window *)

(** C5. Let a call of [get_rate(A, B)] refresh and store its result with the
    expiry [now1 + ttl]. A second call at an instant strictly before that
    expiry returns exactly the stored result and leaves the world as it is: no
    provider is fetched. A second call at or after the expiry treats the entry
    as absent: it runs the refresh, with the result and the fetches it has on
    the cache without the entry; the first provider is always fetched, and all
    three are when none of them fails. *)
Theorem get_rate_cache_window now1 net1 frm to w res w1 :
  let key := cache_key (upper frm) (upper to) in
  let expiry := (now1 + RateService.ttl (self w))%Z in
  fresh_entry (RateService._cache (self w) !! key) now1 = None →
  get_rate now1 net1 frm to w = (Ok res, w1) →
  RateService._cache (self w1) !! key = Some (expiry, res) ∧
  ∀ now2 net2,
    ((now2 < expiry)%Z → get_rate now2 net2 frm to w1 = (Ok res, w1)) ∧
    ((expiry ≤ now2)%Z →
     get_rate now2 net2 frm to w1 = refresh now2 net2 (upper frm) (upper to) key w1 ∧
     (get_rate now2 net2 frm to w1).1 = (get_rate now2 net2 frm to (forget key w1)).1 ∧
     fetched (get_rate now2 net2 frm to w1).2
       = fetched (get_rate now2 net2 frm to (forget key w1)).2 ∧
     (∃ rest, fetched (get_rate now2 net2 frm to w1).2 = fetched w1 ++ CBR :: rest) ∧
     (∀ cbr nbu bnc,
        fetch_cbr net2 = Ok cbr → fetch_nbu net2 = Ok nbu → fetch_binance net2 = Ok bnc →
        fetched (get_rate now2 net2 frm to w1).2 = fetched w1 ++ [CBR; NBU; Binance])).
Proof.
  intros key expiry Hstale Hcall.
  assert (RateService._cache (self w1) !! key = Some (expiry, res)) as Hentry.
  { rewrite get_rate_stale // in Hcall. apply refresh_inv in Hcall.
    inversion Hcall; subst. by rewrite /= lookup_insert_eq. }
  split; [done|]. intros now2 net2. split.
  - intros Hlt. apply get_rate_fresh. fold key. rewrite Hentry /=.
    by destruct (Z.ltb_spec now2 expiry); [|lia].
  - intros Hge.
    assert (fresh_entry (RateService._cache (self w1) !! key) now2 = None) as Hold.
    { rewrite Hentry /=. by destruct (Z.ltb_spec now2 expiry); [lia|]. }
    assert (fresh_entry (RateService._cache (self (forget key w1)) !! key) now2 = None)
      as Hgone by (by rewrite /= lookup_delete_eq).
    rewrite !get_rate_stale //.
    destruct (refresh_forget now2 net2 (upper frm) (upper to) key w1) as [Hres Hlog].
    destruct (refresh_fetches now2 net2 (upper frm) (upper to) key w1) as [Hone Hall].
    by rewrite Hres Hlog.
Qed.

Lemma get_rate_cache_window_witness :
  get_rate (Scenario.now + 599999999) Scenario.net_down "USD" "EUR" Scenario.world_after
    = (Ok Scenario.usd_eur, Scenario.world_after) ∧
  fetched (get_rate (Scenario.now + 600000000) Scenario.net "USD" "EUR"
             Scenario.world_after).2
    = [CBR; NBU; Binance; CBR; NBU; Binance].
Proof.
  destruct (get_rate_cache_window Scenario.now Scenario.net "usd" "eur" Scenario.world
              Scenario.usd_eur Scenario.world_after) as [_ Hsecond].
  - by vm_compute.
  - by vm_compute.
  - split.
    + apply (Hsecond (Scenario.now + 599999999)%Z Scenario.net_down). by vm_compute.
    + destruct (Hsecond (Scenario.now + 600000000)%Z Scenario.net) as [_ Hstale].
      destruct Hstale as (_ & _ & _ & _ & Hall); [by vm_compute|].
      by rewrite (Hall Scenario.cbr Scenario.nbu Scenario.bnc).
Defined.

(** ** Failure of a refresh *)

(** C6. When a call of [get_rate] refreshes and a provider fetch, the graph
    builder or the path resolver raises, the call raises that same exception
    and the cache mapping after the call is the one before it: no entry is
    written, changed or removed. *)
Theorem get_rate_failure now net frm to w e :
  fresh_entry (RateService._cache (self w) !! cache_key (upper frm) (upper to)) now
    = None →
  refresh_raises now net (upper frm) (upper to) (self w) e →
  ∃ w', get_rate now net frm to w = (Raise e, w') ∧
    RateService._cache (self w') = RateService._cache (self w).
Proof.
  intros Hstale Hraises.
  destruct (get_rate now net frm to w) as [r w'] eqn:Hcall.
  assert (r = Raise e) as ->; [|exists w'; split; [done|by eapply get_rate_Raise_cache]].
  rewrite get_rate_stale // in Hcall. apply refresh_inv in Hcall.
  destruct Hraises as [H1|[(cbr & H1 & H2)|[(cbr & nbu & H1 & H2 & H3)|
    (cbr & nbu & bnc & H1 & H2 & H3 & [H4|(graph & H4 & H5)])]]];
    inversion Hcall; congruence.
Qed.

Lemma get_rate_failure_witness :
  ∃ w', get_rate Scenario.now Scenario.net_down "usd" "eur" world_with_entry
          = (Raise (OtherError "ClientResponseError" "503"), w') ∧
    RateService._cache (self w') = RateService._cache (self world_with_entry).
Proof.
  apply (get_rate_failure Scenario.now Scenario.net_down "usd" "eur" world_with_entry).
  - by vm_compute.
  - right. left. exists Scenario.cbr. by split.
Defined.

(** ** No route *)

(** C7. For every graph and distinct codes, when the search ends without
    having reached the destination, [_find_rate] raises a [RuntimeError] whose
    message, "No conversion path from <frm> to <to>", names both codes; it
    returns no rate, path or instant. This happens exactly when the graph has
    no route from [frm] to [to]. *)
Theorem find_rate_no_path self graph frm to now :
  frm ≠ to → ¬ reached graph frm to →
  _find_rate self graph frm to now =
    Raise (RuntimeError ("No conversion path from " +:+ frm +:+ " to " +:+ to)) ∧
  names_both ("No conversion path from " +:+ frm +:+ " to " +:+ to) frm to ∧
  (∀ rate path as_of, _find_rate self graph frm to now ≠ Ok (rate, path, as_of)) ∧
  (∀ route, ¬ is_route graph frm to route).
Proof.
  intros Hne Hnot.
  destruct (bfs_spec graph frm to Hne) as (st & lvl & Hbfs & _ & [[Hsome _]|[Hnone Hno]]).
  { destruct Hnot. by exists st. }
  assert (_find_rate self graph frm to now =
            Raise (RuntimeError ("No conversion path from " +:+ frm +:+ " to " +:+ to)))
    as Hraise by (by rewrite /_find_rate decide_False // Hbfs Hnone).
  split; [done|]. split; [|split].
  - exists "No conversion path from ", " to ", "".
    by rewrite append_empty_r.
  - intros rate path as_of. by rewrite Hraise.
  - intros route Hroute%is_route_reach. by eapply Hno.
Qed.

Lemma find_rate_no_path_witness :
  _find_rate Scenario.service (graph_of Scenario.cbr Scenario.nbu Scenario.bnc)
    "USD" "GBP" Scenario.now
  = Raise (RuntimeError "No conversion path from USD to GBP").
Proof.
  apply (find_rate_no_path Scenario.service
           (graph_of Scenario.cbr Scenario.nbu Scenario.bnc) "USD" "GBP" Scenario.now);
    [done|].
  intros (st & Hbfs & [x Hx]). vm_compute in Hbfs. injection Hbfs as <-.
  by vm_compute in Hx.
Defined.

(** ** There and back *)

(** C8 (as the code has it). For every rate fact [(A, B, f, source)] of a
    graph the builder returns, real or derived, the graph also holds
    [(B, A, 1.0 / f, source)]; resolving A to B returns exactly [f] and
    resolving B to A exactly [1.0 / f], each along that one edge. The product
    of the two rates, in either order, equals 1.0 within the relative
    tolerance 1e-9 exactly when both rates are finite, that is, when [f] is
    finite and beyond [2^-1024] in absolute value: [1.0 / f] overflows for a
    smaller [f], and the product of an infinite or NaN rate is not close to
    1.0. When [f] is a positive normal double below [2^1022] (so that
    [1.0 / f] is a normal double too) the product is 1.0 up to one bit, one
    of 1 - 2^-52, 1 - 2^-53, 1 and 1 + 2^-52. *)
Theorem rate_fact_roundtrip cbr nbu bnc graph self now e :
  _build_graph cbr nbu bnc = Ok graph → e ∈ rate_facts cbr nbu bnc →
  has_edge graph e ∧ has_edge graph (reciprocal e) ∧
  _find_rate self graph (e_from e) (e_to e) now =
    Ok (e_factor e, [(e_from e, e_to e, e_source e)],
        default now (RateService._last_sources_as_of self)) ∧
  _find_rate self graph (e_to e) (e_from e) now =
    Ok ((1 / e_factor e)%float, [(e_to e, e_from e, e_source e)],
        default now (RateService._last_sources_as_of self)) ∧
  isclose (e_factor e * (1 / e_factor e)) 1
    = isfinite (e_factor e) && isfinite (1 / e_factor e) ∧
  isclose ((1 / e_factor e) * e_factor e) 1
    = isfinite (e_factor e) && isfinite (1 / e_factor e) ∧
  isfinite (1 / e_factor e) = PrimFloat.ltb 0x1p-1024 (abs (e_factor e)) ∧
  (normal_rate (e_factor e) = true →
   (e_factor e * (1 / e_factor e))%float ∈ near_one).
Proof.
  intros Hbuild He. apply _build_graph_inv in Hbuild as [-> _].
  assert (∀ f : float, product_of [f] = f) as Hone
    by (intros f; apply float_mul_1_l).
  split; [|split; [|split; [|split; [|split; [|split; [|split]]]]]].
  - destruct cbr, nbu, bnc. unfold rate_facts in He.
    repeat (apply elem_of_cons in He as [->|He]); [edge_listed..|].
    by apply elem_of_nil in He.
  - destruct cbr, nbu, bnc. unfold rate_facts in He.
    repeat (apply elem_of_cons in He as [->|He]); [edge_listed..|].
    by apply elem_of_nil in He.
  - rewrite -(Hone (e_factor e)). destruct cbr, nbu, bnc, self.
    unfold rate_facts in He.
    repeat (apply elem_of_cons in He as [->|He]); [by vm_compute..|].
    by apply elem_of_nil in He.
  - rewrite -(Hone (1 / e_factor e)%float). destruct cbr, nbu, bnc, self.
    unfold rate_facts in He.
    repeat (apply elem_of_cons in He as [->|He]); [by vm_compute..|].
    by apply elem_of_nil in He.
  - apply roundtrip_isclose.
  - rewrite (float_mul_comm (1 / e_factor e)). apply roundtrip_isclose.
  - apply reciprocal_isfinite.
  - apply roundtrip_near_one.
Qed.

Lemma rate_fact_roundtrip_witness :
  _find_rate Scenario.service (graph_of Scenario.cbr Scenario.nbu Scenario.bnc)
    "UAH" "RUB" Scenario.now
    = Ok ((100 / 45)%float, [("UAH", "RUB", "CBR+NBU")], Scenario.now) ∧
  _find_rate Scenario.service (graph_of Scenario.cbr Scenario.nbu Scenario.bnc)
    "RUB" "UAH" Scenario.now
    = Ok ((1 / (100 / 45))%float, [("RUB", "UAH", "CBR+NBU")], Scenario.now) ∧
  isclose ((100 / 45) * (1 / (100 / 45))) 1 = true.
Proof.
  destruct (rate_fact_roundtrip Scenario.cbr Scenario.nbu Scenario.bnc
              (graph_of Scenario.cbr Scenario.nbu Scenario.bnc)
              Scenario.service Scenario.now
              {| e_from := "UAH"; e_to := "RUB"; e_factor := (100 / 45)%float;
                 e_source := "CBR+NBU" |})
    as (_ & _ & Hthere & Hback & Hclose & _).
  - by vm_compute.
  - unfold rate_facts. set_solver.
  - split; [done|]. split; [done|]. simpl in Hclose. rewrite Hclose. by vm_compute.
Defined.

(** C8, the claim refuted: with USD->RUB at the least positive double the
    graph is built, USD to RUB resolves to that rate and RUB to USD to its
    reciprocal, which is infinite; their product is infinite, not 1.0. *)
Lemma rate_fact_roundtrip_overflow :
  ∃ graph,
    _build_graph (CbrRates.mk 100 0x1p-1074 0) Scenario.nbu Scenario.bnc = Ok graph ∧
    has_edge graph
      {| e_from := "USD"; e_to := "RUB"; e_factor := 0x1p-1074; e_source := "CBR" |} ∧
    _find_rate Scenario.service graph "USD" "RUB" Scenario.now
      = Ok (0x1p-1074%float, [("USD", "RUB", "CBR")], Scenario.now) ∧
    _find_rate Scenario.service graph "RUB" "USD" Scenario.now
      = Ok (infinity, [("RUB", "USD", "CBR")], Scenario.now) ∧
    (0x1p-1074 * infinity)%float = infinity ∧
    isclose (0x1p-1074 * infinity) 1 = false.
Proof.
  exists (graph_of (CbrRates.mk 100 0x1p-1074 0) Scenario.nbu Scenario.bnc).
  split; [by vm_compute|]. split; [edge_listed|]. repeat split; by vm_compute.
Qed.

(** ** Instant and rate of a result *)

(** C9. The result of a call of [get_rate] that refreshed carries, as its
    as-of instant, the latest of the three snapshot instants fetched during
    that call (it is one of them and none is later), and, as its rate, the
    product of the factors of the edges along its path, which is a route of
    the graph built from these snapshots (the empty route, with the product
    1.0, when the two codes are equal). When the service holds no snapshot
    instant, [_find_rate] stamps its result with the current time [now]. *)
Theorem rate_result_composition :
  (∀ now net frm to w res w',
     fresh_entry (RateService._cache (self w) !! cache_key (upper frm) (upper to)) now
       = None →
     get_rate now net frm to w = (Ok res, w') →
     ∃ cbr nbu bnc graph route,
       fetch_cbr net = Ok cbr ∧ fetch_nbu net = Ok nbu ∧ fetch_binance net = Ok bnc ∧
       _build_graph cbr nbu bnc = Ok graph ∧
       RateResult.as_of res = latest cbr nbu bnc ∧
       (CbrRates.as_of cbr ≤ RateResult.as_of res)%Z ∧
       (NbuRates.as_of nbu ≤ RateResult.as_of res)%Z ∧
       (BinanceRates.as_of bnc ≤ RateResult.as_of res)%Z ∧
       (RateResult.as_of res = CbrRates.as_of cbr ∨
        RateResult.as_of res = NbuRates.as_of nbu ∨
        RateResult.as_of res = BinanceRates.as_of bnc) ∧
       is_route graph (upper frm) (upper to) route ∧
       RateResult.path res = hops_of route ∧
       RateResult.rate res = product_of (factors_of route) ∧
       (upper frm = upper to → route = [] ∧ RateResult.rate res = 1%float)) ∧
  (∀ self graph frm to now rate path as_of,
     RateService._last_sources_as_of self = None →
     _find_rate self graph frm to now = Ok (rate, path, as_of) →
     as_of = now).
Proof.
  split.
  - intros now net frm to w res w' Hstale Hcall.
    rewrite get_rate_stale // in Hcall. apply refresh_inv in Hcall.
    inversion Hcall as [| | | | | |cbr nbu bnc graph rate path as_of Hcbr Hnbu Hbnc Hbuild Hfind Hrange];
      subst.
    exists cbr, nbu, bnc, graph.
    pose proof (latest_max cbr nbu bnc) as [(? & ? & ?) ?].
    destruct (decide (upper frm = upper to)) as [Heq|Hne].
    + rewrite Heq _find_rate_identity in Hfind. simplify_eq/=.
      exists []. by rewrite Heq.
    + destruct (_find_rate_spec (fetched_self (self w) cbr nbu bnc) graph
                  (upper frm) (upper to) now Hne)
        as [(route & Hroute & _ & _ & _ & Hok)|[_ Hno]]; [|congruence].
      rewrite Hok in Hfind. simplify_eq/=. exists route. by repeat split.
  - intros self graph frm to now rate path as_of Hlast Hfind.
    destruct (decide (frm = to)) as [->|Hne].
    + rewrite _find_rate_identity Hlast in Hfind. by simplify_eq/=.
    + destruct (_find_rate_spec self graph frm to now Hne)
        as [(route & _ & _ & _ & _ & Hok)|[_ Hno]]; [|congruence].
      rewrite Hok Hlast in Hfind. by simplify_eq/=.
Qed.

Lemma rate_result_composition_witness :
  ∃ cbr nbu bnc graph route,
    fetch_cbr Scenario.net = Ok cbr ∧ fetch_nbu Scenario.net = Ok nbu ∧
    fetch_binance Scenario.net = Ok bnc ∧
    _build_graph cbr nbu bnc = Ok graph ∧
    RateResult.as_of Scenario.usd_eur = latest cbr nbu bnc ∧
    is_route graph "USD" "EUR" route ∧
    RateResult.path Scenario.usd_eur = hops_of route ∧
    RateResult.rate Scenario.usd_eur = product_of (factors_of route).
Proof.
  destruct (proj1 rate_result_composition Scenario.now Scenario.net "usd" "eur"
              Scenario.world Scenario.usd_eur Scenario.world_after)
    as (cbr & nbu & bnc & graph & route & H);
    [by vm_compute|by vm_compute|].
  exists cbr, nbu, bnc, graph, route. tauto.
Defined.

(** ** The supported currencies are connected *)

(** C10 (as the code has it). Positive rate fields do not make the builder
    return: it raises [ZeroDivisionError] when the derived ratio
    [eur_rub / eur_uah] underflows to zero, and returns its graph otherwise.
    Whenever the builder returns a graph, the five supported codes are
    strongly connected in it: for every ordered pair of them [_find_rate]
    returns a result, so the no-path error can only be raised for a code
    outside the five. Every path [_find_rate] returns is made of the hops of a
    route of the graph from the source to the destination, with the product
    of its factors as the rate, and is a well-formed simple chain. *)
Theorem build_graph_connects cbr nbu bnc self now :
  (Forall positive_rate (rate_fields cbr nbu bnc) →
   (is_zero (CbrRates.eur_rub cbr / NbuRates.eur_uah nbu) →
    _build_graph cbr nbu bnc = Raise ZeroDivisionError) ∧
   (¬ is_zero (CbrRates.eur_rub cbr / NbuRates.eur_uah nbu) →
    _build_graph cbr nbu bnc = Ok (graph_of cbr nbu bnc))) ∧
  (∀ graph, _build_graph cbr nbu bnc = Ok graph →
     (∀ frm to, frm ∈ supported → to ∈ supported →
        ∃ route,
          _find_rate self graph frm to now =
            Ok (product_of (factors_of route), hops_of route,
                default now (RateService._last_sources_as_of self)) ∧
          is_route graph frm to route ∧
          simple_chain frm to (hops_of route)) ∧
     (∀ frm to msg,
        _find_rate self graph frm to now = Raise (RuntimeError msg) →
        frm ∉ supported ∨ to ∉ supported) ∧
     (∀ frm to rate path as_of,
        _find_rate self graph frm to now = Ok (rate, path, as_of) →
        simple_chain frm to path ∧
        ∃ route, is_route graph frm to route ∧ path = hops_of route ∧
          rate = product_of (factors_of route))).
Proof.
  assert (∀ graph frm to rate path as_of,
    _find_rate self graph frm to now = Ok (rate, path, as_of) →
    simple_chain frm to path ∧
    ∃ route, is_route graph frm to route ∧ path = hops_of route ∧
      rate = product_of (factors_of route)) as Hpath.
  { intros graph frm to rate path as_of Hok.
    split; [by eapply find_rate_simple_chain|].
    destruct (decide (frm = to)) as [->|Hne].
    - rewrite _find_rate_identity in Hok. injection Hok as <- <- _. by exists [].
    - destruct (_find_rate_spec self graph frm to now Hne)
        as [(route & Hroute & _ & _ & _ & Hfind)|[_ Hno]]; [|congruence].
      rewrite Hfind in Hok. injection Hok as <- <- _. by exists route. }
  split.
  - intros Hpos.
    assert (Forall (λ d, PrimFloat.eqb d 0%float = false) (rate_fields cbr nbu bnc))
      as Hfields.
    { eapply Forall_impl; [exact Hpos|]. apply positive_rate_not_zero. }
    destruct (_build_graph cbr nbu bnc) as [graph|e] eqn:Hbuild.
    + apply _build_graph_inv in Hbuild as [-> Hdiv]. split; [|done].
      intros Hzero. unfold divisors in Hdiv.
      apply Forall_cons in Hdiv as [_ Hdiv]. apply Forall_cons in Hdiv as [_ Hdiv].
      apply Forall_cons in Hdiv as [_ Hdiv]. apply Forall_cons in Hdiv as [_ Hdiv].
      apply Forall_cons in Hdiv as [Hratio _]. unfold is_zero in Hzero. congruence.
    + apply _build_graph_Raise in Hbuild as Hclass. subst e. split; [done|].
      intros Hratio. rewrite _build_graph_Ok in Hbuild; [|done].
      unfold rate_fields in Hfields. unfold divisors.
      apply Forall_cons in Hfields as [H1 Hfields].
      apply Forall_cons in Hfields as [H2 Hfields].
      apply Forall_cons in Hfields as [H3 Hfields].
      apply Forall_cons in Hfields as [H4 Hfields].
      repeat (apply Forall_cons; split; [done|]). apply Forall_cons.
      split; [|done]. unfold is_zero in Hratio.
      by destruct (PrimFloat.eqb (CbrRates.eur_rub cbr / NbuRates.eur_uah nbu) 0).
  - intros graph Hbuild. apply _build_graph_inv in Hbuild as [-> _].
    assert (∀ frm to, frm ∈ supported → to ∈ supported →
      ∃ rate path as_of,
        _find_rate self (graph_of cbr nbu bnc) frm to now = Ok (rate, path, as_of))
      as Hconnected.
    { destruct cbr, nbu, bnc. intros frm to Hfrm Hto.
      repeat (apply elem_of_cons in Hfrm as [->|Hfrm]); [..|by apply elem_of_nil in Hfrm];
        repeat (apply elem_of_cons in Hto as [->|Hto]); try (by apply elem_of_nil in Hto);
        do 3 eexists; vm_compute; reflexivity. }
    split; [|split].
    + intros frm to Hfrm Hto.
      destruct (Hconnected frm to Hfrm Hto) as (rate & path & as_of & Hok).
      destruct (Hpath _ _ _ _ _ _ Hok) as [Hchain (route & Hroute & -> & ->)].
      exists route. split; [|done]. rewrite Hok. f_equal. f_equal.
      clear -Hok. unfold _find_rate in Hok.
      destruct (decide (frm = to)); [by injection Hok|].
      destruct (bfs _ frm to) as [st|]; [|done].
      destruct (prev st !! to); [|done].
      destruct (reconstruct _ _ _ _ _ _) as [[[]|]|]; [|done..].
      by injection Hok.
    + intros frm to msg Hraise.
      destruct (decide (frm ∈ supported)) as [Hfrm|Hfrm]; [|by left].
      destruct (decide (to ∈ supported)) as [Hto|Hto]; [|by right].
      destruct (Hconnected frm to Hfrm Hto) as (rate & path & as_of & Hok). congruence.
    + intros frm to rate path as_of. apply Hpath.
Qed.

Lemma build_graph_connects_witness :
  _build_graph Scenario.cbr Scenario.nbu Scenario.bnc
    = Ok (graph_of Scenario.cbr Scenario.nbu Scenario.bnc) ∧
  ∃ route,
    _find_rate Scenario.service (graph_of Scenario.cbr Scenario.nbu Scenario.bnc)
      "RUB" "USDT" Scenario.now
      = Ok (product_of (factors_of route), hops_of route, Scenario.now) ∧
    is_route (graph_of Scenario.cbr Scenario.nbu Scenario.bnc) "RUB" "USDT" route ∧
    simple_chain "RUB" "USDT" (hops_of route).
Proof.
  destruct (build_graph_connects Scenario.cbr Scenario.nbu Scenario.bnc
              Scenario.service Scenario.now) as [Hbuilt Hconnected].
  assert (_build_graph Scenario.cbr Scenario.nbu Scenario.bnc
            = Ok (graph_of Scenario.cbr Scenario.nbu Scenario.bnc)) as Hbuild.
  { apply Hbuilt; [repeat constructor|]. unfold is_zero. vm_compute. discriminate. }
  split; [exact Hbuild|].
  destruct (Hconnected _ Hbuild) as [Hpairs _].
  apply Hpairs; vm_compute; repeat constructor.
Defined.

(** C10, the claim refuted: with EUR->RUB at the least positive double and
    EUR->UAH at 45.0 every rate field is positive, but the derived ratio
    underflows to zero and the builder raises [ZeroDivisionError]: no graph
    is built and no pair of codes is resolved. *)
Lemma build_graph_connects_underflow :
  Forall positive_rate (rate_fields cbr_tiny Scenario.nbu Scenario.bnc) ∧
  (CbrRates.eur_rub cbr_tiny / NbuRates.eur_uah Scenario.nbu = 0)%float ∧
  _build_graph cbr_tiny Scenario.nbu Scenario.bnc = Raise ZeroDivisionError ∧
  ∀ frm to log,
    get_rate Scenario.now
      {| fetch_cbr := Ok cbr_tiny; fetch_nbu := Ok Scenario.nbu;
         fetch_binance := Ok Scenario.bnc |} frm to
      {| self := Scenario.service; fetched := log |}
    = (Raise ZeroDivisionError,
       {| self := fetched_self Scenario.service cbr_tiny Scenario.nbu Scenario.bnc;
          fetched := log ++ [CBR; NBU; Binance] |}).
Proof.
  split; [repeat constructor|]. split; [by vm_compute|].
  assert (_build_graph cbr_tiny Scenario.nbu Scenario.bnc = Raise ZeroDivisionError)
    as Hbuild by (by vm_compute).
  split; [done|]. intros frm to log.
  rewrite get_rate_stale; [done|]. apply refresh_run_eq.
  exact (run_build_fails Scenario.now
           {| fetch_cbr := Ok cbr_tiny; fetch_nbu := Ok Scenario.nbu;
              fetch_binance := Ok Scenario.bnc |} (upper frm) (upper to) _
           {| self := Scenario.service; fetched := log |} cbr_tiny Scenario.nbu
           Scenario.bnc ZeroDivisionError eq_refl eq_refl eq_refl Hbuild).
Qed.

(** * The code around the service *)

(** ** The service: keys, cache entries and provider fetches *)

Lemma upper_ascii_idemp c : upper_ascii (upper_ascii c) = upper_ascii c.
Proof. destruct c as [[] [] [] [] [] [] [] []]; by vm_compute. Qed.

Lemma upper_idemp s : upper (upper s) = upper s.
Proof. induction s as [|c s IH]; [done|]. by rewrite /= upper_ascii_idemp IH. Qed.

Lemma upper_ascii_dash c : upper_ascii c = "-"%char ↔ c = "-"%char.
Proof. destruct c as [[] [] [] [] [] [] [] []]; by vm_compute. Qed.

Lemma contains_dash_upper s : contains_char "-" (upper s) = contains_char "-" s.
Proof.
  induction s as [|c s IH]; [done|]. cbn [upper contains_char]. rewrite IH.
  destruct (decide (upper_ascii c = "-"%char)) as [H|H], (decide (c = "-"%char)) as [H'|H'];
    try done; [by destruct H'; apply upper_ascii_dash|by subst].
Qed.

Lemma cache_key_inj frm to frm' to' :
  contains_char "-" frm = false → contains_char "-" frm' = false →
  cache_key frm to = cache_key frm' to' → frm = frm' ∧ to = to'.
Proof.
  unfold cache_key. revert frm'. induction frm as [|c frm IH]; intros [|c' frm'] H1 H2 Heq.
  - by injection Heq.
  - injection Heq as <- _. by vm_compute in H2.
  - injection Heq as -> _. by vm_compute in H1.
  - injection Heq as -> Heq. simpl in H1, H2.
    destruct (decide (c' = "-"%char)); [done|].
    destruct (IH frm' H1 H2 Heq) as [-> ->]. done.
Qed.

(** X1. [get_rate] does not see the case of its two codes: a call with codes
    in any case is the call with the upper-cased codes, on every world; it
    uses the same cache entry and has the same result and effects. *)
Theorem get_rate_any_case now net frm to w :
  get_rate now net frm to w = get_rate now net (upper frm) (upper to) w.
Proof. by rewrite /get_rate !upper_idemp. Qed.

(** X2. Two requests whose source codes hold no dash use the same cache key
    only if they name the same pair of codes up to case: entries of
    different pairs never collide. *)
Theorem cache_key_pairs frm to frm' to' :
  contains_char "-" frm = false → contains_char "-" frm' = false →
  cache_key (upper frm) (upper to) = cache_key (upper frm') (upper to') →
  upper frm = upper frm' ∧ upper to = upper to'.
Proof.
  intros H1 H2. apply cache_key_inj; by rewrite contains_dash_upper.
Qed.

Lemma cache_key_pairs_witness :
  cache_key (upper "usd") (upper "EUR") = cache_key (upper "USD") (upper "eur") ∧
  upper "usd" = upper "USD" ∧ upper "EUR" = upper "eur".
Proof.
  split; [done|]. by apply (cache_key_pairs "usd" "EUR" "USD" "eur").
Defined.

(** X3. Whatever a call of [get_rate] does (a cache hit, a refresh, a
    failure), it leaves the time to live as it is, changes no cache entry but
    that of its own key, and removes no entry. *)
Theorem get_rate_keeps_other_entries now net frm to w :
  let w' := (get_rate now net frm to w).2 in
  RateService.ttl (self w') = RateService.ttl (self w) ∧
  (∀ k, k ≠ cache_key (upper frm) (upper to) →
     RateService._cache (self w') !! k = RateService._cache (self w) !! k) ∧
  dom (RateService._cache (self w)) ⊆ dom (RateService._cache (self w')).
Proof.
  intros w'. subst w'.
  destruct (fresh_entry (RateService._cache (self w) !! cache_key (upper frm) (upper to)) now)
    as [res|] eqn:Hfresh.
  { by rewrite (get_rate_fresh _ _ _ _ _ res). }
  rewrite get_rate_stale //.
  destruct (refresh now net (upper frm) (upper to) (cache_key (upper frm) (upper to)) w)
    as [r w'] eqn:Hcall.
  apply refresh_inv in Hcall. inversion Hcall; subst; simpl; try done.
  split; [done|]. split.
  - intros k Hk. by rewrite lookup_insert_ne.
  - rewrite dom_insert_L. set_solver.
Qed.

Lemma refresh_asked now net frm to key w :
  fetched (refresh now net frm to key w).2 = fetched w ++
    match fetch_cbr net with
    | Raise _ => [CBR]
    | Ok _ => match fetch_nbu net with Raise _ => [CBR; NBU] | Ok _ => [CBR; NBU; Binance] end
    end.
Proof.
  destruct (refresh now net frm to key w) as [r w'] eqn:Hcall.
  apply refresh_inv in Hcall.
  inversion Hcall as [e H1|cbr e H1 H2|cbr nbu e H1 H2 H3|cbr nbu bnc e H1 H2 H3 _
                      |cbr nbu bnc graph e H1 H2 H3 _ _
                      |cbr nbu bnc graph rate path as_of H1 H2 H3 _ _ _
                      |cbr nbu bnc graph rate path as_of H1 H2 H3 _ _ _]; subst; simpl;
    by rewrite H1 ?H2.
Qed.

(** X4. The provider fetches of one call of [get_rate] are a prefix of CBR,
    NBU, Binance, in this order: none on a cache hit; otherwise CBR is asked,
    NBU only when CBR has answered, and Binance only when both have. *)
Theorem get_rate_asks_in_order now net frm to w :
  let hit :=
    is_Some (fresh_entry (RateService._cache (self w) !! cache_key (upper frm) (upper to))
               now) in
  ∃ asked,
    fetched (get_rate now net frm to w).2 = fetched w ++ asked ∧
    asked `prefix_of` [CBR; NBU; Binance] ∧
    (asked = [] ↔ hit) ∧
    (NBU ∈ asked ↔ ¬ hit ∧ answered (fetch_cbr net)) ∧
    (Binance ∈ asked ↔ ¬ hit ∧ answered (fetch_cbr net) ∧ answered (fetch_nbu net)).
Proof.
  intros hit. subst hit.
  assert (¬ is_Some (@None RateResult.t)) as Hnone by (by intros [? ?]).
  assert (∀ A (a : A), answered (Ok a)) as Hok by (intros; by eexists).
  assert (∀ A e, ¬ answered (@Raise A e)) as Hraise by (by intros A e [? ?]).
  destruct (fresh_entry (RateService._cache (self w) !! cache_key (upper frm) (upper to)) now)
    as [res|] eqn:Hfresh.
  { exists []. rewrite (get_rate_fresh _ _ _ _ _ res) // app_nil_r.
    split; [done|]. split; [apply prefix_nil|].
    split; [done|]. split; (split; [by intros ?%elem_of_nil|by intros [[] _]]). }
  rewrite get_rate_stale // refresh_asked.
  destruct (fetch_cbr net) as [cbr|e1]; [destruct (fetch_nbu net) as [nbu|e2]|].
  - exists [CBR; NBU; Binance]. split; [done|]. split; [done|].
    split; [split; [done|by intros ?%Hnone]|].
    split; (split; [by eauto|intros _; set_solver]).
  - exists [CBR; NBU]. split; [done|]. split; [by exists [Binance]|].
    split; [split; [done|by intros ?%Hnone]|].
    split; [split; [by eauto|intros _; set_solver]|].
    split; [set_solver|by intros (_ & _ & ?%Hraise)].
  - exists [CBR]. split; [done|]. split; [by exists [NBU; Binance]|].
    split; [split; [done|by intros ?%Hnone]|].
    split; (split; [set_solver|]); [by intros (_ & ?%Hraise)|by intros (_ & ?%Hraise & _)].
Qed.

(** X5. A service whose time to live is zero or negative never serves a
    result from its cache: the entry a call has stored is already stale for
    every later call, which refreshes and asks CBR again. *)
Theorem get_rate_nonpositive_ttl now1 net1 frm to w res w1 :
  let key := cache_key (upper frm) (upper to) in
  (RateService.ttl (self w) ≤ 0)%Z →
  fresh_entry (RateService._cache (self w) !! key) now1 = None →
  get_rate now1 net1 frm to w = (Ok res, w1) →
  ∀ now2 net2, (now1 ≤ now2)%Z →
    get_rate now2 net2 frm to w1 = refresh now2 net2 (upper frm) (upper to) key w1 ∧
    ∃ rest, fetched (get_rate now2 net2 frm to w1).2 = fetched w1 ++ CBR :: rest.
Proof.
  intros key Httl Hstale Hcall now2 net2 Hlater.
  assert (RateService._cache (self w1) !! key
            = Some ((now1 + RateService.ttl (self w))%Z, res)) as Hentry.
  { rewrite get_rate_stale // in Hcall. apply refresh_inv in Hcall.
    inversion Hcall; subst. by rewrite /= lookup_insert_eq. }
  assert (fresh_entry (RateService._cache (self w1) !! key) now2 = None) as Hold.
  { rewrite Hentry /=.
    by destruct (Z.ltb_spec now2 (now1 + RateService.ttl (self w))); [lia|]. }
  rewrite get_rate_stale //. split; [done|].
  by destruct (refresh_fetches now2 net2 (upper frm) (upper to) key w1) as [Hone _].
Qed.

Lemma get_rate_nonpositive_ttl_witness :
  ∃ rest,
    fetched (get_rate (Scenario.now + 1) Scenario.net "USD" "EUR"
               (get_rate Scenario.now Scenario.net "USD" "EUR" world_without_ttl).2).2
    = fetched (get_rate Scenario.now Scenario.net "USD" "EUR" world_without_ttl).2
        ++ CBR :: rest.
Proof.
  refine (proj2 (get_rate_nonpositive_ttl Scenario.now Scenario.net "USD" "EUR"
                   world_without_ttl Scenario.usd_eur
                   (get_rate Scenario.now Scenario.net "USD" "EUR" world_without_ttl).2
                   _ _ _ (Scenario.now + 1)%Z Scenario.net _));
    [vm_compute; discriminate|vm_compute; reflexivity|vm_compute; reflexivity
    |vm_compute; discriminate].
Defined.

(** ** The graph of the builder and the codes of the keyboard *)

(** X6. [_build_graph] raises [ZeroDivisionError] exactly when one of its
    eight divisors (the seven rates and the derived ratio
    [eur_rub / eur_uah]) is a zero, returns its graph exactly when none is,
    and raises nothing else. Rates that are all positive do not exclude the
    error: the derived ratio of two positive rates can underflow to zero. *)
Theorem build_graph_zero_division :
  (∀ cbr nbu bnc,
     (_build_graph cbr nbu bnc = Raise ZeroDivisionError ↔
      Exists is_zero (divisors cbr nbu bnc)) ∧
     (_build_graph cbr nbu bnc = Ok (graph_of cbr nbu bnc) ↔
      Forall (λ d, ¬ is_zero d) (divisors cbr nbu bnc)) ∧
     (∀ e, _build_graph cbr nbu bnc = Raise e → e = ZeroDivisionError)) ∧
  (∃ cbr nbu bnc,
     Forall positive_rate (rate_fields cbr nbu bnc) ∧
     _build_graph cbr nbu bnc = Raise ZeroDivisionError).
Proof.
  split.
  - intros cbr nbu bnc.
    assert (Forall (λ d, ¬ is_zero d) (divisors cbr nbu bnc) ↔
            Forall (λ d, PrimFloat.eqb d 0%float = false) (divisors cbr nbu bnc)) as Hnz.
    { apply Forall_iff. intros d. unfold is_zero. by destruct (PrimFloat.eqb d 0). }
    assert (_build_graph cbr nbu bnc = Ok (graph_of cbr nbu bnc) ↔
            Forall (λ d, ¬ is_zero d) (divisors cbr nbu bnc)) as Hok.
    { rewrite Hnz. split; [|apply _build_graph_Ok].
      intros Hbuild. by apply _build_graph_inv in Hbuild as [_ ?]. }
    split; [|split; [done|apply _build_graph_Raise]].
    split.
    + intros Hraise.
      destruct (decide (Exists is_zero (divisors cbr nbu bnc))) as [|Hno]; [done|].
      apply (not_Exists_Forall _ _) in Hno. apply Hok in Hno. congruence.
    + intros Hex.
      destruct (_build_graph cbr nbu bnc) as [graph|e] eqn:Hbuild.
      * apply _build_graph_inv in Hbuild as [_ Hall]. apply Hnz in Hall.
        apply Exists_exists in Hex as (d & Hd & Hz).
        by eapply Forall_forall in Hall.
      * by apply _build_graph_Raise in Hbuild as ->.
  - exists (CbrRates.mk 0x1p-1074 90 0), (NbuRates.mk 45 40 0), (BinanceRates.mk 1.1 41 1 0).
    split; [|by vm_compute]. repeat constructor.
Qed.

Lemma graph_of_nodes cbr nbu bnc :
  dom (graph_of cbr nbu bnc) = list_to_set CURRENCIES ∧
  graph_targets (graph_of cbr nbu bnc) = list_to_set CURRENCIES.
Proof. destruct cbr, nbu, bnc. split; by vm_compute. Qed.

(** X7. The nodes of a graph the builder returns, and the targets of its
    edges, are exactly the five codes of [CURRENCIES], the list the keyboard
    offers; the graph has sixteen edges, four from UAH and three from each
    other code. *)
Theorem build_graph_nodes cbr nbu bnc graph :
  _build_graph cbr nbu bnc = Ok graph →
  dom graph = list_to_set CURRENCIES ∧
  graph_targets graph = list_to_set CURRENCIES ∧
  length (edges_of graph) = 16 ∧
  (∀ c, c ∈ CURRENCIES →
     length (out_edges graph c) = if decide (c = "UAH") then 4 else 3).
Proof.
  intros Hbuild. apply _build_graph_inv in Hbuild as [-> _].
  destruct (graph_of_nodes cbr nbu bnc) as [Hdom Htargets].
  split; [done|]. split; [done|]. clear Hdom Htargets.
  destruct cbr, nbu, bnc. split; [vm_compute; reflexivity|].
  intros c Hc. repeat (apply elem_of_cons in Hc as [->|Hc]); [vm_compute; reflexivity..|].
  by apply elem_of_nil in Hc.
Qed.

Lemma build_graph_nodes_witness :
  dom (graph_of Scenario.cbr Scenario.nbu Scenario.bnc) = list_to_set CURRENCIES ∧
  length (edges_of (graph_of Scenario.cbr Scenario.nbu Scenario.bnc)) = 16.
Proof.
  destruct (build_graph_nodes Scenario.cbr Scenario.nbu Scenario.bnc
              (graph_of Scenario.cbr Scenario.nbu Scenario.bnc)) as (Hdom & _ & Hlen & _);
    [vm_compute; reflexivity|split; assumption].
Defined.

Lemma is_route_ends graph route : ∀ frm to,
  is_route graph frm to route → route ≠ [] →
  frm ∈ dom graph ∧ to ∈ graph_targets graph.
Proof.
  induction route as [|e rest IH]; intros frm to Hroute Hne; [done|].
  destruct Hroute as (<- & He & Hrest). split.
  - apply elem_of_dom. unfold has_edge, out_edges in He.
    destruct (graph !! e_from e); [done|]. by apply elem_of_nil in He.
  - destruct rest as [|e' rest'].
    + simpl in Hrest. subst to. by eapply out_edges_target.
    + by apply (IH (e_to e) to).
Qed.

Lemma graph_of_no_route cbr nbu bnc self now frm to :
  frm ≠ to → frm ∉ CURRENCIES ∨ to ∉ CURRENCIES →
  _find_rate self (graph_of cbr nbu bnc) frm to now =
    Raise (RuntimeError (no_path_message frm to)).
Proof.
  intros Hne Hout.
  destruct (_find_rate_spec self (graph_of cbr nbu bnc) frm to now Hne)
    as [(route & Hroute & _)|[_ Hraise]]; [|done].
  destruct (graph_of_nodes cbr nbu bnc) as [Hdom Htargets].
  apply is_route_ends in Hroute as [Hfrm Hto].
  - rewrite Hdom in Hfrm. rewrite Htargets in Hto.
    apply elem_of_list_to_set in Hfrm, Hto. clear Hdom Htargets.
    destruct Hout as [Hout|Hout]; by destruct Hout.
  - clear Hdom Htargets. intros ->. by simpl in Hroute.
Qed.

(** X8. On a graph the builder returns, a request between two distinct
    codes of which one is not among [CURRENCIES] raises the no-path
    [RuntimeError]. *)
Theorem find_rate_unsupported cbr nbu bnc graph self now frm to :
  _build_graph cbr nbu bnc = Ok graph →
  frm ≠ to → frm ∉ CURRENCIES ∨ to ∉ CURRENCIES →
  _find_rate self graph frm to now =
    Raise (RuntimeError ("No conversion path from " +:+ frm +:+ " to " +:+ to)).
Proof.
  intros Hbuild. apply _build_graph_inv in Hbuild as [-> _]. apply graph_of_no_route.
Qed.

Lemma find_rate_unsupported_witness :
  _find_rate Scenario.service (graph_of Scenario.cbr Scenario.nbu Scenario.bnc)
    "GBP" "USD" Scenario.now
  = Raise (RuntimeError "No conversion path from GBP to USD").
Proof.
  apply (find_rate_unsupported Scenario.cbr Scenario.nbu Scenario.bnc);
    [vm_compute; reflexivity|done|].
  left. unfold CURRENCIES. intros Hin.
  repeat (apply elem_of_cons in Hin as [[=]|Hin]). by apply elem_of_nil in Hin.
Defined.

(** X9. On a graph the builder returns, a path [_find_rate] returns has at
    most two hops; it is empty exactly when the two codes are equal, and it
    has two hops exactly for the pairs USD/EUR and RUB/USDT, in either
    direction. *)
Theorem find_rate_two_hops cbr nbu bnc graph self now frm to rate path as_of :
  _build_graph cbr nbu bnc = Ok graph →
  _find_rate self graph frm to now = Ok (rate, path, as_of) →
  length path ≤ 2 ∧ (path = [] ↔ frm = to) ∧
  (length path = 2 ↔ (frm, to) ∈ two_hop_pairs).
Proof.
  intros Hbuild Hfind. apply _build_graph_inv in Hbuild as [-> _].
  destruct (decide (frm = to)) as [->|Hne].
  { rewrite _find_rate_identity in Hfind. injection Hfind as <- <- <-.
    split; [simpl; lia|]. split; [done|]. split; [done|].
    unfold two_hop_pairs. intros Hin.
    repeat (apply elem_of_cons in Hin as [[=]|Hin]); subst; try done.
    by apply elem_of_nil in Hin. }
  destruct (decide (frm ∈ CURRENCIES)) as [Hfrm|Hfrm];
    [|by rewrite graph_of_no_route in Hfind; auto].
  destruct (decide (to ∈ CURRENCIES)) as [Hto|Hto];
    [|by rewrite graph_of_no_route in Hfind; auto].
  destruct cbr, nbu, bnc. unfold CURRENCIES in Hfrm, Hto.
  repeat (apply elem_of_cons in Hfrm as [->|Hfrm]);
    [..|exfalso; apply elem_of_nil in Hfrm; exact Hfrm];
    repeat (apply elem_of_cons in Hto as [->|Hto]);
    try (exfalso; apply elem_of_nil in Hto; exact Hto);
    try (exfalso; apply Hne; reflexivity);
    vm_compute in Hfind; injection Hfind as <- <- <-; clear Hne;
    (split; [simpl; lia|]); (split; [done|]);
    (split; [intros Hlen; first [discriminate Hlen|unfold two_hop_pairs; set_solver]
            |unfold two_hop_pairs; intros Hin;
             first [reflexivity
                   |repeat (apply elem_of_cons in Hin as [[=]|Hin]);
                    by apply elem_of_nil in Hin]]).
Qed.

Lemma find_rate_two_hops_witness :
  length (RateResult.path Scenario.usd_eur) ≤ 2 ∧
  (length (RateResult.path Scenario.usd_eur) = 2 ↔ ("USD", "EUR") ∈ two_hop_pairs).
Proof.
  destruct (find_rate_two_hops Scenario.cbr Scenario.nbu Scenario.bnc
              (graph_of Scenario.cbr Scenario.nbu Scenario.bnc)
              Scenario.service Scenario.now "USD" "EUR"
              (RateResult.rate Scenario.usd_eur) (RateResult.path Scenario.usd_eur)
              Scenario.now) as (Hle & _ & Htwo);
    [vm_compute; reflexivity|vm_compute; reflexivity|split; assumption].
Defined.

(** X10. The four conversions without a direct edge, for every snapshot
    triple the builder accepts: USD to EUR and back go through RUB and are
    priced from the two CBR rates alone; RUB to USDT and back go through EUR,
    with the CBR rate of EUR and the Binance rate of EUR. *)
Theorem find_rate_cross_rates cbr nbu bnc graph self now :
  _build_graph cbr nbu bnc = Ok graph →
  let as_of := default now (RateService._last_sources_as_of self) in
  _find_rate self graph "USD" "EUR" now =
    Ok ((1 / CbrRates.eur_rub cbr * CbrRates.usd_rub cbr)%float,
        [("USD", "RUB", "CBR"); ("RUB", "EUR", "CBR")], as_of) ∧
  _find_rate self graph "EUR" "USD" now =
    Ok ((1 / CbrRates.usd_rub cbr * CbrRates.eur_rub cbr)%float,
        [("EUR", "RUB", "CBR"); ("RUB", "USD", "CBR")], as_of) ∧
  _find_rate self graph "RUB" "USDT" now =
    Ok ((BinanceRates.eur_usdt bnc * (1 / CbrRates.eur_rub cbr))%float,
        [("RUB", "EUR", "CBR"); ("EUR", "USDT", "Binance")], as_of) ∧
  _find_rate self graph "USDT" "RUB" now =
    Ok ((CbrRates.eur_rub cbr * (1 / BinanceRates.eur_usdt bnc))%float,
        [("USDT", "EUR", "Binance"); ("EUR", "RUB", "CBR")], as_of).
Proof.
  intros Hbuild as_of. subst as_of. apply _build_graph_inv in Hbuild as [-> _].
  destruct cbr, nbu, bnc, self. cbn [CbrRates.eur_rub CbrRates.usd_rub BinanceRates.eur_usdt].
  repeat split; (etransitivity; [vm_compute; reflexivity|]); by rewrite float_mul_1_l.
Qed.

Lemma find_rate_cross_rates_witness :
  _find_rate Scenario.service (graph_of Scenario.cbr Scenario.nbu Scenario.bnc)
    "USD" "EUR" Scenario.now =
    Ok ((1 / 100 * 90)%float, [("USD", "RUB", "CBR"); ("RUB", "EUR", "CBR")], Scenario.now).
Proof.
  destruct (find_rate_cross_rates Scenario.cbr Scenario.nbu Scenario.bnc
              (graph_of Scenario.cbr Scenario.nbu Scenario.bnc)
              Scenario.service Scenario.now) as [Husd _];
    [vm_compute; reflexivity|exact Husd].
Defined.

(** ** main.py: the sources of a rate *)

Lemma append_assoc (a b c : string) : (a +:+ b) +:+ c = a +:+ b +:+ c.
Proof.
  induction a as [|x a IH]; [done|].
  unfold String.append; fold String.append. by rewrite IH.
Qed.

Lemma append_empty_inv (a b : string) : a +:+ b = "" → a = "" ∧ b = "".
Proof. by destruct a. Qed.

Lemma hop_text_nonempty h : hop_text h ≠ "".
Proof.
  unfold hop_text. intros H.
  apply append_empty_inv in H as [_ H]. by apply append_empty_inv in H as [H _].
Qed.

Lemma join_cons sep p ps :
  ps ≠ [] → join sep (p :: ps) = p +:+ sep +:+ join sep ps.
Proof. by destruct ps. Qed.

Lemma join_app sep ps qs :
  ps ≠ [] → qs ≠ [] → join sep (ps ++ qs) = join sep ps +:+ sep +:+ join sep qs.
Proof.
  intros Hps Hqs. induction ps as [|p ps IH]; [done|].
  destruct ps as [|p' ps].
  - simpl app. by rewrite join_cons.
  - rewrite -app_comm_cons join_cons; [by destruct ps|].
    rewrite IH // (join_cons sep p (p' :: ps)) // !append_assoc //.
Qed.

Lemma join_empty sep ps : (∀ p, p ∈ ps → p ≠ "") → join sep ps = "" → ps = [].
Proof.
  intros Hne Hjoin. destruct ps as [|p ps]; [done|].
  destruct (Hne p); [set_solver|].
  destruct ps; [done|]. rewrite join_cons // in Hjoin.
  by apply append_empty_inv in Hjoin as [? _].
Qed.

(** X11. The sources text of a path [_find_rate] returns for two distinct
    codes is not empty: it starts with the source code and an arrow. *)
Theorem find_rate_sources_text self graph frm to now rate path as_of :
  frm ≠ to → _find_rate self graph frm to now = Ok (rate, path, as_of) →
  ∃ rest, _sources_to_text path = frm +:+ "->" +:+ rest.
Proof.
  intros Hne Hfind.
  destruct (_find_rate_spec self graph frm to now Hne)
    as [(route & Hroute & _ & _ & _ & Hok)|[_ Hraise]]; [|congruence].
  rewrite Hok in Hfind. injection Hfind as _ <- _.
  destruct route as [|e route]; [done|]. destruct Hroute as (<- & _ & _).
  unfold _sources_to_text, hops_of. rewrite fmap_cons. cbn [fmap list_fmap].
  destruct route as [|e' route'].
  - eexists. reflexivity.
  - rewrite fmap_cons join_cons //. unfold hop_text at 1. cbn [fst snd].
    rewrite !append_assoc. eexists. reflexivity.
Qed.

Lemma find_rate_sources_text_witness :
  ∃ rest, _sources_to_text (RateResult.path Scenario.usd_eur) = "USD" +:+ "->" +:+ rest.
Proof.
  apply (find_rate_sources_text Scenario.service
           (graph_of Scenario.cbr Scenario.nbu Scenario.bnc) "USD" "EUR" Scenario.now
           (RateResult.rate Scenario.usd_eur) (RateResult.path Scenario.usd_eur)
           Scenario.now); [done|vm_compute; reflexivity].
Defined.

(** X12. [_sources_to_text] yields the empty text exactly for the empty
    path; the text of one hop is [from->to(source)], and the text of two
    paths put end to end is their texts joined by [" | "]. *)
Theorem sources_to_text_laws :
  (∀ path, _sources_to_text path = "" ↔ path = []) ∧
  (∀ h, _sources_to_text [h] = hop_text h) ∧
  (∀ path1 path2, path1 ≠ [] → path2 ≠ [] →
     _sources_to_text (path1 ++ path2)
       = _sources_to_text path1 +:+ " | " +:+ _sources_to_text path2).
Proof.
  split; [|split].
  - intros path. split; [|by intros ->].
    destruct path as [|h path]; [done|]. intros Hempty.
    apply join_empty in Hempty; [done|].
    intros p (h' & -> & _)%list_elem_of_fmap. apply hop_text_nonempty.
  - done.
  - intros path1 path2 H1 H2.
    destruct path1 as [|h1 path1], path2 as [|h2 path2]; try done.
    change (_sources_to_text ((h1 :: path1) ++ h2 :: path2))
      with (join " | " (hop_text <$> (h1 :: path1) ++ h2 :: path2)).
    change (_sources_to_text (h1 :: path1)) with (join " | " (hop_text <$> h1 :: path1)).
    change (_sources_to_text (h2 :: path2)) with (join " | " (hop_text <$> h2 :: path2)).
    by rewrite fmap_app join_app.
Qed.

(** ** main.py: rounding and reading an amount *)

Lemma round_half_even_nearest (m : positive) (e : Z) :
  (e < 0)%Z → nearest_even (Z.pos m) (2 ^ (- e)) (round_half_even m e).
Proof.
  intros He. unfold round_half_even, nearest_even.
  destruct (Z.leb_spec 0 e) as [|_]; [lia|].
  assert (0 < 2 ^ (- e))%Z as Hd by (apply Z.pow_pos_nonneg; lia).
  generalize dependent (2 ^ (- e))%Z. intros d Hd.
  pose proof (Z.div_mod (Z.pos m) d ltac:(lia)) as Hdiv.
  pose proof (Z.mod_pos_bound (Z.pos m) d Hd) as Hmod.
  generalize dependent (Z.pos m / d)%Z. intros q.
  generalize dependent (Z.pos m mod d)%Z. intros r Hr Hdiv. cbv zeta.
  destruct (Z.ltb_spec (2 * r) d) as [Hlt|Hge].
  { split; [nia|]. intros [H|H]; nia. }
  destruct (Z.ltb_spec d (2 * r)) as [Hgt|Hle].
  { split; [nia|]. intros [H|H]; nia. }
  assert (2 * r = d)%Z as Htie by lia.
  destruct (Z.even q) eqn:Heven.
  - split; [nia|]. done.
  - split; [nia|]. intros _. rewrite Z.even_add Heven. done.
Qed.

(** X13. [_round_money_no_cents] returns an integer nearest to its argument,
    the even one of the two when the argument lies half-way between them: for
    a finite float [±m * 2^e] the integer itself when [e] is not negative, and
    otherwise [±n] with [n] nearest to [m / 2^-e]. A zero rounds to 0; on an
    infinity it raises [OverflowError] and on a NaN [ValueError]. *)
Theorem round_money_no_cents_nearest x :
  match Prim2SF x with
  | S754_zero _ => _round_money_no_cents x = Ok 0%Z
  | S754_finite s m e =>
      ∃ n, _round_money_no_cents x = Ok (if s then (- n)%Z else n) ∧ (0 ≤ n)%Z ∧
        ((0 ≤ e)%Z → n = (Z.pos m * 2 ^ e)%Z) ∧
        ((e < 0)%Z → nearest_even (Z.pos m) (2 ^ (- e)) n)
  | S754_infinity _ =>
      _round_money_no_cents x
        = Raise (OtherError "OverflowError" "cannot convert float infinity to integer")
  | S754_nan =>
      _round_money_no_cents x
        = Raise (OtherError "ValueError" "cannot convert float NaN to integer")
  end.
Proof.
  unfold _round_money_no_cents, py_round.
  destruct (Prim2SF x) as [s|s| |s m e]; try done.
  exists (round_half_even m e). split; [done|]. split; [|split].
  - unfold round_half_even. destruct (Z.leb_spec 0 e); [lia|]. cbv zeta.
    assert (0 < 2 ^ (- e))%Z as Hd by (apply Z.pow_pos_nonneg; lia).
    pose proof (Z.div_pos (Z.pos m) (2 ^ (- e)) ltac:(lia) Hd).
    repeat case_match; lia.
  - intros He. unfold round_half_even. by destruct (Z.leb_spec 0 e); [|lia].
  - apply round_half_even_nearest.
Qed.

(** Halves round to the even neighbour. *)
Lemma round_money_no_cents_halves :
  _round_money_no_cents 0.5 = Ok 0%Z ∧ _round_money_no_cents 1.5 = Ok 2%Z ∧
  _round_money_no_cents 2.5 = Ok 2%Z ∧ _round_money_no_cents (-3.5) = Ok (-4)%Z ∧
  _round_money_no_cents 1500.49 = Ok 1500%Z.
Proof. repeat split; vm_compute; reflexivity. Qed.

Lemma rstrip_head c s : rstrip (String c s) ≠ "" → ∃ r, rstrip (String c s) = String c r.
Proof. simpl. destruct (rstrip s); [destruct (is_space c)|]; eauto; done. Qed.

Lemma rstrip_idemp s : rstrip (rstrip s) = rstrip s.
Proof.
  induction s as [|c s IH]; [done|]. simpl.
  destruct (rstrip s) as [|d r] eqn:Hr.
  - destruct (is_space c) eqn:Hc; [done|]. by rewrite /= Hc.
  - simpl. simpl in IH. destruct (rstrip r) as [|d' r'] eqn:Hr'.
    + destruct (is_space d) eqn:Hd; [done|]. by rewrite IH.
    + by rewrite IH.
Qed.

Lemma lstrip_fixed s :
  lstrip s = s ↔ match s with String c _ => is_space c = false | EmptyString => True end.
Proof.
  destruct s as [|c s]; [done|]. simpl. destruct (is_space c) eqn:Hc; [|done].
  split; [|done]. intros Heq.
  assert (∀ t, String.length (lstrip t) ≤ String.length t) as Hlen.
  { induction t as [|d t IHt]; [done|]. simpl. destruct (is_space d); simpl; lia. }
  specialize (Hlen s). rewrite Heq /= in Hlen. lia.
Qed.

Lemma lstrip_idemp s : lstrip (lstrip s) = lstrip s.
Proof.
  induction s as [|c s IH]; [done|]. simpl.
  destruct (is_space c) eqn:Hc; [done|]. by rewrite /= Hc.
Qed.

Lemma strip_idemp s : strip (strip s) = strip s.
Proof.
  unfold strip.
  assert (lstrip (rstrip (lstrip s)) = rstrip (lstrip s)) as ->; [|apply rstrip_idemp].
  pose proof (lstrip_idemp s) as Hl. apply lstrip_fixed in Hl. apply lstrip_fixed.
  destruct (lstrip s) as [|c t]; [done|].
  destruct (rstrip (String c t)) as [|c' r] eqn:Hr; [done|].
  destruct (rstrip_head c t) as [r' Hr']; [by rewrite Hr|]. congruence.
Qed.

Lemma float_positive_or_nan (v : float) :
  PrimFloat.leb v 0 = false → PrimFloat.ltb 0 v = true ∨ Prim2SF v = S754_nan.
Proof.
  rewrite leb_spec ltb_spec. change (Prim2SF 0) with (S754_zero false).
  destruct (Prim2SF v) as [[]|[]| |[] m e]; simpl; auto; done.
Qed.

(** X14. An amount [_parse_amount] returns is what [float] reads in the
    cleaned text and is never zero or negative: it is above zero, or it is a
    NaN (on which the test [v <= 0] is false). *)
Theorem parse_amount_positive py_float text v :
  _parse_amount py_float text = Some v →
  py_float (amount_text text) = Some v ∧
  PrimFloat.leb v 0 = false ∧
  (PrimFloat.ltb 0 v = true ∨ Prim2SF v = S754_nan).
Proof.
  unfold _parse_amount. destruct (py_float (amount_text text)) as [x|]; [|done].
  destruct (PrimFloat.leb x 0) eqn:Hle; [done|]. intros [= <-].
  split; [done|]. split; [done|]. by apply float_positive_or_nan.
Qed.

Lemma parse_amount_positive_witness :
  _parse_amount numeral_float " 1 500 " = Some 1500%float ∧
  PrimFloat.leb 1500 0 = false.
Proof.
  assert (_parse_amount numeral_float " 1 500 " = Some 1500%float) as Hparse
    by (vm_compute; reflexivity).
  destruct (parse_amount_positive numeral_float " 1 500 " 1500%float Hparse)
    as (_ & Hle & _).
  split; [exact Hparse|exact Hle].
Defined.

Section amount_text.
Local Abbreviation rm := (replace_char " " "").
Local Abbreviation cm := (replace_char "," ".").

Lemma rm_cons c s : rm (String c s) = if decide (c = " "%char) then rm s else String c (rm s).
Proof. simpl. by destruct (decide (c = " "%char)). Qed.

Lemma cm_cons c s :
  cm (String c s) = String (if decide (c = ","%char) then "."%char else c) (cm s).
Proof. simpl. by destruct (decide (c = ","%char)). Qed.

Lemma is_space_space c : c = " "%char → is_space c = true.
Proof. by intros ->. Qed.

Lemma lstrip_rm s : lstrip (rm s) = rm (lstrip s).
Proof.
  induction s as [|c s IH]; [done|]. rewrite rm_cons. simpl.
  destruct (decide (c = " "%char)) as [->|Hc]; [done|].
  simpl. destruct (is_space c); [done|]. by rewrite rm_cons decide_False.
Qed.

Lemma rstrip_rm_nonempty s : rstrip s ≠ "" → rm (rstrip s) ≠ "".
Proof.
  induction s as [|c s IH]; [done|]. simpl.
  destruct (rstrip s) as [|d r] eqn:Hr.
  - destruct (is_space c) eqn:Hc; [done|]. intros _. rewrite rm_cons.
    destruct (decide (c = " "%char)) as [->|]; done.
  - intros _. rewrite rm_cons. destruct (decide (c = " "%char)); [by apply IH|done].
Qed.

Lemma rstrip_rm s : rstrip (rm s) = rm (rstrip s).
Proof.
  induction s as [|c s IH]; [done|]. rewrite rm_cons. simpl.
  destruct (decide (c = " "%char)) as [->|Hc].
  - rewrite IH. destruct (rstrip s) as [|d r] eqn:Hr; [done|]. by rewrite rm_cons.
  - simpl. rewrite IH. destruct (rstrip s) as [|d r] eqn:Hr.
    + change (rm "") with EmptyString. destruct (is_space c); [done|].
      by rewrite rm_cons decide_False.
    + pose proof (rstrip_rm_nonempty s) as Hne. rewrite Hr in Hne.
      destruct (rm (String d r)) as [|d' r'] eqn:Hrm; [by destruct Hne|].
      by rewrite rm_cons decide_False // Hrm.
Qed.

Lemma rm_idemp s : rm (rm s) = rm s.
Proof.
  induction s as [|c s IH]; [done|]. rewrite rm_cons.
  destruct (decide (c = " "%char)); [done|]. by rewrite rm_cons decide_False // IH.
Qed.

Lemma is_space_comma c :
  is_space (if decide (c = ","%char) then "."%char else c) = is_space c.
Proof. by destruct (decide (c = ","%char)) as [->|]. Qed.

Lemma lstrip_cm s : lstrip (cm s) = cm (lstrip s).
Proof.
  induction s as [|c s IH]; [done|]. rewrite cm_cons. simpl. rewrite is_space_comma.
  destruct (is_space c); [done|]. by rewrite cm_cons.
Qed.

Lemma rstrip_cm s : rstrip (cm s) = cm (rstrip s).
Proof.
  induction s as [|c s IH]; [done|]. rewrite cm_cons. simpl. rewrite IH is_space_comma.
  destruct (rstrip s) as [|d r] eqn:Hr.
  - change (cm "") with EmptyString. destruct (is_space c); [done|]. by rewrite cm_cons.
  - by rewrite !cm_cons.
Qed.

Lemma rm_cm s : rm (cm s) = cm (rm s).
Proof.
  induction s as [|c s IH]; [done|]. rewrite cm_cons !rm_cons.
  destruct (decide (c = ","%char)) as [->|Hc].
  - simpl. by rewrite IH.
  - destruct (decide (c = " "%char)); [done|]. rewrite cm_cons IH.
    by destruct (decide (c = ","%char)).
Qed.

Lemma cm_idemp s : cm (cm s) = cm s.
Proof.
  induction s as [|c s IH]; [done|]. rewrite !cm_cons IH.
  destruct (decide (c = ","%char)) as [->|Hc]; simpl; [done|by rewrite decide_False].
Qed.

Lemma amount_text_spaces text : amount_text (rm text) = amount_text text.
Proof. by rewrite /amount_text /strip lstrip_rm rstrip_rm rm_idemp. Qed.

Lemma amount_text_commas text : amount_text (cm text) = amount_text text.
Proof. by rewrite /amount_text /strip lstrip_cm rstrip_cm rm_cm cm_idemp. Qed.

Lemma amount_text_clean text :
  contains_char " " (amount_text text) = false ∧
  contains_char "," (amount_text text) = false.
Proof.
  unfold amount_text. generalize (strip text). intros s. split.
  - induction s as [|c s IH]; [done|]. rewrite rm_cons.
    destruct (decide (c = " "%char)); [done|]. rewrite cm_cons. simpl.
    destruct (decide (c = ","%char)) as [->|]; [done|]. by rewrite decide_False.
  - induction s as [|c s IH]; [done|]. rewrite rm_cons.
    destruct (decide (c = " "%char)); [done|]. rewrite cm_cons. simpl.
    destruct (decide (c = ","%char)) as [->|]; [done|]. by rewrite decide_False.
Qed.

End amount_text.

(** X15. [_parse_amount] ignores spaces and surrounding white space and
    reads a comma as a decimal point: the text without its spaces, with its
    commas turned into points, or stripped, is read like the text itself, and
    [float] is never given a space or a comma. *)
Theorem parse_amount_separators py_float text :
  _parse_amount py_float (replace_char " " "" text) = _parse_amount py_float text ∧
  _parse_amount py_float (replace_char "," "." text) = _parse_amount py_float text ∧
  _parse_amount py_float (strip text) = _parse_amount py_float text ∧
  contains_char " " (amount_text text) = false ∧
  contains_char "," (amount_text text) = false.
Proof.
  unfold _parse_amount. rewrite amount_text_spaces amount_text_commas.
  split; [done|]. split; [done|]. split; [|apply amount_text_clean].
  by rewrite /amount_text strip_idemp.
Qed.

(** ** keyboards.py: the currency keyboard *)

Lemma after_colon_prefix prefix v :
  contains_char ":" prefix = false → after_colon (prefix +:+ ":" +:+ v) = Some v.
Proof.
  induction prefix as [|c prefix IH]; [done|]. intros Hfree.
  unfold String.append; fold String.append. simpl in *.
  destruct (decide (c = ":"%char)); [done|]. by apply IH.
Qed.

Lemma kbd_choose_currency_rows prefix exclude :
  ∃ rows,
    kbd_choose_currency prefix exclude = rows ++ [[back_button]] ∧
    concat rows
      = currency_button prefix <$> filter (λ c, excluded exclude c = false) CURRENCIES ∧
    Forall (λ row, 1 ≤ length row ≤ 3) rows ∧
    (∀ i row, rows !! i = Some row → S i < length rows → length row = 3).
Proof.
  unfold kbd_choose_currency, CURRENCIES. cbn [foldl]. unfold kbd_step.
  destruct (excluded exclude "USD") eqn:E1, (excluded exclude "EUR") eqn:E2,
    (excluded exclude "UAH") eqn:E3, (excluded exclude "RUB") eqn:E4,
    (excluded exclude "USDT") eqn:E5;
    rewrite !filter_cons filter_nil ?E1 ?E2 ?E3 ?E4 ?E5; simpl;
    (match goal with |- ∃ rows, ?L = _ ∧ _ => exists (removelast L) end);
    (split; [reflexivity|]); (split; [reflexivity|]);
    (split; [repeat constructor|]);
    intros [|[|i]] row Hrow Hlen; simpl in *; simplify_eq; try lia; reflexivity.
Qed.

Lemma elem_of_concat {A} (x : A) (ls : list (list A)) :
  x ∈ concat ls ↔ ∃ l, l ∈ ls ∧ x ∈ l.
Proof.
  induction ls as [|l ls IH]; simpl.
  - split; [by intros ?%elem_of_nil|by intros (? & ?%elem_of_nil & _)].
  - rewrite elem_of_app IH. split.
    + intros [?|(l' & ? & ?)]; [exists l|exists l']; set_solver.
    + intros (l' & [->|?]%elem_of_cons & ?); [by left|right; by exists l'].
Qed.

(** X16. The keyboard of [kbd_choose_currency] consists of rows of
    currency buttons followed by one row with the back button. In reading
    order the currency buttons are those of [CURRENCIES] without the excluded
    code, each with the callback data [prefix:code]; no row is empty or has
    more than three buttons, and every row but the last of them has three. *)
Theorem kbd_choose_currency_layout prefix exclude :
  ∃ rows,
    kbd_choose_currency prefix exclude = rows ++ [[back_button]] ∧
    concat rows
      = currency_button prefix <$> filter (λ c, excluded exclude c = false) CURRENCIES ∧
    Forall (λ row, 1 ≤ length row ≤ 3) rows ∧
    (∀ i row, rows !! i = Some row → S i < length rows → length row = 3).
Proof. apply kbd_choose_currency_rows. Qed.

(** X17. What the callback handlers read from a button of the keyboard: for
    a prefix without a colon, every button other than the back button carries
    a callback data whose value after the first colon is the text of the
    button, a code of [CURRENCIES] that is not the excluded one. *)
Theorem kbd_choose_currency_round_trip prefix exclude row b :
  contains_char ":" prefix = false →
  row ∈ kbd_choose_currency prefix exclude → b ∈ row →
  b = back_button ∨
  (callback_value (InlineKeyboardButton.callback_data b)
     = Ok (InlineKeyboardButton.text b) ∧
   InlineKeyboardButton.text b ∈ CURRENCIES ∧
   exclude ≠ Some (InlineKeyboardButton.text b)).
Proof.
  intros Hprefix Hrow Hb.
  destruct (kbd_choose_currency_rows prefix exclude) as (rows & Heq & Hrows & _).
  rewrite Heq in Hrow. apply elem_of_app in Hrow as [Hrow|Hrow];
    [|apply list_elem_of_singleton in Hrow as ->; left;
      by apply list_elem_of_singleton in Hb].
  right.
  assert (b ∈ concat rows) as Hin by (apply elem_of_concat; eauto).
  rewrite Hrows in Hin. apply list_elem_of_fmap in Hin as (c & -> & Hc).
  apply list_elem_of_filter in Hc as [Hkept Hc]. simpl.
  split; [by rewrite /callback_value after_colon_prefix|]. split; [done|].
  intros ->. simpl in Hkept. destruct (decide (c = "")) as [->|_].
  - unfold CURRENCIES in Hc. repeat (apply elem_of_cons in Hc as [[=]|Hc]).
    by apply elem_of_nil in Hc.
  - by rewrite bool_decide_eq_true_2 in Hkept.
Qed.

Lemma kbd_choose_currency_round_trip_witness :
  kbd_choose_currency "get" (Some "USD")
    = [[currency_button "get" "EUR"; currency_button "get" "UAH";
        currency_button "get" "RUB"]; [currency_button "get" "USDT"]; [back_button]] ∧
  (currency_button "get" "UAH" = back_button ∨
   (callback_value "get:UAH" = Ok "UAH" ∧ "UAH" ∈ CURRENCIES ∧ Some "USD" ≠ Some "UAH")).
Proof.
  split; [vm_compute; reflexivity|].
  apply (kbd_choose_currency_round_trip "get" (Some "USD")
           [currency_button "get" "EUR"; currency_button "get" "UAH";
            currency_button "get" "RUB"] (currency_button "get" "UAH"));
    [vm_compute; reflexivity|vm_compute; left|set_solver].
Defined.

(** ** config.py: the configuration loader *)

Lemma upper_nonempty s : upper s = "" → s = "".
Proof. by destruct s. Qed.

(** X18. A configuration [load_config] returns holds the stripped token and
    database URL, neither of them empty, the administrator id [int] reads in
    [ADMIN_ID], the time to live 600 when [RATE_CACHE_TTL_SECONDS] is unset or
    blank and the number [int] reads in it otherwise, and a log level that is
    not empty and is in upper case. *)
Theorem load_config_loaded py_int env cfg :
  load_config py_int env = Ok cfg →
  Config.bot_token cfg = strip (getenv env "BOT_TOKEN" "") ∧
  Config.database_url cfg = strip (getenv env "DATABASE_URL" "") ∧
  Config.bot_token cfg ≠ "" ∧ Config.database_url cfg ≠ "" ∧
  strip (Config.bot_token cfg) = Config.bot_token cfg ∧
  strip (Config.database_url cfg) = Config.database_url cfg ∧
  py_int (strip (getenv env "ADMIN_ID" "")) = Some (Config.admin_id cfg) ∧
  (blank env "RATE_CACHE_TTL_SECONDS" → Config.rate_cache_ttl_seconds cfg = 600%Z) ∧
  (¬ blank env "RATE_CACHE_TTL_SECONDS" →
   py_int (strip (getenv env "RATE_CACHE_TTL_SECONDS" ""))
     = Some (Config.rate_cache_ttl_seconds cfg)) ∧
  Config.log_level cfg ≠ "" ∧
  upper (Config.log_level cfg) = Config.log_level cfg.
Proof.
  unfold load_config, _get_int_env, blank. intros Hload.
  destruct (decide (strip (getenv env "BOT_TOKEN" "") = "")) as [|Htoken]; [done|].
  destruct (decide (strip (getenv env "DATABASE_URL" "") = "")) as [|Hurl]; [done|].
  destruct (decide (strip (getenv env "ADMIN_ID" "") = "")) as [|Hadmin]; [done|].
  destruct (py_int (strip (getenv env "ADMIN_ID" ""))) as [admin|] eqn:Hint; [|done].
  simpl in Hload.
  destruct (decide (strip (getenv env "RATE_CACHE_TTL_SECONDS" "") = "")) as [Httl|Httl];
    [|destruct (py_int (strip (getenv env "RATE_CACHE_TTL_SECONDS" ""))) as [ttl|] eqn:Hint';
      [|done]];
    simpl in Hload; injection Hload as <-; simpl; rewrite !strip_idemp;
    (repeat split; try done);
    destruct (decide (upper (strip (getenv env "LOG_LEVEL" "INFO")) = "")); try done;
    by rewrite upper_idemp.
Qed.

Lemma load_config_loaded_witness :
  load_config numeral env_minimal
    = Ok (Config.mk "123:abc" 42 "postgres://u@h/db" 600 "INFO") ∧
  strip "123:abc" = "123:abc" ∧ numeral (strip "42") = Some 42%Z.
Proof.
  assert (load_config numeral env_minimal
            = Ok (Config.mk "123:abc" 42 "postgres://u@h/db" 600 "INFO")) as Hload
    by (vm_compute; reflexivity).
  destruct (load_config_loaded numeral env_minimal _ Hload)
    as (_ & _ & _ & _ & Hstrip & _ & Hadmin & _).
  split; [exact Hload|]. split; [exact Hstrip|]. vm_compute. reflexivity.
Defined.

(** X19. [load_config] raises only [RuntimeError], with the message of the
    first setting at fault in the order BOT_TOKEN, DATABASE_URL, ADMIN_ID,
    RATE_CACHE_TTL_SECONDS: "... is not set" for a blank required one,
    "... must be an integer" for one [int] cannot read. LOG_LEVEL never makes
    it raise. *)
Theorem load_config_errors py_int env e :
  load_config py_int env = Raise e →
  ∃ msg, e = RuntimeError msg ∧
    ((blank env "BOT_TOKEN" ∧ msg = "BOT_TOKEN is not set") ∨
     (¬ blank env "BOT_TOKEN" ∧ blank env "DATABASE_URL" ∧
      msg = "DATABASE_URL is not set") ∨
     (¬ blank env "BOT_TOKEN" ∧ ¬ blank env "DATABASE_URL" ∧
      ((blank env "ADMIN_ID" ∧ msg = "ADMIN_ID is not set") ∨
       (¬ blank env "ADMIN_ID" ∧ py_int (strip (getenv env "ADMIN_ID" "")) = None ∧
        msg = "ADMIN_ID must be an integer") ∨
       (¬ blank env "ADMIN_ID" ∧ is_Some (py_int (strip (getenv env "ADMIN_ID" ""))) ∧
        ¬ blank env "RATE_CACHE_TTL_SECONDS" ∧
        py_int (strip (getenv env "RATE_CACHE_TTL_SECONDS" "")) = None ∧
        msg = "RATE_CACHE_TTL_SECONDS must be an integer")))).
Proof.
  unfold load_config, _get_int_env, blank. intros Hload.
  destruct (decide (strip (getenv env "BOT_TOKEN" "") = "")) as [|Htoken].
  { injection Hload as <-. eexists. split; [done|]. by left. }
  destruct (decide (strip (getenv env "DATABASE_URL" "") = "")) as [|Hurl].
  { injection Hload as <-. eexists. split; [done|]. right. by left. }
  destruct (decide (strip (getenv env "ADMIN_ID" "") = "")) as [|Hadmin].
  { injection Hload as <-. eexists. split; [done|]. right. right. naive_solver. }
  destruct (py_int (strip (getenv env "ADMIN_ID" ""))) as [admin|] eqn:Hint; simpl in Hload;
    [|injection Hload as <-; eexists; split; [done|]; right; right; naive_solver].
  destruct (decide (strip (getenv env "RATE_CACHE_TTL_SECONDS" "") = "")) as [Httl|Httl];
    [done|].
  destruct (py_int (strip (getenv env "RATE_CACHE_TTL_SECONDS" ""))) as [ttl|] eqn:Hint';
    [done|].
  injection Hload as <-. eexists. split; [done|]. right. right.
  split; [done|]. split; [done|]. right. right. by eauto.
Qed.

Lemma load_config_errors_witness :
  ∃ msg, load_config numeral env_bad_admin = Raise (RuntimeError msg) ∧
    msg = "ADMIN_ID must be an integer".
Proof.
  assert (load_config numeral env_bad_admin
            = Raise (RuntimeError "ADMIN_ID must be an integer")) as Hload
    by (vm_compute; reflexivity).
  destruct (load_config_errors numeral env_bad_admin _ Hload) as (msg & Hmsg & _).
  injection Hmsg as <-. eexists. split; [exact Hload|reflexivity].
Defined.

(** X20. [load_config] returns a configuration whenever the token, the
    database URL and the administrator id are set, the id is an integer and
    the time to live is blank or an integer; a blank time to live gives 600
    seconds, an unset or blank log level gives INFO. *)
Theorem load_config_returns py_int env admin :
  ¬ blank env "BOT_TOKEN" → ¬ blank env "DATABASE_URL" → ¬ blank env "ADMIN_ID" →
  py_int (strip (getenv env "ADMIN_ID" "")) = Some admin →
  blank env "RATE_CACHE_TTL_SECONDS" ∨
    is_Some (py_int (strip (getenv env "RATE_CACHE_TTL_SECONDS" ""))) →
  ∃ cfg, load_config py_int env = Ok cfg ∧
    Config.admin_id cfg = admin ∧
    (blank env "RATE_CACHE_TTL_SECONDS" → Config.rate_cache_ttl_seconds cfg = 600%Z) ∧
    (blank env "LOG_LEVEL" ∨ env !! "LOG_LEVEL" = None → Config.log_level cfg = "INFO").
Proof.
  unfold load_config, _get_int_env, blank. intros Htoken Hurl Hadmin Hint Httl.
  destruct (decide (strip (getenv env "BOT_TOKEN" "") = "")) as [|_]; [done|].
  destruct (decide (strip (getenv env "DATABASE_URL" "") = "")) as [|_]; [done|].
  destruct (decide (strip (getenv env "ADMIN_ID" "") = "")) as [|_]; [done|].
  rewrite Hint /=.
  assert (∀ ttl, ∃ cfg,
    Ok (Config.mk (strip (getenv env "BOT_TOKEN" "")) admin
          (strip (getenv env "DATABASE_URL" "")) ttl
          (if decide (upper (strip (getenv env "LOG_LEVEL" "INFO")) = "") then "INFO"
           else upper (strip (getenv env "LOG_LEVEL" "INFO")))) = Ok cfg ∧
    Config.admin_id cfg = admin ∧ Config.rate_cache_ttl_seconds cfg = ttl ∧
    (strip (getenv env "LOG_LEVEL" "") = "" ∨ env !! "LOG_LEVEL" = None →
     Config.log_level cfg = "INFO")) as Hcfg.
  { intros ttl. eexists. split; [done|]. split; [done|]. split; [done|]. simpl.
    intros Hlevel. destruct (decide _) as [|Hne]; [done|].
    unfold getenv in *. destruct (env !! "LOG_LEVEL") as [l|] eqn:Hl; simpl in *;
      [|by vm_compute].
    destruct Hlevel as [Hblank|]; [|done]. by rewrite Hblank in Hne. }
  destruct (decide (strip (getenv env "RATE_CACHE_TTL_SECONDS" "") = "")) as [Hblank|Hset].
  - destruct (Hcfg 600%Z) as (cfg & Heq & ? & ? & ?). exists cfg.
    split; [exact Heq|]. by repeat split.
  - destruct Httl as [|[ttl Hint']]; [done|]. rewrite Hint'.
    destruct (Hcfg ttl) as (cfg & Heq & ? & ? & ?). exists cfg.
    split; [exact Heq|]. by repeat split.
Qed.

Lemma load_config_returns_witness :
  ∃ cfg, load_config numeral env_minimal = Ok cfg ∧
    Config.admin_id cfg = 42%Z.
Proof.
  destruct (load_config_returns numeral env_minimal 42) as (cfg & Hcfg & Hadmin & _);
    [vm_compute; discriminate|vm_compute; discriminate|vm_compute; discriminate
    |vm_compute; reflexivity|left; vm_compute; reflexivity|].
  by exists cfg.
Defined.

(** ** db.py: the database URL *)

Lemma startswith_append p rest : startswith (p +:+ rest) p = true.
Proof.
  induction p as [|c p IH]; [done|].
  change (String c p +:+ rest) with (String c (p +:+ rest)).
  by rewrite /= decide_True.
Qed.

Lemma startswith_split s p :
  startswith s p = true → s = p +:+ string_drop (String.length p) s.
Proof.
  revert s. induction p as [|c p IH]; intros [|d s] H; try done.
  simpl in H. destruct (decide (c = d)) as [->|]; [|done].
  change (String d p +:+ ?x) with (String d (p +:+ x)). simpl. f_equal. by apply IH.
Qed.

Lemma string_drop_append p rest : string_drop (String.length p) (p +:+ rest) = rest.
Proof. induction p as [|c p IH]; [done|]. exact IH. Qed.

Lemma replace_first_prefix old new rest :
  replace_first old new (old +:+ rest) = new +:+ rest.
Proof.
  destruct (old +:+ rest) as [|c s] eqn:Heq; simpl;
    rewrite -Heq startswith_append string_drop_append //.
Qed.

Lemma to_async_database_url_scheme rest :
  to_async_database_url ("postgresql://" +:+ rest) = "postgresql+asyncpg://" +:+ rest ∧
  to_async_database_url ("postgres://" +:+ rest) = "postgresql+asyncpg://" +:+ rest ∧
  to_async_database_url ("postgresql+asyncpg://" +:+ rest)
    = "postgresql+asyncpg://" +:+ rest.
Proof.
  unfold to_async_database_url. rewrite !replace_first_prefix.
  rewrite !startswith_append. repeat split; reflexivity.
Qed.

(** X21. [to_async_database_url] turns the scheme [postgresql://] or
    [postgres://] at the start of a URL into [postgresql+asyncpg://] and keeps
    the rest of the URL, later occurrences of the scheme included; a URL that
    has the asyncpg scheme already is returned as it is. *)
Theorem to_async_database_url_schemes rest :
  to_async_database_url ("postgresql://" +:+ rest) = "postgresql+asyncpg://" +:+ rest ∧
  to_async_database_url ("postgres://" +:+ rest) = "postgresql+asyncpg://" +:+ rest ∧
  to_async_database_url ("postgresql+asyncpg://" +:+ rest)
    = "postgresql+asyncpg://" +:+ rest.
Proof.
  unfold to_async_database_url. rewrite !replace_first_prefix.
  rewrite !startswith_append. repeat split; reflexivity.
Qed.

(** X22. [to_async_database_url] is idempotent; its result is its argument
    or starts with [postgresql+asyncpg://], and a URL that starts with
    neither [postgresql://] nor [postgres://] is returned unchanged. *)
Theorem to_async_database_url_idempotent url :
  to_async_database_url (to_async_database_url url) = to_async_database_url url ∧
  (to_async_database_url url = url ∨
   startswith (to_async_database_url url) "postgresql+asyncpg://" = true) ∧
  (startswith url "postgresql://" = false → startswith url "postgres://" = false →
   to_async_database_url url = url).
Proof.
  destruct (startswith url "postgresql+asyncpg://") eqn:H1.
  { assert (to_async_database_url url = url) as Heq
      by (by rewrite /to_async_database_url H1).
    rewrite !Heq. auto. }
  destruct (startswith url "postgresql://") eqn:H2.
  { apply startswith_split in H2. revert H1 H2.
    generalize (string_drop (String.length "postgresql://") url). intros rest H1 ->.
    destruct (to_async_database_url_scheme rest) as (-> & _ & Hfix).
    split; [done|]. split; [right; apply startswith_append|done]. }
  destruct (startswith url "postgres://") eqn:H3.
  { apply startswith_split in H3. revert H1 H2 H3.
    generalize (string_drop (String.length "postgres://") url). intros rest H1 H2 ->.
    destruct (to_async_database_url_scheme rest) as (_ & -> & Hfix).
    split; [done|]. split; [right; apply startswith_append|done]. }
  assert (to_async_database_url url = url) as Heq
    by (by rewrite /to_async_database_url H1 H2 H3).
  rewrite !Heq. auto.
Qed.

(** ** repository.py: users and orders *)

(** X23. After [upsert_user] the table holds a row for the Telegram id with
    the profile fields of the Telegram user and the current time as last-seen
    instant; the row keeps the creation instant and the block flag it had, or
    gets the current time and [False] when it is new. No other user row and
    no order is touched, and rows stay under their own keys. *)
Theorem upsert_user_row now tg db :
  let db' := upsert_user now tg db in
  (∃ u, users db' !! TgUser.id tg = Some u ∧
     User.username u = TgUser.username tg ∧ User.first_name u = TgUser.first_name tg ∧
     User.last_name u = TgUser.last_name tg ∧
     User.language_code u = TgUser.language_code tg ∧
     User.last_seen_at u = now ∧
     User.created_at u
       = default now (User.created_at <$> users db !! TgUser.id tg) ∧
     User.is_blocked u
       = default false (User.is_blocked <$> users db !! TgUser.id tg)) ∧
  (∀ k, k ≠ TgUser.id tg → users db' !! k = users db !! k) ∧
  dom (users db') = {[TgUser.id tg]} ∪ dom (users db) ∧
  orders db' = orders db ∧
  (keyed db → keyed db').
Proof.
  intros db'. subst db'. unfold upsert_user.
  destruct (users db !! TgUser.id tg) as [existing|] eqn:Hget; simpl.
  - split; [eexists; split; [apply lookup_insert_eq|done]|].
    split; [intros k Hk; by rewrite lookup_insert_ne|].
    split; [by rewrite dom_insert_L|]. split; [done|].
    intros [Hu Ho]. split; [|done]. intros k u. simpl.
    destruct (decide (k = TgUser.id tg)) as [->|Hk].
    + rewrite lookup_insert_eq. intros [= <-]. simpl. by apply Hu.
    + rewrite lookup_insert_ne //. apply Hu.
  - split; [eexists; split; [apply lookup_insert_eq|done]|].
    split; [intros k Hk; by rewrite lookup_insert_ne|].
    split; [by rewrite dom_insert_L|]. split; [done|].
    intros [Hu Ho]. split; [|done]. intros k u. simpl.
    destruct (decide (k = TgUser.id tg)) as [->|Hk].
    + rewrite lookup_insert_eq. by intros [= <-].
    + rewrite lookup_insert_ne //. apply Hu.
Qed.

Lemma upsert_user_lookup now tg db :
  users (upsert_user now tg db) !! TgUser.id tg =
    Some (User.mk (default (TgUser.id tg) (User.user_id <$> users db !! TgUser.id tg))
            (TgUser.username tg) (TgUser.first_name tg) (TgUser.last_name tg)
            (TgUser.language_code tg)
            (default now (User.created_at <$> users db !! TgUser.id tg)) now
            (default false (User.is_blocked <$> users db !! TgUser.id tg))).
Proof.
  unfold upsert_user.
  destruct (users db !! TgUser.id tg) as [existing|]; simpl; by rewrite lookup_insert_eq.
Qed.

Lemma upsert_user_idemp now tg db :
  upsert_user now tg (upsert_user now tg db) = upsert_user now tg db.
Proof.
  pose proof (upsert_user_lookup now tg db) as Hrow.
  unfold upsert_user at 1. rewrite Hrow. simpl.
  destruct (upsert_user now tg db) as [us os]. simpl in *. f_equal. by apply insert_id.
Qed.

(** X24. A user who comes back keeps the creation instant and the block
    flag of the first visit; the profile and the last-seen instant are those
    of the last visit, no second row appears, and repeating the last upsert
    changes nothing. *)
Theorem upsert_user_again now1 now2 tg1 tg2 db :
  TgUser.id tg1 = TgUser.id tg2 →
  let db1 := upsert_user now1 tg1 db in
  let db2 := upsert_user now2 tg2 db1 in
  ∃ u1 u2,
    users db1 !! TgUser.id tg1 = Some u1 ∧ users db2 !! TgUser.id tg1 = Some u2 ∧
    User.created_at u2 = User.created_at u1 ∧
    User.is_blocked u2 = User.is_blocked u1 ∧
    User.last_seen_at u2 = now2 ∧
    User.username u2 = TgUser.username tg2 ∧
    dom (users db2) = dom (users db1) ∧
    upsert_user now2 tg2 db2 = db2.
Proof.
  intros Hid db1 db2. subst db1 db2.
  pose proof (upsert_user_lookup now1 tg1 db) as H1.
  pose proof (upsert_user_lookup now2 tg2 (upsert_user now1 tg1 db)) as H2.
  rewrite -Hid H1 /= in H2.
  eexists _, _. split; [exact H1|]. split; [exact H2|]. simpl.
  split; [done|]. split; [done|]. split; [done|]. split; [done|]. split.
  - unfold upsert_user at 1. rewrite -Hid H1 /= dom_insert_L.
    apply elem_of_dom_2 in H1. set_solver.
  - apply upsert_user_idemp.
Qed.

Lemma upsert_user_again_witness :
  ∃ u1 u2,
    users (upsert_user 100 tg_first empty_db) !! 7%Z = Some u1 ∧
    users (upsert_user 200 tg_second (upsert_user 100 tg_first empty_db)) !! 7%Z = Some u2 ∧
    User.created_at u2 = User.created_at u1 ∧ User.last_seen_at u2 = 200%Z.
Proof.
  destruct (upsert_user_again 100 200 tg_first tg_second empty_db eq_refl)
    as (u1 & u2 & H1 & H2 & Hcreated & _ & Hseen & _).
  exists u1, u2. split; [exact H1|]. split; [exact H2|]. split; [exact Hcreated|exact Hseen].
Defined.

(** X25. An order created under a key that is not in use starts in the
    stage "calc"; after [set_order_calc] and [set_order_contact_and_submit] on
    its id it holds the order data, the calculation and the contact, in the
    stage "submitted". The orders that were in the table are as they were,
    the new key is the only one added, and no user row is touched. *)
Theorem order_lifecycle now new_id user_id give get mode amount from_loc to_loc
    rate calculated_give calculated_get sources contact db :
  orders db !! new_id = None →
  let created :=
    create_order now new_id user_id give get mode amount from_loc to_loc db in
  let db2 :=
    set_order_calc (Order.id created.1) rate calculated_give calculated_get sources
      created.2 in
  let db3 := set_order_contact_and_submit (Order.id created.1) contact db2 in
  Order.stage created.1 = "calc" ∧
  orders db2 !! new_id =
    Some (Order.mk new_id user_id give get mode amount from_loc to_loc
            (Some rate) (Some calculated_give) (Some calculated_get) (Some sources)
            None "calc" now) ∧
  orders db3 !! new_id =
    Some (Order.mk new_id user_id give get mode amount from_loc to_loc
            (Some rate) (Some calculated_give) (Some calculated_get) (Some sources)
            (Some contact) "submitted" now) ∧
  (∀ k o, orders db !! k = Some o → orders db3 !! k = Some o) ∧
  dom (orders db3) = {[new_id]} ∪ dom (orders db) ∧
  users db3 = users db.
Proof.
  intros Hfresh created db2 db3. subst created db2 db3.
  unfold create_order, set_order_calc, set_order_contact_and_submit. simpl.
  repeat (rewrite lookup_insert_eq /=).
  split; [done|]. split; [by rewrite ?lookup_insert_eq|].
  split; [by rewrite ?lookup_insert_eq|]. split; [|split; [|done]].
  - intros k o Hk. rewrite !lookup_insert_ne //; congruence.
  - rewrite !dom_insert_L. set_solver.
Qed.

Lemma order_lifecycle_witness :
  orders
    (set_order_contact_and_submit 1 "@ann"
       (set_order_calc 1 0.9 100 90 "USD->RUB(CBR) | RUB->EUR(CBR)"
          (create_order 100 1 7 "USD" "EUR" "give" 100 "Kyiv" "Riga" empty_db).2)) !! 1%Z
  = Some (Order.mk 1 7 "USD" "EUR" "give" 100 "Kyiv" "Riga" (Some 0.9%float)
            (Some 100%float) (Some 90%float) (Some "USD->RUB(CBR) | RUB->EUR(CBR)")
            (Some "@ann") "submitted" 100).
Proof.
  destruct (order_lifecycle 100 1 7 "USD" "EUR" "give" 100 "Kyiv" "Riga" 0.9 100 90
              "USD->RUB(CBR) | RUB->EUR(CBR)" "@ann" empty_db eq_refl)
    as (_ & _ & Hsubmitted & _).
  exact Hsubmitted.
Defined.

(** X26. [set_order_calc] and [set_order_contact_and_submit] on the same
    id commute; on an id that is not in the table each of them changes
    nothing, and neither ever adds or removes an order. *)
Theorem order_updates_commute order_id rate calculated_give calculated_get sources
    contact db :
  set_order_calc order_id rate calculated_give calculated_get sources
    (set_order_contact_and_submit order_id contact db)
  = set_order_contact_and_submit order_id contact
      (set_order_calc order_id rate calculated_give calculated_get sources db) ∧
  (orders db !! order_id = None →
   set_order_calc order_id rate calculated_give calculated_get sources db = db ∧
   set_order_contact_and_submit order_id contact db = db) ∧
  dom (orders (set_order_calc order_id rate calculated_give calculated_get sources db))
    = dom (orders db) ∧
  dom (orders (set_order_contact_and_submit order_id contact db)) = dom (orders db).
Proof.
  unfold set_order_calc, set_order_contact_and_submit.
  destruct (orders db !! order_id) as [order|] eqn:Hget; simpl.
  - rewrite !lookup_insert_eq /= !insert_insert_eq !dom_insert_L.
    apply elem_of_dom_2 in Hget. repeat split; try done; set_solver.
  - by rewrite Hget.
Qed.

(** ** providers.py: reading the payloads *)

(** X27. The inner [get_rate] of [fetch_cbr]: when no [Valute] element has
    the code it raises the not-found [RuntimeError]; otherwise the first
    element with the code decides the outcome alone, whatever comes after
    it. A rate it returns is [Value / Nominal] of an element with that code,
    the value read with its decimal comma as a point, a missing nominal read
    as 1, and the nominal not zero. *)
Theorem cbr_get_rate_first py_float valutes code :
  ((∀ v, v ∈ valutes → valute_code v ≠ code) →
   cbr_get_rate py_float valutes code
     = Raise (RuntimeError ("CBR: currency not found: " +:+ code))) ∧
  (∀ before v after,
     valutes = before ++ v :: after →
     (∀ u, u ∈ before → valute_code u ≠ code) → valute_code v = code →
     cbr_get_rate py_float valutes code = cbr_get_rate py_float [v] code) ∧
  (∀ r, cbr_get_rate py_float valutes code = Ok r →
     ∃ v value nominal,
       v ∈ valutes ∧ valute_code v = code ∧
       py_float (strip (or_text (Valute.Nominal v) "1")) = Some nominal ∧
       py_float (replace_char "," "." (strip (or_text (Valute.Value v) ""))) = Some value ∧
       PrimFloat.eqb nominal 0 = false ∧ r = (value / nominal)%float).
Proof.
  unfold valute_code. split; [|split].
  - induction valutes as [|u valutes IH]; [done|]. intros Hno. simpl.
    rewrite decide_False; [apply Hno; by left|]. apply IH. intros v Hv. apply Hno. by right.
  - intros before v after -> Hbefore Hv.
    induction before as [|u before IH]; simpl.
    + by rewrite !decide_True.
    + rewrite decide_False; [apply Hbefore; by left|].
      apply IH. intros w Hw. apply Hbefore. by right.
  - induction valutes as [|u valutes IH]; [done|]. intros r. simpl.
    destruct (decide (strip (or_text (Valute.CharCode u) "") = code)) as [Hu|Hu].
    + unfold float_of_text.
      destruct (py_float (strip (or_text (Valute.Nominal u) "1"))) as [nominal|] eqn:Hn;
        [|done].
      destruct (py_float (replace_char "," "." (strip (or_text (Valute.Value u) ""))))
        as [value|] eqn:Hval; [|done].
      simpl. intros [Hnz ->]%truediv_inv.
      exists u, value, nominal. split; [by left|]. by repeat split.
    + intros Hr. destruct (IH r Hr) as (v & value & nominal & Hv & Hrest).
      exists v, value, nominal. split; [by right|done].
Qed.

Lemma cbr_get_rate_first_witness :
  cbr_get_rate numeral_float valutes_example "EUR"
    = cbr_get_rate numeral_float [Valute.mk (Some " EUR ") None (Some "98")] "EUR" ∧
  cbr_get_rate numeral_float valutes_example "EUR" = Ok (98 / 1)%float.
Proof.
  split; [|vm_compute; reflexivity].
  apply (proj1 (proj2 (cbr_get_rate_first numeral_float valutes_example "EUR"))
           [Valute.mk (Some "JPY") (Some "100") (Some "61,5")]
           (Valute.mk (Some " EUR ") None (Some "98"))
           [Valute.mk (Some "EUR") (Some "1") (Some "1")]).
  - reflexivity.
  - intros u Hu. apply list_elem_of_singleton in Hu as ->. vm_compute. discriminate.
  - vm_compute. reflexivity.
Defined.

(** X28. The inner [find] of [fetch_nbu]: when no item has the code (its
    [cc] compared in upper case) it raises the not-found [RuntimeError];
    otherwise the first such item decides the outcome alone. A rate it
    returns is the [rate] of an item with that code, and a code that is not
    in upper case is never found. *)
Theorem nbu_find_first data code :
  ((∀ i, i ∈ data → item_code i ≠ code) →
   nbu_find data code = Raise (RuntimeError ("NBU: currency not found: " +:+ code))) ∧
  (∀ before i after,
     data = before ++ i :: after →
     (∀ j, j ∈ before → item_code j ≠ code) → item_code i = code →
     nbu_find data code = nbu_find [i] code) ∧
  (∀ r, nbu_find data code = Ok r →
     ∃ i, i ∈ data ∧ item_code i = code ∧ NbuItem.rate i = Some r) ∧
  (upper code ≠ code → ∀ r, nbu_find data code ≠ Ok r).
Proof.
  unfold item_code. split; [|split; [|split]].
  - induction data as [|j data IH]; [done|]. intros Hno. simpl.
    rewrite decide_False; [apply Hno; by left|]. apply IH. intros i Hi. apply Hno. by right.
  - intros before i after -> Hbefore Hi.
    induction before as [|j before IH]; simpl.
    + by rewrite !decide_True.
    + rewrite decide_False; [apply Hbefore; by left|].
      apply IH. intros w Hw. apply Hbefore. by right.
  - induction data as [|j data IH]; [done|]. intros r. simpl.
    destruct (decide (upper (or_text (NbuItem.cc j) "") = code)) as [Hj|Hj].
    + destruct (NbuItem.rate j) as [x|] eqn:Hrate; [|done]. intros [= <-].
      exists j. split; [by left|done].
    + intros Hr. destruct (IH r Hr) as (i & Hi & Hrest). exists i. split; [by right|done].
  - intros Hcase. induction data as [|j data IH]; [done|]. intros r. simpl.
    destruct (decide (upper (or_text (NbuItem.cc j) "") = code)) as [Hj|Hj]; [|apply IH].
    destruct Hcase. by rewrite -Hj upper_idemp.
Qed.
